(** * Image kernels of img_blur_fusion.metal: a shallow embedding

    The kernels of [img_blur_fusion.metal] are embedded as programs of a small
    state monad over device memory.  Integers are the 32-bit integers of the
    shading language with their wrap-around written out, [float] is IEEE-754
    single precision (the Standard Library's [SpecFloat] at precision 24),
    device buffers are arrays of cells addressed by an integer offset, and
    every load and store is recorded in an access log, so that statements
    about what a kernel touches can be made next to statements about what it
    computes. *)

From Stdlib Require Import ZArith List Bool Lia SpecFloat.
Import ListNotations.
Open Scope Z_scope.

(** ** Machine integers *)

Module Int.

(** [uint]: the value modulo 2^32. *)
Definition u32 (z : Z) : Z := z mod 2 ^ 32.

(** [int]: two's complement on 32 bits. *)
Definition s32 (z : Z) : Z := (z + 2 ^ 31) mod 2 ^ 32 - 2 ^ 31.

(** [uchar]: the value modulo 2^8. *)
Definition u8 (z : Z) : Z := z mod 2 ^ 8.

(** Sign extension of the low 24 bits, the operand format of [mul24] and
    [mad24]. *)
Definition sx24 (z : Z) : Z := (z + 2 ^ 23) mod 2 ^ 24 - 2 ^ 23.

(** [mul24(x, y)]: the 32-bit product of the low 24 bits of the operands. *)
Definition mul24 (x y : Z) : Z := s32 (sx24 x * sx24 y).

(** [mad24(x, y, z)]: [mul24(x, y) + z] on 32 bits. *)
Definition mad24 (x y z : Z) : Z := s32 (sx24 x * sx24 y + z).

(** [a / b] and [a % b] on [int] truncate toward zero. *)
Definition div (a b : Z) : Z := s32 (Z.quot a b).
Definition rem (a b : Z) : Z := s32 (Z.rem a b).

(** [a >> n] on [int] is the arithmetic shift. *)
Definition shr (a n : Z) : Z := Z.shiftr a n.

(** [#define INC(x, l) min(x + 1, l - 1)] *)
Definition INC (x l : Z) : Z := Z.min (s32 (x + 1)) (s32 (l - 1)).

Definition in_int (z : Z) : Prop := - 2 ^ 31 <= z < 2 ^ 31.
Definition in_i24 (z : Z) : Prop := - 2 ^ 23 <= z < 2 ^ 23.

End Int.

(** ** Single-precision floating point *)

Definition float : Type := spec_float.

Module F32.

Definition prec : Z := 24.
Definition emax : Z := 128.

Definition add : float -> float -> float := SFadd prec emax.
Definition sub : float -> float -> float := SFsub prec emax.
Definition mul : float -> float -> float := SFmul prec emax.
Definition div : float -> float -> float := SFdiv prec emax.
Definition ltb : float -> float -> bool := SFltb.
Definition leb : float -> float -> bool := SFleb.
Definition gtb (a b : float) : bool := SFltb b a.
Definition geb (a b : float) : bool := SFleb b a.

(** Conversion of an integer to [float], rounding to nearest even. *)
Definition of_Z (z : Z) : float := binary_normalize prec emax z 0 false.

Definition zero : float := S754_zero false.
Definition one : float := Eval cbv in of_Z 1.
Definition half : float := Eval cbv in div (of_Z 1) (of_Z 2).

(** The integer part of a float, rounding toward zero. *)
Definition trunc (f : float) : Z :=
  match f with
  | S754_finite s m e =>
      let a := Z.shiftl (Zpos m) e in if s then - a else a
  | _ => 0
  end.

(** The largest integer not above a float. *)
Definition floorZ (f : float) : Z :=
  match f with
  | S754_finite s m e => Z.shiftl (if s then Zneg m else Zpos m) e
  | _ => 0
  end.

(** [floor(f)] as a float. *)
Definition floor (f : float) : float :=
  match f with
  | S754_finite _ _ _ => of_Z (floorZ f)
  | _ => f
  end.

Definition clampZ (lo hi z : Z) : Z := Z.max lo (Z.min hi z).

(** The casts [(uint)f], [(int)f] and [(uchar)f] round toward zero.  The
    language leaves the result open when the integer part does not fit the
    target type; the model saturates there and sends NaN to 0, as the GPU
    conversion instructions do. *)
Definition to_range (lo hi : Z) (f : float) : Z :=
  match f with
  | S754_nan => 0
  | S754_infinity s => if s then lo else hi
  | _ => clampZ lo hi (trunc f)
  end.

Definition to_uint : float -> Z := to_range 0 (2 ^ 32 - 1).
Definition to_int : float -> Z := to_range (- 2 ^ 31) (2 ^ 31 - 1).
Definition to_uchar : float -> Z := to_range 0 255.

End F32.

(** ** Four-component vectors ([float4], [uchar4]) *)

Record vec4 (A : Type) : Type := V4 { vx : A; vy : A; vz : A; vw : A }.
Arguments V4 {A} _ _ _ _.
Arguments vx {A} _.
Arguments vy {A} _.
Arguments vz {A} _.
Arguments vw {A} _.

Definition float4 : Type := vec4 float.

Definition splat {A} (a : A) : vec4 A := V4 a a a a.

Definition map4 {A B} (f : A -> B) (v : vec4 A) : vec4 B :=
  V4 (f (vx v)) (f (vy v)) (f (vz v)) (f (vw v)).

Definition zip4 {A B C} (f : A -> B -> C) (u : vec4 A) (v : vec4 B) : vec4 C :=
  V4 (f (vx u) (vx v)) (f (vy u) (vy v)) (f (vz u) (vz v)) (f (vw u) (vw v)).

(** [float4 + float4], [float4 - float4] and [float4 * float]. *)
Definition add4 : float4 -> float4 -> float4 := zip4 F32.add.
Definition sub4 : float4 -> float4 -> float4 := zip4 F32.sub.
Definition scale4 (v : float4) (k : float) : float4 := map4 (fun c => F32.mul c k) v.

(** The channel of a vector by number: 0, 1, 2, 3 for x, y, z, w. *)
Definition chan {A} (k : nat) (v : vec4 A) : A :=
  match k with
  | O => vx v
  | 1%nat => vy v
  | 2%nat => vz v
  | _ => vw v
  end.

(** ** Packed pixels *)

(** Channel [k] of a packed 32-bit pixel: bits [8k, 8k+8). *)
Definition byte_of (p : Z) (k : nat) : Z :=
  Z.land (Z.shiftr p (8 * Z.of_nat k)) 255.

Definition dataUchar4ToFloat4 (uiPacked : Z) : float4 :=
  V4 (F32.of_Z (Z.land uiPacked 255))
     (F32.of_Z (Z.land (Z.shiftr uiPacked 8) 255))
     (F32.of_Z (Z.land (Z.shiftr uiPacked 16) 255))
     (F32.of_Z (Z.land (Z.shiftr uiPacked 24) 255)).

Definition dataFloat4ToUchar4 (data_f4 : float4) : Z :=
  let uiPacked := 0 in
  let uiPacked := Z.lor uiPacked (Z.land 255 (F32.to_uint (vx data_f4))) in
  let uiPacked :=
    Z.lor uiPacked (Z.land 65280 (Int.u32 (Z.shiftl (F32.to_uint (vy data_f4)) 8))) in
  let uiPacked :=
    Z.lor uiPacked (Z.land 16711680 (Int.u32 (Z.shiftl (F32.to_uint (vz data_f4)) 16))) in
  let uiPacked :=
    Z.lor uiPacked (Z.land 4278190080 (Int.u32 (Z.shiftl (F32.to_uint (vw data_f4)) 24))) in
  uiPacked.

(** ** Device memory and the kernel monad *)

(** A buffer is named by the binding slot the host attached it to.  Two
    kernel parameters bound to the same slot alias. *)
Definition buffer : Type := nat.

Definition memory : Type := buffer -> Z -> Z.

Inductive access : Type :=
| Load (b : buffer) (i : Z)
| Store (b : buffer) (i : Z) (v : Z).

(** The access log is kept most recent first. *)
Record state : Type := State { mem : memory; log : list access }.

Definition M (A : Type) : Type := state -> A * state.

Definition ret {A} (a : A) : M A := fun s => (a, s).

Definition bind {A B} (c : M A) (k : A -> M B) : M B :=
  fun s => let (a, s') := c s in k a s'.

Declare Scope kernel_scope.
Delimit Scope kernel_scope with kernel.
Notation "x <- c ;; k" := (bind c (fun x => k))
  (at level 61, c at next level, right associativity) : kernel_scope.
Notation "c ;; k" := (bind c (fun _ => k))
  (at level 61, right associativity) : kernel_scope.
Open Scope kernel_scope.

Definition upd (m : memory) (b : buffer) (i v : Z) : memory :=
  fun b' i' => if Nat.eqb b' b && Z.eqb i' i then v else m b' i'.

(** A cell is read at the width of the pointer it is read through. *)
Definition peek8 (m : memory) (b : buffer) (i : Z) : Z := Int.u8 (m b i).
Definition peek32 (m : memory) (b : buffer) (i : Z) : Z := Int.u32 (m b i).

Definition load8 (b : buffer) (i : Z) : M Z :=
  fun s => (peek8 (mem s) b i, State (mem s) (Load b i :: log s)).

Definition load32 (b : buffer) (i : Z) : M Z :=
  fun s => (peek32 (mem s) b i, State (mem s) (Load b i :: log s)).

Definition store8 (b : buffer) (i v : Z) : M unit :=
  fun s => (tt, State (upd (mem s) b i (Int.u8 v)) (Store b i (Int.u8 v) :: log s)).

Definition store32 (b : buffer) (i v : Z) : M unit :=
  fun s => (tt, State (upd (mem s) b i (Int.u32 v)) (Store b i (Int.u32 v) :: log s)).

(** [vload4(offset, p)]: the four bytes at [p + 4 * offset]. *)
Definition vload4 (offset : Z) (p : buffer) : M (vec4 Z) :=
  a <- load8 p (4 * offset) ;;
  b <- load8 p (4 * offset + 1) ;;
  c <- load8 p (4 * offset + 2) ;;
  d <- load8 p (4 * offset + 3) ;;
  ret (V4 a b c d).

(** [*((uchar4* )p + i) = v] *)
Definition vstore4 (p : buffer) (i : Z) (v : vec4 Z) : M unit :=
  store8 p (4 * i) (vx v) ;;
  store8 p (4 * i + 1) (vy v) ;;
  store8 p (4 * i + 2) (vz v) ;;
  store8 p (4 * i + 3) (vw v).

(** [*((device uchar2* )&p[i])] read and written. *)
Definition load_uchar2 (p : buffer) (i : Z) : M (Z * Z) :=
  a <- load8 p i ;;
  b <- load8 p (i + 1) ;;
  ret (a, b).

Definition store_uchar2 (p : buffer) (i : Z) (v : Z * Z) : M unit :=
  store8 p i (fst v) ;;
  store8 p (i + 1) (snd v).

(** Running a kernel from a memory with an empty log. *)
Definition run {A} (c : M A) (m : memory) : state := snd (c (State m [])).

(** A dispatch runs one invocation per thread of a list, one after the other. *)
Fixpoint dispatch {T} (k : T -> M unit) (threads : list T) : M unit :=
  match threads with
  | [] => ret tt
  | t :: rest => k t ;; dispatch k rest
  end.

(** The positions of a [w] by [h] grid, row by row. *)
Definition grid (w h : nat) : list (Z * Z) :=
  flat_map (fun y => map (fun x => (Z.of_nat x, Z.of_nat y)) (seq 0 w)) (seq 0 h).

(** A memory from the contents of its buffers, and the contents back. *)
Definition mem_of (bufs : list (buffer * list Z)) : memory :=
  fun b i =>
    match find (fun p => Nat.eqb (fst p) b) bufs with
    | Some p => if i <? 0 then 0 else nth (Z.to_nat i) (snd p) 0
    | None => 0
    end.

Definition contents (m : memory) (b : buffer) (n : nat) : list Z :=
  map (fun i => m b (Z.of_nat i)) (seq 0 n).

(** ** Transpose *)

(** Thread coordinates ([index], [groupId], [localId], [localSize]) are pairs
    of [uint]; the kernels convert them to [int] on entry. *)
Definition uint2 : Type := (Z * Z)%type.

(** The part of [Transpose] before the barrier: the tile element of this
    thread goes from [idata] to the staging buffer [block]. *)
Definition Transpose_load (idata : buffer) (width height : Z) (block : buffer)
    (index localSize localId : uint2) : M unit :=
  let xIndex := Int.s32 (fst index) in
  let yIndex := Int.s32 (snd index) in
  if (xIndex <? width) && (yIndex <? height) then
    let index_inp := Int.mad24 yIndex width xIndex in
    let index_blk := Int.s32 (snd localId * (fst localSize + 1) + fst localId) in
    v <- load8 idata index_inp ;;
    store8 block index_blk v
  else ret tt.

(** The part after the barrier: the staged element of the mirrored tile
    position goes to [odata]. *)
Definition Transpose_store (width height : Z) (block odata : buffer)
    (localSize groupId localId : uint2) : M unit :=
  let localSizeX := Int.s32 (fst localSize) in
  let localSizeY := Int.s32 (snd localSize) in
  let group_id_X := Int.s32 (fst groupId) in
  let group_id_Y := Int.s32 (snd groupId) in
  let xIndex := Int.s32 (Int.mul24 group_id_Y localSizeY + fst localId) in
  let yIndex := Int.s32 (Int.mul24 group_id_X localSizeX + snd localId) in
  if (xIndex <? height) && (yIndex <? width) then
    let index_blk := Int.s32 (fst localId * (snd localSize + 1) + snd localId) in
    let index_out := Int.mad24 yIndex height xIndex in
    v <- load8 block index_blk ;;
    store8 odata index_out v
  else ret tt.

(** One invocation, as the kernel text reads when the barrier is ignored. *)
Definition Transpose (idata : buffer) (width height : Z) (block odata : buffer)
    (index localSize groupId localId : uint2) : M unit :=
  Transpose_load idata width height block index localSize localId ;;
  Transpose_store width height block odata localSize groupId localId.

(** The position in the grid of thread [localId] of group [groupId]. *)
Definition thread_position (localSize groupId localId : uint2) : uint2 :=
  (Int.u32 (fst groupId * fst localSize + fst localId),
   Int.u32 (snd groupId * snd localSize + snd localId)).

(** One thread group: [threadgroup_barrier] makes every thread of the group
    finish its load before any thread of the group starts its store. *)
Definition Transpose_group (idata : buffer) (width height : Z) (block odata : buffer)
    (localSize : uint2) (locals : list uint2) (groupId : uint2) : M unit :=
  dispatch (fun localId =>
              Transpose_load idata width height block
                (thread_position localSize groupId localId) localSize localId) locals ;;
  dispatch (Transpose_store width height block odata localSize groupId) locals.

(** A grid of thread groups; the staging buffer is reused from group to
    group, so a group may find in it what an earlier group left. *)
Definition Transpose_grid (idata : buffer) (width height : Z) (block odata : buffer)
    (localSize : uint2) (locals groups : list uint2) : M unit :=
  dispatch (Transpose_group idata width height block odata localSize locals) groups.

(** ** GaussianBlur *)

Definition zero4 : float4 := splat F32.zero.

(** [yc = (xc * a0) + (xp * a1) - (yp * b1) - (yb * b2)] *)
Definition blur_tap (c0 c1 b1 b2 : float) (x0 x1 y1 y2 : float4) : float4 :=
  sub4 (sub4 (add4 (scale4 x0 c0) (scale4 x1 c1)) (scale4 y1 b1)) (scale4 y2 b2).

(** The forward loop; [n] counts the rows left, the state is the two
    pointers and [xp], [yp], [yb]. *)
Fixpoint GaussianBlur_forward (n : nat) (inp out : buffer) (iWidth : Z)
    (a0 a1 b1 b2 : float) (puiDataInp puiDataOut : Z) (xp yp yb : float4)
    : M (Z * Z) :=
  match n with
  | O => ret (puiDataInp, puiDataOut)
  | S n' =>
      c <- load32 inp puiDataInp ;;
      let xc := dataUchar4ToFloat4 c in
      let yc := blur_tap a0 a1 b1 b2 xc xp yp yb in
      store32 out puiDataOut (dataFloat4ToUchar4 yc) ;;
      GaussianBlur_forward n' inp out iWidth a0 a1 b1 b2
        (puiDataInp + iWidth) (puiDataOut + iWidth) xc yc yp
  end.

(** The reverse loop, with [xn], [xa], [yn], [ya]. *)
Fixpoint GaussianBlur_reverse (n : nat) (inp out : buffer) (iWidth : Z)
    (a2 a3 b1 b2 : float) (puiDataInp puiDataOut : Z) (xn xa yn ya : float4)
    : M unit :=
  match n with
  | O => ret tt
  | S n' =>
      c <- load32 inp puiDataInp ;;
      let xc := dataUchar4ToFloat4 c in
      let yc := blur_tap a2 a3 b1 b2 xn xa yn ya in
      o <- load32 out puiDataOut ;;
      let fTemp := add4 (dataUchar4ToFloat4 o) yc in
      store32 out puiDataOut (dataFloat4ToUchar4 fTemp) ;;
      GaussianBlur_reverse n' inp out iWidth a2 a3 b1 b2
        (puiDataInp - iWidth) (puiDataOut - iWidth) xc xn yc yn
  end.

(** [YL_CL_CLAMP_TO_EDGE] is the compile-time switch of the two [#ifdef]
    blocks. *)
Definition GaussianBlur (YL_CL_CLAMP_TO_EDGE : bool) (puiDataInp_ : buffer)
    (iWidth iHeight : Z) (a0 a1 a2 a3 b1 b2 coefp coefn : float)
    (puiDataOut_ : buffer) (groupId localSize localId : uint2) : M unit :=
  let localSizeX := Int.s32 (fst localSize) in
  let group_id_x := Int.s32 (fst groupId) in
  let local_id_x := Int.s32 (fst localId) in
  let nIdX := Int.mad24 group_id_x localSizeX local_id_x in
  if nIdX >=? iWidth then ret tt
  else
    let puiDataInp := nIdX in
    let puiDataOut := nIdX in
    seed <- (if YL_CL_CLAMP_TO_EDGE
             then c <- load32 puiDataInp_ puiDataInp ;;
                  let xp := dataUchar4ToFloat4 c in
                  let yb := zip4 F32.mul xp (splat coefp) in
                  ret (xp, yb, yb)
             else ret (zero4, zero4, zero4)) ;;
    let '(xp, yp, yb) := seed in
    p <- GaussianBlur_forward (Z.to_nat iHeight) puiDataInp_ puiDataOut_ iWidth
           a0 a1 b1 b2 puiDataInp puiDataOut xp yp yb ;;
    let puiDataInp := fst p - iWidth in
    let puiDataOut := snd p - iWidth in
    seed <- (if YL_CL_CLAMP_TO_EDGE
             then c <- load32 puiDataInp_ puiDataInp ;;
                  let xn := dataUchar4ToFloat4 c in
                  let yn := zip4 F32.mul xn (splat coefn) in
                  ret (xn, xn, yn, yn)
             else ret (zero4, zero4, zero4, zero4)) ;;
    let '(xn, xa, yn, ya) := seed in
    GaussianBlur_reverse (Z.to_nat iHeight) puiDataInp_ puiDataOut_ iWidth
      a2 a3 b1 b2 puiDataInp puiDataOut xn xa yn ya.

(** The column a thread of [GaussianBlur] works on. *)
Definition blur_column (groupId localSize localId : uint2) : Z :=
  Int.mad24 (Int.s32 (fst groupId)) (Int.s32 (fst localSize)) (Int.s32 (fst localId)).

(** ** Fusion *)

(** One channel of the fusion: the two tests of the kernel, in its order. *)
Definition fuse (fMinThresh fMaxThresh FramValue ForeValue FusnValue BackValue : float)
    : float :=
  if F32.geb ForeValue fMinThresh && F32.ltb ForeValue fMaxThresh
  then F32.add (F32.mul FramValue ForeValue) (F32.mul FusnValue BackValue)
  else if F32.geb ForeValue fMaxThresh then FramValue
  else FusnValue.

(** The kernel uses [localSize] without declaring it; it is taken as the
    thread-group size, as in the other kernels. *)
Definition Fusion (puiDataIn pucFrame piLabelIn : buffer) (iWidth iHeight : Z)
    (fMinThresh fMaxThresh : float) (puiDataOut : buffer)
    (groupId localSize localId : uint2) : M unit :=
  let fl4_DivdScale := splat (F32.of_Z 255) in
  let fl4_EqulScale := splat F32.one in
  let X := Int.u32 (fst groupId * fst localSize + fst localId) in
  let Y := Int.u32 (snd groupId * snd localSize + snd localId) in
  if (X <? Int.u32 iWidth) && (Y <? Int.u32 iHeight) then
    let nOffSet := Int.s32 (Y * iWidth + X) in
    b <- load32 puiDataIn nOffSet ;;
    let fl4_BlurValue := dataUchar4ToFloat4 b in
    l <- load32 piLabelIn nOffSet ;;
    let fl4_ForeValue := dataUchar4ToFloat4 l in
    uc4_FramValue <- vload4 nOffSet pucFrame ;;
    let fl4_FusnValue := fl4_BlurValue in
    let fl4_ForeValue := zip4 F32.div fl4_ForeValue fl4_DivdScale in
    let fl4_BackValue := sub4 fl4_EqulScale fl4_ForeValue in
    let fl4_FramValue := map4 F32.of_Z uc4_FramValue in
    let fl4_FusnValue :=
      V4 (fuse fMinThresh fMaxThresh (vx fl4_FramValue) (vx fl4_ForeValue)
            (vx fl4_FusnValue) (vx fl4_BackValue))
         (fuse fMinThresh fMaxThresh (vy fl4_FramValue) (vy fl4_ForeValue)
            (vy fl4_FusnValue) (vy fl4_BackValue))
         (fuse fMinThresh fMaxThresh (vz fl4_FramValue) (vz fl4_ForeValue)
            (vz fl4_FusnValue) (vz fl4_BackValue))
         (fuse fMinThresh fMaxThresh (vw fl4_FramValue) (vw fl4_ForeValue)
            (vw fl4_FusnValue) (vw fl4_BackValue)) in
    store32 puiDataOut nOffSet (dataFloat4ToUchar4 fl4_FusnValue)
  else ret tt.

(** ** ResizeBillinear *)

Definition ResizeBillinear (srcptr : buffer) (src_step src_rows src_cols : Z)
    (ifx ify : float) (dstptr : buffer) (dst_step dst_rows dst_cols : Z)
    (index : uint2) : M unit :=
  let dx := Int.s32 (fst index) in
  let dy := Int.s32 (snd index) in
  let inv_fx := F32.div F32.one ifx in
  let inv_fy := F32.div F32.one ify in
  if (dx <? dst_cols) && (dy <? dst_rows) then
    let sx := F32.sub (F32.mul (F32.add (F32.of_Z dx) F32.half) inv_fx) F32.half in
    let sy := F32.sub (F32.mul (F32.add (F32.of_Z dy) F32.half) inv_fy) F32.half in
    let x := F32.to_int (F32.floor sx) in
    let y := F32.to_int (F32.floor sy) in
    let u := F32.sub sx (F32.of_Z x) in
    let v := F32.sub sy (F32.of_Z y) in
    let '(x, u) := if x <? 0 then (0, F32.zero) else (x, u) in
    let '(x, u) := if x >=? src_cols then (Int.s32 (src_cols - 1), F32.zero) else (x, u) in
    let '(y, v) := if y <? 0 then (0, F32.zero) else (y, v) in
    let '(y, v) := if y >=? src_rows then (Int.s32 (src_rows - 1), F32.zero) else (y, v) in
    let y_ := Int.INC y src_rows in
    let x_ := Int.INC x src_cols in
    let u1 := F32.sub F32.one u in
    let v1 := F32.sub F32.one v in
    data0 <- load8 srcptr (Int.mad24 y src_step x) ;;
    data1 <- load8 srcptr (Int.mad24 y src_step x_) ;;
    data2 <- load8 srcptr (Int.mad24 y_ src_step x) ;;
    data3 <- load8 srcptr (Int.mad24 y_ src_step x_) ;;
    let fval :=
      F32.add (F32.add (F32.add (F32.mul (F32.mul u1 v1) (F32.of_Z data0))
                                (F32.mul (F32.mul u v1) (F32.of_Z data1)))
                       (F32.mul (F32.mul u1 v) (F32.of_Z data2)))
              (F32.mul (F32.mul u v) (F32.of_Z data3)) in
    let nOffSet := Int.mad24 dy dst_step dx in
    let fval := if F32.leb (F32.add fval F32.half) F32.zero
                then F32.zero else F32.add fval F32.half in
    let pixel := F32.to_uchar (if F32.gtb fval (F32.of_Z 255) then F32.of_Z 255 else fval) in
    store8 dstptr nOffSet pixel
  else ret tt.

(** ** Format conversion between NV12 and I420 *)

(** [srcConfig] and [dstConfig] are arrays of [int], [RectConfig] an array of
    [float]; they are small parameter blocks, read by position, and reading
    them is not entered in the access log. *)
Definition config : Type := list Z.
Definition rect_config : Type := list float.

Definition CONFIG_WIDTH : nat := 0.
Definition CONFIG_HEIGHT : nat := 1.
Definition CONFIG_X : nat := 2.
Definition CONFIG_Y : nat := 3.
Definition CONFIG_HALF_W : nat := 4.
Definition CONFIG_WH : nat := 5.
Definition RECT_KX : nat := 0.
Definition RECT_KY : nat := 1.

Definition cfg (c : config) (i : nat) : Z := nth i c 0.
Definition rect (r : rect_config) (i : nat) : float := nth i r F32.zero.

(** [origin + now * k], computed in [float]. *)
Definition src_coordinate (origin now : Z) (k : float) : float :=
  F32.add (F32.of_Z origin) (F32.mul (F32.of_Z now) k).

(** [coordinate & 0xfffffffe] *)
Definition even_align (c : Z) : Z := Int.s32 (Z.land (Int.u32 c) 4294967294).

(** [a + (b - a) * t] on [uchar] operands, stored back into a [uchar]. *)
Definition lerp_uchar (a b : Z) (t : float) : Z :=
  F32.to_uchar (F32.add (F32.of_Z a) (F32.mul (F32.of_Z (b - a)) t)).

Definition ScaleConvert_NV12_I420 (src : buffer) (srcConfig : config)
    (dst_y dst_u dst_v : buffer) (dstConfig : config) (RectConfig : rect_config)
    (index : uint2) : M unit :=
  let nowCoordinate := (Int.s32 (fst index), Int.s32 (snd index)) in
  let srcCoordinate :=
    (src_coordinate (cfg srcConfig CONFIG_X) (fst nowCoordinate) (rect RectConfig RECT_KX),
     src_coordinate (cfg srcConfig CONFIG_Y) (snd nowCoordinate) (rect RectConfig RECT_KY)) in
  let dstCoordinate :=
    (Int.s32 (fst nowCoordinate + cfg dstConfig CONFIG_X),
     Int.s32 (snd nowCoordinate + cfg dstConfig CONFIG_Y)) in
  let srcIntCoordinate := (F32.to_int (fst srcCoordinate), F32.to_int (snd srcCoordinate)) in
  let decimal :=
    (F32.sub (fst srcCoordinate) (F32.of_Z (fst srcIntCoordinate)),
     F32.sub (snd srcCoordinate) (F32.of_Z (snd srcIntCoordinate))) in
  let srcNum :=
    Int.mad24 (snd srcIntCoordinate) (cfg srcConfig CONFIG_WIDTH) (fst srcIntCoordinate) in
  let dstNum :=
    Int.mad24 (snd dstCoordinate) (cfg dstConfig CONFIG_WIDTH) (fst dstCoordinate) in
  x00_10 <- load_uchar2 src srcNum ;;
  x01_11 <- load_uchar2 src (Int.s32 (srcNum + cfg srcConfig CONFIG_WIDTH)) ;;
  let x00 := lerp_uchar (fst x00_10) (fst x01_11) (snd decimal) in
  let x10 := lerp_uchar (snd x00_10) (snd x01_11) (snd decimal) in
  let x00 := lerp_uchar x00 x10 (fst decimal) in
  store8 dst_y dstNum x00 ;;
  if (Int.rem (fst dstCoordinate) 2 =? 0) && (Int.rem (snd dstCoordinate) 2 =? 0) then
    let srcIntCoordinate :=
      (even_align (fst srcIntCoordinate), even_align (snd srcIntCoordinate)) in
    let srcUVnum :=
      Int.mad24 (cfg srcConfig CONFIG_HALF_W) (snd srcIntCoordinate)
        (Int.s32 (fst srcIntCoordinate + cfg srcConfig CONFIG_WH)) in
    color <- load_uchar2 src srcUVnum ;;
    let nowUNum :=
      Int.mad24 (Int.div (cfg dstConfig CONFIG_WIDTH) 4) (snd dstCoordinate)
        (Int.div (fst dstCoordinate) 2) in
    store8 dst_u nowUNum (fst color) ;;
    store8 dst_v nowUNum (snd color)
  else ret tt.

Definition NV12_I420 (src : buffer) (srcConfig : config)
    (dsty dstu dstv : buffer) (dstConfig : config) (RectConfig : rect_config)
    (index : uint2) : M unit :=
  let nowCoordinate := (Int.s32 (fst index), Int.s32 (snd index)) in
  let srcCoordinate :=
    (src_coordinate (cfg srcConfig CONFIG_X) (fst nowCoordinate) (rect RectConfig RECT_KX),
     src_coordinate (cfg srcConfig CONFIG_Y) (snd nowCoordinate) (rect RectConfig RECT_KY)) in
  if snd nowCoordinate >=? cfg dstConfig CONFIG_WIDTH then ret tt
  else
    let dstCoordinate :=
      (Int.s32 (fst nowCoordinate + cfg dstConfig CONFIG_X),
       Int.s32 (snd nowCoordinate + cfg dstConfig CONFIG_Y)) in
    let srcIntCoordinate := (F32.to_int (fst srcCoordinate), F32.to_int (snd srcCoordinate)) in
    let srcNum :=
      Int.mad24 (snd srcIntCoordinate) (cfg srcConfig CONFIG_WIDTH) (fst srcIntCoordinate) in
    let dstNum :=
      Int.mad24 (snd dstCoordinate) (cfg dstConfig CONFIG_WIDTH) (fst dstCoordinate) in
    x00_10 <- load_uchar2 src srcNum ;;
    store8 dsty dstNum (fst x00_10) ;;
    if (Int.rem (fst dstCoordinate) 2 =? 0) && (Int.rem (snd dstCoordinate) 2 =? 0) then
      let srcIntCoordinate :=
        (even_align (fst srcIntCoordinate), even_align (snd srcIntCoordinate)) in
      let srcUVnum :=
        Int.mad24 (cfg srcConfig CONFIG_HALF_W) (snd srcIntCoordinate)
          (Int.s32 (fst srcIntCoordinate + cfg srcConfig CONFIG_WH)) in
      color <- load_uchar2 src srcUVnum ;;
      let nowUNum :=
        Int.mad24 (Int.div (cfg dstConfig CONFIG_WIDTH) 4) (snd dstCoordinate)
          (Int.div (fst dstCoordinate) 2) in
      store8 dstu nowUNum (fst color) ;;
      store8 dstv nowUNum (snd color)
    else ret tt.

Definition I420_NV12 (srcy srcu srcv : buffer) (srcConfig : config)
    (dst : buffer) (dstConfig : config) (RectConfig : rect_config)
    (index : uint2) : M unit :=
  let nowCoordinate := (Int.s32 (fst index), Int.s32 (snd index)) in
  if snd nowCoordinate >=? cfg srcConfig CONFIG_HEIGHT then ret tt
  else if fst nowCoordinate >=? cfg srcConfig CONFIG_WIDTH then ret tt
  else
    let srcCoordinate :=
      (src_coordinate (cfg srcConfig CONFIG_X) (fst nowCoordinate) (rect RectConfig RECT_KX),
       src_coordinate (cfg srcConfig CONFIG_Y) (snd nowCoordinate) (rect RectConfig RECT_KY)) in
    let dstCoordinate :=
      (Int.s32 (fst nowCoordinate + cfg dstConfig CONFIG_X),
       Int.s32 (snd nowCoordinate + cfg dstConfig CONFIG_Y)) in
    let srcIntCoordinate := (F32.to_int (fst srcCoordinate), F32.to_int (snd srcCoordinate)) in
    let srcNum :=
      Int.mad24 (snd srcIntCoordinate) (cfg srcConfig CONFIG_WIDTH) (fst srcIntCoordinate) in
    let dstNum :=
      Int.mad24 (snd dstCoordinate) (cfg dstConfig CONFIG_WIDTH) (fst dstCoordinate) in
    x00_10 <- load_uchar2 srcy srcNum ;;
    store8 dst dstNum (fst x00_10) ;;
    if (Int.rem (fst dstCoordinate) 2 =? 0) && (Int.rem (snd dstCoordinate) 2 =? 0) then
      let srcIntCoordinate :=
        (even_align (fst srcIntCoordinate), even_align (snd srcIntCoordinate)) in
      let nowUNum :=
        Int.mad24 (Int.div (cfg srcConfig CONFIG_WIDTH) 4) (snd srcIntCoordinate)
          (Int.div (fst srcIntCoordinate) 2) in
      cu <- load8 srcu nowUNum ;;
      cv <- load8 srcv nowUNum ;;
      let dstUVnum :=
        Int.mad24 (cfg dstConfig CONFIG_HALF_W) (snd dstCoordinate)
          (Int.s32 (fst dstCoordinate + cfg dstConfig CONFIG_WH)) in
      store_uchar2 dst dstUVnum (cu, cv)
    else ret tt.

(** ** Padding *)

(** [for (i = lo; i < hi; i++) *(dst_4 + i) = vload4(base + i - lo, src)],
    entered with [n] iterations left. *)
Fixpoint copy_uchar4 (n : nat) (src dst : buffer) (base lo i : Z) : M unit :=
  match n with
  | O => ret tt
  | S n' =>
      v <- vload4 (Int.s32 (base + i - lo)) src ;;
      vstore4 dst i v ;;
      copy_uchar4 n' src dst base lo (i + 1)
  end.

(** [for (i = lo; i < hi; i++) *(dst_4 + i) = (uchar4)0] *)
Fixpoint zero_uchar4 (n : nat) (dst : buffer) (i : Z) : M unit :=
  match n with
  | O => ret tt
  | S n' => vstore4 dst i (splat 0) ;; zero_uchar4 n' dst (i + 1)
  end.

Definition NV12_Remove_Padding (src : buffer) (width height : Z) (dst : buffer)
    (owidth oheight : Z) (index : uint2) : M unit :=
  let id := Int.s32 (fst index) in
  if id >? Int.s32 (oheight - 1) then ret tt
  else
    let index_dst := Int.s32 (id * owidth) in
    let id :=
      if id >? Int.s32 (Int.div (Int.s32 (oheight * 2)) 3 - 1)
      then Int.s32 (id + Int.div (Int.s32 (Int.s32 (height - oheight) * 2)) 3)
      else id in
    let index_src := Int.s32 (id * width) in
    let lo := Int.shr index_dst 2 in
    let hi := Int.shr (Int.s32 (index_dst + owidth)) 2 in
    copy_uchar4 (Z.to_nat (hi - lo)) src dst (Int.shr index_src 2) lo lo.

Definition NV12_Add_Padding (src : buffer) (width height : Z) (dst : buffer)
    (owidth oheight : Z) (index : uint2) : M unit :=
  let id := Int.s32 (fst index) in
  let Y_height := Int.div (Int.s32 (height * 2)) 3 in
  let Y_padding_lines := Int.div (Int.s32 (Int.s32 (oheight - height) * 2)) 3 in
  if id >? Int.s32 (oheight - 1) then ret tt
  else
    let index_dst := Int.s32 (id * owidth) in
    let lo := Int.shr index_dst 2 in
    let hi := Int.shr (Int.s32 (index_dst + owidth)) 2 in
    if ((id >=? Y_height) && (id <? Int.s32 (Y_height + Y_padding_lines)))
       || (id >? Int.s32 (Int.s32 (height + Y_padding_lines) - 1))
    then zero_uchar4 (Z.to_nat (hi - lo)) dst lo
    else
      let id := if id >=? Int.s32 (Y_height + Y_padding_lines)
                then Int.s32 (id - Y_padding_lines) else id in
      let index_src := Int.s32 (id * width) in
      let mid := Int.shr (Int.s32 (index_dst + width)) 2 in
      copy_uchar4 (Z.to_nat (mid - lo)) src dst (Int.shr index_src 2) lo lo ;;
      if owidth >? width
      then zero_uchar4 (Z.to_nat (hi - mid)) dst mid
      else ret tt.

(** ** Auxiliary definitions for the statements *)

(** The word [dataFloat4ToUchar4] assembles from four converted channels. *)
Definition pack4 (a b c d : Z) : Z :=
  Z.lor (Z.lor (Z.lor (Z.lor 0 (Z.land 255 a))
                      (Z.land 65280 (Int.u32 (Z.shiftl b 8))))
               (Z.land 16711680 (Int.u32 (Z.shiftl c 16))))
        (Z.land 4278190080 (Int.u32 (Z.shiftl d 24))).

(** What was stored to buffer [b], oldest first, as (index, value). *)
Fixpoint writes_to (b : buffer) (l : list access) : list (Z * Z) :=
  match l with
  | [] => []
  | Store b' i v :: l' =>
      if Nat.eqb b' b then writes_to b l' ++ [(i, v)] else writes_to b l'
  | Load _ _ :: l' => writes_to b l'
  end.

(** The responses of the recursive filter on one column, by the recurrences
    of the two passes.  [column r] is the input pixel of row [r]. *)
Section BlurResponse.

Variables a0 a1 a2 a3 b1 b2 : float.
Variable column : nat -> float4.
Variable rows : nat.

(** [(xp, yp, yb)] on entry to row [r] of the forward pass. *)
Fixpoint forward_state (r : nat) : float4 * float4 * float4 :=
  match r with
  | O => (zero4, zero4, zero4)
  | S r' =>
      let '(xp, yp, yb) := forward_state r' in
      (column r', blur_tap a0 a1 b1 b2 (column r') xp yp yb, yp)
  end.

Definition forward_response (r : nat) : float4 :=
  let '(xp, yp, yb) := forward_state r in
  blur_tap a0 a1 b1 b2 (column r) xp yp yb.

(** [(xn, xa, yn, ya)] on entry to step [k] of the reverse pass, which
    handles row [rows - 1 - k]. *)
Fixpoint reverse_state (k : nat) : float4 * float4 * float4 * float4 :=
  match k with
  | O => (zero4, zero4, zero4, zero4)
  | S k' =>
      let '(xn, xa, yn, ya) := reverse_state k' in
      (column (rows - 1 - k'), xn, blur_tap a2 a3 b1 b2 xn xa yn ya, yn)
  end.

Definition reverse_response (r : nat) : float4 :=
  let '(xn, xa, yn, ya) := reverse_state (rows - 1 - r) in
  blur_tap a2 a3 b1 b2 xn xa yn ya.

(** The pixel the kernel leaves in row [r]: the reverse response added to
    the forward response as it was stored. *)
Definition blurred_pixel (r : nat) : Z :=
  dataFloat4ToUchar4
    (add4 (dataUchar4ToFloat4 (dataFloat4ToUchar4 (forward_response r)))
          (reverse_response r)).

(** The same sum taken in [float] throughout. *)
Definition blurred_pixel_unquantized (r : nat) : Z :=
  dataFloat4ToUchar4 (add4 (forward_response r) (reverse_response r)).

End BlurResponse.

(** The input column of a blur thread: the pixels of column [x], unpacked. *)
Definition blur_input (m : memory) (inp : buffer) (iWidth x : Z) (r : nat) : float4 :=
  dataUchar4ToFloat4 (peek32 m inp (x + Z.of_nat r * iWidth)).

(** Rounding to nearest and clamping to [0, 255], as packed-pixel
    conversions are worded in the data model; for comparison with
    [dataFloat4ToUchar4]. *)
Definition round_clamp (f : float) : Z :=
  F32.clampZ 0 255 (F32.floorZ (F32.add f F32.half)).

(** The 256 values of a byte. *)
Definition bytes : list Z := map Z.of_nat (seq 0 256).

(** Buffer slots for the examples. *)
Definition slot0 : buffer := 0%nat.
Definition slot1 : buffer := 1%nat.
Definition slot2 : buffer := 2%nat.
Definition slot3 : buffer := 3%nat.
Definition slot4 : buffer := 4%nat.

(** The order of the floats that are not NaN, as a lexicographic order on
    triples: the class (infinities, sign of finite numbers, zero), then the
    exponent, then the mantissa. *)
Definition fkey (f : float) : Z * Z * Z :=
  match f with
  | S754_zero _ => (0, 0, 0)
  | S754_nan => (0, 0, 0)
  | S754_infinity s => (if s then -2 else 2, 0, 0)
  | S754_finite s m e => if s then (-1, - e, Zneg m) else (1, e, Zpos m)
  end.

Definition klt (a b : Z * Z * Z) : Prop :=
  fst (fst a) < fst (fst b) \/
  (fst (fst a) = fst (fst b) /\
   (snd (fst a) < snd (fst b) \/ (snd (fst a) = snd (fst b) /\ snd a < snd b))).

Definition kle (a b : Z * Z * Z) : Prop :=
  fst (fst a) < fst (fst b) \/
  (fst (fst a) = fst (fst b) /\
   (snd (fst a) < snd (fst b) \/ (snd (fst a) = snd (fst b) /\ snd a <= snd b))).

(** The position of a [Fusion] thread and the offset of its pixel. *)
Definition fusion_X (groupId localSize localId : uint2) : Z :=
  Int.u32 (fst groupId * fst localSize + fst localId).
Definition fusion_Y (groupId localSize localId : uint2) : Z :=
  Int.u32 (snd groupId * snd localSize + snd localId).
Definition fusion_offset (iWidth : Z) (groupId localSize localId : uint2) : Z :=
  Int.s32 (fusion_Y groupId localSize localId * iWidth + fusion_X groupId localSize localId).

(** Equality of floats as data. *)
Definition float_eqb (a b : float) : bool :=
  match a, b with
  | S754_zero s, S754_zero s' => Bool.eqb s s'
  | S754_infinity s, S754_infinity s' => Bool.eqb s s'
  | S754_nan, S754_nan => true
  | S754_finite s m e, S754_finite s' m' e' => Bool.eqb s s' && Pos.eqb m m' && Z.eqb e e'
  | _, _ => false
  end.

(** Channel [k] of the pixel at [off], as [Fusion] hands it to the pack
    function: the blurred channel, the mask channel over 255, the frame byte,
    and the two tests on them. *)
Definition fusion_channel (m : memory) (puiDataIn pucFrame piLabelIn : buffer)
    (fMinThresh fMaxThresh : float) (off : Z) (k : nat) : float :=
  let blurred := F32.of_Z (byte_of (peek32 m puiDataIn off) k) in
  let fg := F32.div (F32.of_Z (byte_of (peek32 m piLabelIn off) k)) (F32.of_Z 255) in
  let frame := F32.of_Z (peek8 m pucFrame (4 * off + Z.of_nat k)) in
  fuse fMinThresh fMaxThresh frame fg blurred (F32.sub F32.one fg).

(** ** The resize of one pixel, in the words of its contract *)

(** The source coordinate of destination coordinate [d] at scale [f]:
    [(d + 0.5) / f - 0.5], and the same with the division replaced by a
    multiplication by the reciprocal [1 / f], rounded on its own. *)
Definition source_coordinate_div (d : Z) (f : float) : float :=
  F32.sub (F32.div (F32.add (F32.of_Z d) F32.half) f) F32.half.

Definition source_coordinate_recip (d : Z) (f : float) : float :=
  F32.sub (F32.mul (F32.add (F32.of_Z d) F32.half) (F32.div F32.one f)) F32.half.

(** Floor with its fraction, clamped to [0, n - 1] with the fraction zeroed
    when clamped. *)
Definition floor_clamp (s : float) (n : Z) : Z * float :=
  let x := F32.to_int (F32.floor s) in
  let u := F32.sub s (F32.of_Z x) in
  let '(x, u) := if x <? 0 then (0, F32.zero) else (x, u) in
  if x >=? n then (Int.s32 (n - 1), F32.zero) else (x, u).

(** Rounding by [+ 0.5], clamping to [0, 255], truncation to a byte. *)
Definition round_to_byte (fval : float) : Z :=
  let fval := if F32.leb (F32.add fval F32.half) F32.zero
              then F32.zero else F32.add fval F32.half in
  F32.to_uchar (if F32.gtb fval (F32.of_Z 255) then F32.of_Z 255 else fval).

(** The destination pixel [(dx, dy)], given the source-coordinate rule and
    the source plane as a function of the element offset. *)
Definition resize_pixel (coordinate : Z -> float -> float) (srcv : Z -> Z)
    (src_step src_rows src_cols : Z) (fx fy : float) (dx dy : Z) : Z :=
  let '(x, u) := floor_clamp (coordinate dx fx) src_cols in
  let '(y, v) := floor_clamp (coordinate dy fy) src_rows in
  let x1 := Int.INC x src_cols in
  let y1 := Int.INC y src_rows in
  let at_ (yy xx : Z) := F32.of_Z (srcv (Int.mad24 yy src_step xx)) in
  let w00 := F32.mul (F32.sub F32.one u) (F32.sub F32.one v) in
  let w10 := F32.mul u (F32.sub F32.one v) in
  let w01 := F32.mul (F32.sub F32.one u) v in
  let w11 := F32.mul u v in
  round_to_byte
    (F32.add (F32.add (F32.add (F32.mul w00 (at_ y x)) (F32.mul w10 (at_ y x1)))
                      (F32.mul w01 (at_ y1 x)))
             (F32.mul w11 (at_ y1 x1))).

(** ** Grids of threads, for the statements about whole dispatches *)

(** [BLOCK_DIM]: the edge of a thread group of [Transpose]. *)
Definition BLOCK_DIM : Z := 16.

(** A thread position inside a group of [BLOCK_DIM] by [BLOCK_DIM]. *)
Definition in_tile (l : uint2) : Prop :=
  0 <= fst l < BLOCK_DIM /\ 0 <= snd l < BLOCK_DIM.

(** A group whose threads have coordinates below 2^23. *)
Definition group_ok (g : uint2) : Prop :=
  0 <= fst g < 2 ^ 19 /\ 0 <= snd g < 2 ^ 19.

(** A position inside a [w] by [h] image. *)
Definition in_image (w h : Z) (p : uint2) : Prop :=
  0 <= fst p < w /\ 0 <= snd p < h.

(** ** Rows of a padded NV12 buffer *)

(** [Y_height] and [Y_padding_lines] of the padding kernels: the luma rows of
    a buffer of [h] rows, and the rows put between luma and chroma when it is
    padded to [ph] rows. *)
Definition luma_rows (h : Z) : Z := Z.quot (h * 2) 3.
Definition padding_rows (h ph : Z) : Z := Z.quot ((ph - h) * 2) 3.

(** The row of the padded buffer that holds row [r] of the tight one. *)
Definition padded_row (h ph r : Z) : Z :=
  if r >=? luma_rows h then r + padding_rows h ph else r.

(** The first [uchar4] cell of row [r] at [pw] bytes a row. *)
Definition row_cell (pw r : Z) : Z := Z.shiftr (r * pw) 2.

(** ** Whole-image conversion *)

(** The parameter block of a whole [W] by [H] NV12 image: zero origin, half
    width [W / 2], chroma plane at offset [W * H]; and scale factors 1. *)
Definition identity_config (W H : Z) : config := [W; H; 0; 0; W / 2; W * H].
Definition identity_rect : rect_config := [F32.one; F32.one].

(** The threads of a one-dimensional grid of [n]. *)
Definition line (n : nat) : list uint2 := map (fun i => (Z.of_nat i, 0)) (seq 0 n).

(** ** Pixels as vectors *)

(** A vector of four whole numbers of [0, 255], as unpacking gives. *)
Definition is_pixel (v : float4) : Prop := exists w, v = dataUchar4ToFloat4 w.

(** ** Threads given by their three identifiers *)

(** [groupId], [localSize] and [localId] of a thread of the kernels that
    compute their position themselves. *)
Definition thread_ids : Type := (uint2 * uint2 * uint2)%type.
Definition group_of (t : thread_ids) : uint2 := fst (fst t).
Definition size_of (t : thread_ids) : uint2 := snd (fst t).
Definition local_of (t : thread_ids) : uint2 := snd t.

(** A kernel on the identifiers of a thread. *)
Definition on_thread {A} (k : uint2 -> uint2 -> uint2 -> A) (t : thread_ids) : A :=
  k (group_of t) (size_of t) (local_of t).

(** * Properties *)

(** ** Bits of a packed pixel *)

Lemma testbit_255 (n : Z) : 0 <= n -> Z.testbit 255 n = (n <? 8).
Proof.
  intros Hn. change 255 with (Z.ones 8). apply Z.testbit_ones_nonneg; lia.
Qed.

Lemma testbit_mask (j n : Z) :
  0 <= j -> 0 <= n -> Z.testbit (Z.shiftl 255 j) n = (j <=? n) && (n <? j + 8).
Proof.
  intros Hj Hn. destruct (Z.leb_spec j n) as [H|H].
  - rewrite Z.shiftl_spec by lia. rewrite testbit_255 by lia. simpl.
    destruct (Z.ltb_spec (n - j) 8), (Z.ltb_spec n (j + 8)); try reflexivity; lia.
  - rewrite Z.shiftl_spec_low by lia. reflexivity.
Qed.

Lemma testbit_u32_shiftl (t j n : Z) :
  0 <= j -> 0 <= n ->
  Z.testbit (Int.u32 (Z.shiftl t j)) n = (n <? 32) && (j <=? n) && Z.testbit t (n - j).
Proof.
  intros Hj Hn. unfold Int.u32. destruct (Z.ltb_spec n 32) as [H|H].
  - rewrite Z.mod_pow2_bits_low by lia. simpl.
    destruct (Z.leb_spec j n).
    + rewrite Z.shiftl_spec by lia. reflexivity.
    + rewrite Z.shiftl_spec_low by lia. reflexivity.
  - rewrite Z.mod_pow2_bits_high by lia. reflexivity.
Qed.

Lemma testbit_pack4 (a b c d n : Z) :
  0 <= n ->
  Z.testbit (pack4 a b c d) n =
    if n <? 8 then Z.testbit a n
    else if n <? 16 then Z.testbit b (n - 8)
    else if n <? 24 then Z.testbit c (n - 16)
    else if n <? 32 then Z.testbit d (n - 24)
    else false.
Proof.
  intros Hn. unfold pack4.
  change 65280 with (Z.shiftl 255 8). change 16711680 with (Z.shiftl 255 16).
  change 4278190080 with (Z.shiftl 255 24).
  rewrite !Z.lor_spec, !Z.land_spec, Z.bits_0, !testbit_mask, !testbit_u32_shiftl,
    testbit_255 by lia.
  destruct (Z.ltb_spec n 8), (Z.ltb_spec n 16), (Z.ltb_spec n 24), (Z.ltb_spec n 32),
    (Z.leb_spec 8 n), (Z.leb_spec 16 n), (Z.leb_spec 24 n),
    (Z.ltb_spec n (8 + 8)), (Z.ltb_spec n (16 + 8)), (Z.ltb_spec n (24 + 8));
    try lia; simpl; rewrite ?orb_false_r, ?andb_false_r; reflexivity.
Qed.

Lemma byte_of_pack4 (a b c d : Z) (k : nat) :
  (k < 4)%nat -> byte_of (pack4 a b c d) k = Z.land (chan k (V4 a b c d)) 255.
Proof.
  intros Hk. unfold byte_of. apply Z.bits_inj'. intros n Hn.
  rewrite !Z.land_spec, Z.shiftr_spec, testbit_pack4, testbit_255 by lia.
  destruct (Z.ltb_spec n 8) as [H8|H8]; [|rewrite !andb_false_r; reflexivity].
  rewrite !andb_true_r.
  destruct k as [|[|[|[|k]]]]; try lia; cbn [chan vx vy vz vw];
    repeat match goal with |- context [?a <? ?b] => destruct (Z.ltb_spec a b); try lia end;
    f_equal; lia.
Qed.

Lemma u32_pack4 (a b c d : Z) : Int.u32 (pack4 a b c d) = pack4 a b c d.
Proof.
  unfold Int.u32. apply Z.bits_inj'. intros n Hn.
  destruct (Z.ltb_spec n 32) as [H|H].
  - apply Z.mod_pow2_bits_low. lia.
  - rewrite Z.mod_pow2_bits_high by lia. rewrite testbit_pack4 by lia.
    repeat match goal with |- context [?a <? ?b] => destruct (Z.ltb_spec a b); try lia end;
      try reflexivity.
Qed.

Lemma dataFloat4ToUchar4_pack4 (f : float4) :
  dataFloat4ToUchar4 f =
    pack4 (F32.to_uint (vx f)) (F32.to_uint (vy f)) (F32.to_uint (vz f)) (F32.to_uint (vw f)).
Proof. reflexivity. Qed.

(** ** Facts about bytes, checked on the 256 of them *)

Lemma in_bytes (b : Z) : 0 <= b < 256 -> In b bytes.
Proof.
  intros Hb. unfold bytes. apply in_map_iff. exists (Z.to_nat b). split; [lia|].
  apply in_seq. lia.
Qed.

Lemma forall_bytes (P : Z -> bool) :
  forallb P bytes = true -> forall b, 0 <= b < 256 -> P b = true.
Proof.
  intros H b Hb. rewrite forallb_forall in H. apply H, in_bytes, Hb.
Qed.

Lemma land_255_range (z : Z) : 0 <= Z.land z 255 < 256.
Proof.
  change 255 with (Z.ones 8). rewrite Z.land_ones by lia.
  apply Z.mod_pos_bound. lia.
Qed.

Lemma land_255_mod (z : Z) : Z.land z 255 = z mod 256.
Proof. change 255 with (Z.ones 8). rewrite Z.land_ones by lia. reflexivity. Qed.

Lemma to_uint_of_byte (b : Z) : 0 <= b < 256 -> F32.to_uint (F32.of_Z b) = b.
Proof.
  intros Hb. apply Z.eqb_eq.
  apply (forall_bytes (fun b => F32.to_uint (F32.of_Z b) =? b)); [|exact Hb].
  vm_compute. reflexivity.
Qed.

(** Within the range of [uint] the cast is the integer part. *)
Lemma to_uint_trunc (s : bool) (m : positive) (e : Z) :
  0 <= F32.trunc (S754_finite s m e) < 2 ^ 32 ->
  F32.to_uint (S754_finite s m e) = F32.trunc (S754_finite s m e).
Proof.
  intros H.
  change (F32.to_uint (S754_finite s m e))
    with (F32.clampZ 0 (2 ^ 32 - 1) (F32.trunc (S754_finite s m e))).
  unfold F32.clampZ. set (t := F32.trunc (S754_finite s m e)) in *. clearbody t. lia.
Qed.

Lemma unpack_chan (u : Z) (k : nat) :
  (k < 4)%nat -> chan k (dataUchar4ToFloat4 u) = F32.of_Z (byte_of u k).
Proof.
  intros Hk. destruct k as [|[|[|[|k]]]]; try lia; reflexivity.
Qed.

(** Unpacking and packing again gives the pixel back. *)
Lemma pack_unpack (u : Z) :
  dataFloat4ToUchar4 (dataUchar4ToFloat4 u) = Int.u32 u.
Proof.
  rewrite dataFloat4ToUchar4_pack4. cbn [dataUchar4ToFloat4 vx vy vz vw].
  rewrite !to_uint_of_byte by apply land_255_range.
  unfold Int.u32. apply Z.bits_inj'. intros n Hn.
  rewrite testbit_pack4 by lia.
  destruct (Z.ltb_spec n 32) as [H|H].
  - rewrite Z.mod_pow2_bits_low by lia.
    repeat match goal with |- context [?a <? ?b] => destruct (Z.ltb_spec a b); try lia end;
      rewrite Z.land_spec, ?Z.shiftr_spec, testbit_255 by lia;
      match goal with |- context [?a <? ?b] => destruct (Z.ltb_spec a b); try lia end;
      rewrite andb_true_r; f_equal; lia.
  - rewrite Z.mod_pow2_bits_high by lia.
    repeat match goal with |- context [?a <? ?b] => destruct (Z.ltb_spec a b); try lia end;
      reflexivity.
Qed.

(** ** The pack function (C8, C9) *)

(** C8. Each byte of [dataFloat4ToUchar4 f] is the [(uint)] cast of the
    channel, which takes the integer part without rounding, masked with
    [0xFF]; nothing is rounded and nothing is clamped to [0, 255]. *)
Theorem dataFloat4ToUchar4_truncates_and_masks (f : float4) :
  byte_of (dataFloat4ToUchar4 f) 0 = Z.land (F32.to_uint (vx f)) 255 /\
  byte_of (dataFloat4ToUchar4 f) 1 = Z.land (F32.to_uint (vy f)) 255 /\
  byte_of (dataFloat4ToUchar4 f) 2 = Z.land (F32.to_uint (vz f)) 255 /\
  byte_of (dataFloat4ToUchar4 f) 3 = Z.land (F32.to_uint (vw f)) 255.
Proof.
  rewrite dataFloat4ToUchar4_pack4.
  repeat split; rewrite byte_of_pack4 by lia; reflexivity.
Qed.

(** 0.75 packs to 0, 255.5 to 255, 256 to 0 and 300 to 44. *)
Example dataFloat4ToUchar4_sample :
  let q := F32.div (F32.of_Z 3) (F32.of_Z 4) in
  let f := V4 q (F32.add (F32.of_Z 255) F32.half) (F32.of_Z 256) (F32.of_Z 300) in
  map (byte_of (dataFloat4ToUchar4 f)) [0; 1; 2; 3]%nat = [0; 255; 0; 44].
Proof. vm_compute. reflexivity. Qed.

(** C9, as stated, fails: 300 is not clamped to 255 and 0.75 is not rounded
    to 1. *)
Lemma dataFloat4ToUchar4_not_round_clamp :
  let f := V4 (F32.of_Z 300) (F32.div (F32.of_Z 3) (F32.of_Z 4)) F32.zero F32.zero in
  byte_of (dataFloat4ToUchar4 f) 0 <> round_clamp (vx f) /\
  byte_of (dataFloat4ToUchar4 f) 1 <> round_clamp (vy f).
Proof. vm_compute. split; discriminate. Qed.

(** C9, amended. The channels of a packed pixel are bytes; unpacking is
    exact, a channel and its float hold the same integer of [0, 255];
    packing keeps the low eight bits of the integer part of each channel,
    without rounding and without clamping, so it lands in [0, 255] too. *)
Theorem packed_channels_are_bytes (u : Z) (f : float4) (k : nat) :
  (k < 4)%nat ->
  0 <= byte_of u k <= 255 /\
  chan k (dataUchar4ToFloat4 u) = F32.of_Z (byte_of u k) /\
  F32.to_uint (chan k (dataUchar4ToFloat4 u)) = byte_of u k /\
  0 <= byte_of (dataFloat4ToUchar4 f) k <= 255 /\
  byte_of (dataFloat4ToUchar4 f) k = F32.to_uint (chan k f) mod 256.
Proof.
  intros Hk.
  assert (Hr : forall p, 0 <= byte_of p k <= 255).
  { intros p. pose proof (land_255_range (Z.shiftr p (8 * Z.of_nat k))).
    unfold byte_of. lia. }
  split; [apply Hr|]. split; [apply unpack_chan, Hk|].
  split; [rewrite unpack_chan by exact Hk; apply to_uint_of_byte; specialize (Hr u); lia|].
  split; [apply Hr|].
  rewrite dataFloat4ToUchar4_pack4, byte_of_pack4 by exact Hk.
  rewrite land_255_mod. destruct f as [x y z w].
  destruct k as [|[|[|[|k]]]]; try lia; reflexivity.
Qed.

Lemma packed_channels_are_bytes_witness :
  let f := V4 (F32.of_Z 300) F32.half F32.zero F32.one in
  0 <= byte_of 16909060 1 <= 255 /\
  chan 1 (dataUchar4ToFloat4 16909060) = F32.of_Z (byte_of 16909060 1) /\
  F32.to_uint (chan 1 (dataUchar4ToFloat4 16909060)) = byte_of 16909060 1 /\
  0 <= byte_of (dataFloat4ToUchar4 f) 1 <= 255 /\
  byte_of (dataFloat4ToUchar4 f) 1 = F32.to_uint (chan 1 f) mod 256.
Proof. apply (packed_channels_are_bytes 16909060 _ 1). lia. Defined.

(** ** Memory and log *)

Lemma upd_same (m : memory) (b : buffer) (i v : Z) : upd m b i v b i = v.
Proof. unfold upd. rewrite Nat.eqb_refl, Z.eqb_refl. reflexivity. Qed.

Lemma upd_other_buffer (m : memory) (b b' : buffer) (i i' v : Z) :
  b' <> b -> upd m b i v b' i' = m b' i'.
Proof.
  intros H. unfold upd. destruct (Nat.eqb_spec b' b); [contradiction|reflexivity].
Qed.

Lemma upd_other_index (m : memory) (b b' : buffer) (i i' v : Z) :
  i' <> i -> upd m b i v b' i' = m b' i'.
Proof.
  intros H. unfold upd. destruct (Z.eqb_spec i' i); [contradiction|].
  rewrite andb_false_r. reflexivity.
Qed.

Lemma writes_to_app (b : buffer) (l1 l2 : list access) :
  writes_to b (l1 ++ l2) = writes_to b l2 ++ writes_to b l1.
Proof.
  induction l1 as [|a l1 IH]; simpl.
  - rewrite app_nil_r. reflexivity.
  - destruct a as [b' i|b' i v]; [exact IH|].
    destruct (Nat.eqb b' b); [rewrite IH, app_assoc; reflexivity|exact IH].
Qed.

(** ** GaussianBlur (C2, C10) *)

Section Blur.

Variables (inp out : buffer) (iWidth x : Z).
Variables a0 a1 a2 a3 b1 b2 : float.
Variable m0 : memory.
Hypothesis inp_out : inp <> out.
Hypothesis width_nonzero : iWidth <> 0.

Let col := blur_input m0 inp iWidth x.
Let row (r : nat) : Z := x + Z.of_nat r * iWidth.
Let fwd := forward_response a0 a1 b1 b2 col.

Lemma row_inj (i j : nat) : row i = row j -> i = j.
Proof. unfold row. intros H. nia. Qed.

Lemma GaussianBlur_forward_step (n : nat) (p q : Z) (xp yp yb : float4) (s : state) :
  GaussianBlur_forward (S n) inp out iWidth a0 a1 b1 b2 p q xp yp yb s =
    let xc := dataUchar4ToFloat4 (peek32 (mem s) inp p) in
    let yc := blur_tap a0 a1 b1 b2 xc xp yp yb in
    GaussianBlur_forward n inp out iWidth a0 a1 b1 b2 (p + iWidth) (q + iWidth) xc yc yp
      (State (upd (mem s) out q (Int.u32 (dataFloat4ToUchar4 yc)))
             (Store out q (Int.u32 (dataFloat4ToUchar4 yc)) :: Load inp p :: log s)).
Proof. reflexivity. Qed.

(** The forward loop from row [r] with [n] rows left. *)
Lemma GaussianBlur_forward_rows (n : nat) :
  forall (r : nat) (s : state) (xp yp yb : float4),
    forward_state a0 a1 b1 b2 col r = (xp, yp, yb) ->
    (forall i, mem s inp i = m0 inp i) ->
    let res := GaussianBlur_forward n inp out iWidth a0 a1 b1 b2
                 (row r) (row r) xp yp yb s in
    fst res = (row (r + n), row (r + n)) /\
    (forall b i, b <> out -> mem (snd res) b i = mem s b i) /\
    (forall i, (forall j, (r <= j < r + n)%nat -> i <> row j) ->
               mem (snd res) out i = mem s out i) /\
    (forall j, (r <= j < r + n)%nat ->
               mem (snd res) out (row j) = dataFloat4ToUchar4 (fwd j)) /\
    writes_to out (log (snd res)) =
      writes_to out (log s)
      ++ map (fun j => (row j, dataFloat4ToUchar4 (fwd j))) (seq r n).
Proof.
  induction n as [|n IH]; intros r s xp yp yb Hst Hin; cbn zeta.
  - simpl. rewrite Nat.add_0_r, app_nil_r. repeat split; auto. intros j Hj. lia.
  - rewrite GaussianBlur_forward_step. cbn zeta.
    set (xc := dataUchar4ToFloat4 (peek32 (mem s) inp (row r))).
    set (yc := blur_tap a0 a1 b1 b2 xc xp yp yb).
    assert (Hxc : xc = col r).
    { unfold xc, col, blur_input, peek32. rewrite Hin. reflexivity. }
    assert (Hyc : yc = fwd r).
    { unfold yc, fwd, forward_response. rewrite Hst, Hxc. reflexivity. }
    set (s1 := State _ _).
    assert (Hrow : row r + iWidth = row (S r)) by (unfold row; lia).
    rewrite Hrow.
    specialize (IH (S r) s1 xc yc yp).
    cbn zeta in IH. destruct IH as (Hp & Hb & Ho & Hw & Hl).
    { cbn [forward_state]. rewrite Hst. subst yc. rewrite Hxc. reflexivity. }
    { intros i. unfold s1. cbn [mem]. rewrite upd_other_buffer by exact inp_out.
      apply Hin. }
    replace (S r + n)%nat with (r + S n)%nat in * by lia.
    split; [exact Hp|]. split; [|split; [|split]].
    + intros b i Hbi. rewrite Hb by exact Hbi. unfold s1. cbn [mem].
      apply upd_other_buffer, Hbi.
    + intros i Hi. rewrite Ho by (intros j Hj; apply Hi; lia).
      unfold s1. cbn [mem]. apply upd_other_index. apply Hi. lia.
    + intros j Hj. destruct (Nat.eq_dec j r) as [->|Hne].
      * rewrite Ho by (intros j Hj' E; apply row_inj in E; lia).
        unfold s1. cbn [mem]. rewrite upd_same, dataFloat4ToUchar4_pack4, u32_pack4.
        rewrite <- dataFloat4ToUchar4_pack4, Hyc. reflexivity.
      * apply Hw. lia.
    + rewrite Hl. unfold s1. cbn [log writes_to]. rewrite Nat.eqb_refl.
      rewrite <- app_assoc. cbn [seq map app]. do 3 f_equal.
      rewrite dataFloat4ToUchar4_pack4, u32_pack4, <- dataFloat4ToUchar4_pack4, Hyc.
      reflexivity.
Qed.

Variable rows : nat.
Let final := blurred_pixel a0 a1 a2 a3 b1 b2 col rows.

Lemma GaussianBlur_reverse_step (n : nat) (p q : Z) (xn xa yn ya : float4) (s : state) :
  GaussianBlur_reverse (S n) inp out iWidth a2 a3 b1 b2 p q xn xa yn ya s =
    let xc := dataUchar4ToFloat4 (peek32 (mem s) inp p) in
    let yc := blur_tap a2 a3 b1 b2 xn xa yn ya in
    let fTemp := add4 (dataUchar4ToFloat4 (peek32 (mem s) out q)) yc in
    GaussianBlur_reverse n inp out iWidth a2 a3 b1 b2 (p - iWidth) (q - iWidth) xc xn yc yn
      (State (upd (mem s) out q (Int.u32 (dataFloat4ToUchar4 fTemp)))
             (Store out q (Int.u32 (dataFloat4ToUchar4 fTemp))
              :: Load out q :: Load inp p :: log s)).
Proof. reflexivity. Qed.

(** The reverse loop with [n] rows left, rows [n - 1] down to 0. *)
Lemma GaussianBlur_reverse_rows (n : nat) :
  forall (s : state) (xn xa yn ya : float4),
    (n <= rows)%nat ->
    reverse_state a2 a3 b1 b2 col rows (rows - n) = (xn, xa, yn, ya) ->
    (forall i, mem s inp i = m0 inp i) ->
    (forall j, (j < n)%nat -> mem s out (row j) = dataFloat4ToUchar4 (fwd j)) ->
    let p := x + (Z.of_nat n - 1) * iWidth in
    let s' := snd (GaussianBlur_reverse n inp out iWidth a2 a3 b1 b2 p p xn xa yn ya s) in
    (forall b i, b <> out -> mem s' b i = mem s b i) /\
    (forall i, (forall j, (j < n)%nat -> i <> row j) -> mem s' out i = mem s out i) /\
    (forall j, (j < n)%nat -> mem s' out (row j) = final j) /\
    writes_to out (log s') =
      writes_to out (log s) ++ map (fun j => (row j, final j)) (rev (seq 0 n)).
Proof.
  induction n as [|n IH]; intros s xn xa yn ya Hle Hst Hin Hout p s'.
  - subst s'. simpl. rewrite app_nil_r. repeat split; auto. intros j Hj. lia.
  - subst s'. rewrite GaussianBlur_reverse_step. cbn zeta.
    assert (Hp : p = row n) by (unfold p, row; lia).
    rewrite Hp.
    set (xc := dataUchar4ToFloat4 (peek32 (mem s) inp (row n))).
    set (yc := blur_tap a2 a3 b1 b2 xn xa yn ya).
    set (fTemp := add4 (dataUchar4ToFloat4 (peek32 (mem s) out (row n))) yc).
    assert (Hxc : xc = col n).
    { unfold xc, col, blur_input, peek32. rewrite Hin. reflexivity. }
    assert (Hfin : Int.u32 (dataFloat4ToUchar4 fTemp) = final n).
    { rewrite dataFloat4ToUchar4_pack4, u32_pack4, <- dataFloat4ToUchar4_pack4.
      unfold fTemp, final, blurred_pixel, reverse_response, peek32.
      rewrite Hout by lia. fold fwd.
      rewrite (dataFloat4ToUchar4_pack4 (fwd n)), u32_pack4.
      replace (rows - 1 - n)%nat with (rows - S n)%nat by lia.
      rewrite Hst. reflexivity. }
    rewrite Hfin. set (s1 := State _ _).
    replace (row n - iWidth) with (x + (Z.of_nat n - 1) * iWidth) by (unfold row; lia).
    specialize (IH s1 xc xn yc yn). cbn zeta in IH.
    destruct IH as (Hb & Ho & Hw & Hl).
    { lia. }
    { replace (rows - n)%nat with (S (rows - S n)) by lia.
      cbn [reverse_state]. rewrite Hst.
      replace (rows - 1 - (rows - S n))%nat with n by lia.
      subst yc. rewrite Hxc. reflexivity. }
    { intros i. unfold s1. cbn [mem]. rewrite upd_other_buffer by exact inp_out.
      apply Hin. }
    { intros j Hj. unfold s1. cbn [mem]. rewrite upd_other_index.
      - apply Hout. lia.
      - intros E. apply row_inj in E. lia. }
    split; [|split; [|split]].
    + intros b i Hbi. rewrite Hb by exact Hbi. unfold s1. cbn [mem].
      apply upd_other_buffer, Hbi.
    + intros i Hi. rewrite Ho by (intros j Hj; apply Hi; lia).
      unfold s1. cbn [mem]. apply upd_other_index. apply Hi. lia.
    + intros j Hj. destruct (Nat.eq_dec j n) as [->|Hne].
      * rewrite Ho by (intros j Hj' E; apply row_inj in E; lia).
        unfold s1. cbn [mem]. apply upd_same.
      * apply Hw. lia.
    + rewrite Hl. unfold s1. cbn [log writes_to]. rewrite Nat.eqb_refl.
      rewrite <- app_assoc. rewrite seq_S, rev_app_distr. reflexivity.
Qed.

End Blur.

(** The kernel without clamp seeding is the two loops, one after the other. *)
Lemma GaussianBlur_unfold (inp out : buffer) (iWidth iHeight : Z)
    (a0 a1 a2 a3 b1 b2 coefp coefn : float) (groupId localSize localId : uint2)
    (s : state) :
  GaussianBlur false inp iWidth iHeight a0 a1 a2 a3 b1 b2 coefp coefn out
    groupId localSize localId s =
    let x := blur_column groupId localSize localId in
    if x >=? iWidth then (tt, s)
    else
      let p := GaussianBlur_forward (Z.to_nat iHeight) inp out iWidth a0 a1 b1 b2
                 x x zero4 zero4 zero4 s in
      GaussianBlur_reverse (Z.to_nat iHeight) inp out iWidth a2 a3 b1 b2
        (fst (fst p) - iWidth) (snd (fst p) - iWidth) zero4 zero4 zero4 zero4 (snd p).
Proof.
  unfold GaussianBlur, blur_column. cbn zeta.
  destruct (_ >=? iWidth); [reflexivity|].
  unfold bind, ret.
  destruct (GaussianBlur_forward _ _ _ _ _ _ _ _ _ _ _ _ _ _) as [[pi po] s1].
  reflexivity.
Qed.

(** What one thread of [GaussianBlur] does to its column. *)
Lemma GaussianBlur_run (inp out : buffer) (iWidth iHeight : Z)
    (a0 a1 a2 a3 b1 b2 coefp coefn : float) (groupId localSize localId : uint2)
    (m : memory) :
  inp <> out ->
  let x := blur_column groupId localSize localId in
  0 <= x < iWidth ->
  let s' := run (GaussianBlur false inp iWidth iHeight a0 a1 a2 a3 b1 b2 coefp coefn out
                   groupId localSize localId) m in
  let col := blur_input m inp iWidth x in
  let rows := Z.to_nat iHeight in
  let row (r : nat) := x + Z.of_nat r * iWidth in
  writes_to out (log s') =
    map (fun r => (row r, dataFloat4ToUchar4 (forward_response a0 a1 b1 b2 col r)))
      (seq 0 rows)
    ++ map (fun r => (row r, blurred_pixel a0 a1 a2 a3 b1 b2 col rows r))
         (rev (seq 0 rows)) /\
  (forall r, (r < rows)%nat -> mem s' out (row r) = blurred_pixel a0 a1 a2 a3 b1 b2 col rows r) /\
  (forall b i, b <> out -> mem s' b i = m b i).
Proof.
  intros Hio x Hx s' col rows row. subst s'. unfold run.
  rewrite GaussianBlur_unfold. cbn zeta. fold x.
  destruct (Z.geb_spec x iWidth) as [Hge|_]; [lia|].
  assert (Hw : iWidth <> 0) by lia.
  pose proof (GaussianBlur_forward_rows inp out iWidth x a0 a1 b1 b2 m Hio Hw rows 0
                (State m []) zero4 zero4 zero4 eq_refl (fun i => eq_refl)) as Hf.
  cbv beta zeta in Hf. fold rows.
  replace (x + Z.of_nat 0 * iWidth) with x in Hf by lia.
  destruct (GaussianBlur_forward rows inp out iWidth a0 a1 b1 b2 x x zero4 zero4 zero4
              (State m [])) as [[pi po] s1].
  cbn [fst snd] in *. destruct Hf as (Hp & Hb & Ho & Hwr & Hl).
  injection Hp as -> ->.
  pose proof (GaussianBlur_reverse_rows inp out iWidth x a0 a1 a2 a3 b1 b2 m Hio Hw rows rows
                s1 zero4 zero4 zero4 zero4 (le_n _)) as Hr.
  rewrite Nat.sub_diag in Hr. specialize (Hr eq_refl).
  cbv beta zeta in Hr.
  match goal with
  | |- context [GaussianBlur_reverse _ _ _ _ _ _ _ _ ?p _] =>
      replace p with (x + (Z.of_nat rows - 1) * iWidth) by lia
  end.
  destruct Hr as (Hb' & Ho' & Hw' & Hl').
  { intros i. apply Hb. exact Hio. }
  { intros j Hj. apply Hwr. lia. }
  split; [|split].
  - rewrite Hl', Hl. reflexivity.
  - exact Hw'.
  - intros b i Hbi. rewrite Hb' by exact Hbi. apply Hb, Hbi.
Qed.

(** The recurrences behind [forward_response] and [reverse_response]: each
    row takes the previous input and the two previous outputs of its pass,
    and what lies outside the column counts as zero. *)
Lemma forward_response_recurrence (a0 a1 b1 b2 : float) (col : nat -> float4) :
  let yc := forward_response a0 a1 b1 b2 col in
  yc 0%nat = blur_tap a0 a1 b1 b2 (col 0%nat) zero4 zero4 zero4 /\
  yc 1%nat = blur_tap a0 a1 b1 b2 (col 1%nat) (col 0%nat) (yc 0%nat) zero4 /\
  forall r, yc (S (S r)) = blur_tap a0 a1 b1 b2 (col (S (S r))) (col (S r)) (yc (S r)) (yc r).
Proof.
  cbn zeta. repeat split. intros r. unfold forward_response. cbn [forward_state].
  destruct (forward_state a0 a1 b1 b2 col r) as [[xp yp] yb]. reflexivity.
Qed.

Lemma reverse_response_recurrence (a2 a3 b1 b2 : float) (col : nat -> float4) (rows : nat) :
  let yc := reverse_response a2 a3 b1 b2 col rows in
  yc (rows - 1)%nat = blur_tap a2 a3 b1 b2 zero4 zero4 zero4 zero4 /\
  ((2 <= rows)%nat ->
   yc (rows - 2)%nat
   = blur_tap a2 a3 b1 b2 (col (rows - 1)%nat) zero4 (yc (rows - 1)%nat) zero4) /\
  forall r, (r + 3 <= rows)%nat ->
    yc r = blur_tap a2 a3 b1 b2 (col (r + 1)%nat) (col (r + 2)%nat)
             (yc (r + 1)%nat) (yc (r + 2)%nat).
Proof.
  cbn zeta. unfold reverse_response. split; [|split].
  - replace (rows - 1 - (rows - 1))%nat with 0%nat by lia. reflexivity.
  - intros H. replace (rows - 1 - (rows - 2))%nat with 1%nat by lia.
    replace (rows - 1 - (rows - 1))%nat with 0%nat by lia.
    cbn [reverse_state]. rewrite Nat.sub_0_r. reflexivity.
  - intros r H.
    replace (rows - 1 - r)%nat with (S (S (rows - 3 - r))) by lia.
    replace (rows - 1 - (r + 1))%nat with (S (rows - 3 - r)) by lia.
    replace (rows - 1 - (r + 2))%nat with (rows - 3 - r)%nat by lia.
    cbn [reverse_state].
    destruct (reverse_state a2 a3 b1 b2 col rows (rows - 3 - r)) as [[[xn xa] yn] ya].
    replace (rows - 1 - S (rows - 3 - r))%nat with (r + 1)%nat by lia.
    replace (rows - 1 - (rows - 3 - r))%nat with (r + 2)%nat by lia.
    reflexivity.
Qed.

(** C2. A thread of [GaussianBlur] on column [x], [0 <= x < iWidth], without
    clamp seeding: the forward pass stores, for rows 0 to [iHeight - 1] in
    that order, the packed [yc = a0*xc + a1*xp - b1*yp - b2*yb] started from
    zero state; the reverse pass then stores, for rows [iHeight - 1] down to
    0, the packed sum of what the forward pass left in the row and
    [yc = a2*xn + a3*xa - b1*yn - b2*ya]; that sum is what row [r] holds in
    the end. *)
Theorem GaussianBlur_forward_then_reverse (inp out : buffer) (iWidth iHeight : Z)
    (a0 a1 a2 a3 b1 b2 coefp coefn : float) (groupId localSize localId : uint2)
    (m : memory) (r : nat) :
  inp <> out ->
  0 <= blur_column groupId localSize localId < iWidth ->
  (r < Z.to_nat iHeight)%nat ->
  let x := blur_column groupId localSize localId in
  let s' := run (GaussianBlur false inp iWidth iHeight a0 a1 a2 a3 b1 b2 coefp coefn out
                   groupId localSize localId) m in
  let col := blur_input m inp iWidth x in
  let rows := Z.to_nat iHeight in
  let row (r : nat) := x + Z.of_nat r * iWidth in
  let forward := forward_response a0 a1 b1 b2 col in
  let reverse := reverse_response a2 a3 b1 b2 col rows in
  let sum (r : nat) :=
    dataFloat4ToUchar4
      (add4 (dataUchar4ToFloat4 (dataFloat4ToUchar4 (forward r))) (reverse r)) in
  writes_to out (log s') =
    map (fun r => (row r, dataFloat4ToUchar4 (forward r))) (seq 0 rows)
    ++ map (fun r => (row r, sum r)) (rev (seq 0 rows)) /\
  mem s' out (row r) = sum r.
Proof.
  intros Hio Hx Hr. cbv zeta.
  destruct (GaussianBlur_run inp out iWidth iHeight a0 a1 a2 a3 b1 b2 coefp coefn
              groupId localSize localId m Hio Hx) as (Hl & Hm & _).
  split; [exact Hl|]. apply Hm, Hr.
Qed.

Lemma GaussianBlur_forward_then_reverse_witness :
  let m := mem_of [(slot0, [16909060; 84281096])] in
  let k := F32.half in
  let s' := run (GaussianBlur false slot0 1 2 k k k k k k k k slot1 (0, 0) (1, 1) (0, 0)) m in
  let col := blur_input m slot0 1 0 in
  let forward := forward_response k k k k col in
  let reverse := reverse_response k k k k col 2 in
  let sum (r : nat) :=
    dataFloat4ToUchar4
      (add4 (dataUchar4ToFloat4 (dataFloat4ToUchar4 (forward r))) (reverse r)) in
  (slot0 <> slot1 /\ 0 <= blur_column (0, 0) (1, 1) (0, 0) < 1 /\ (1 < Z.to_nat 2)%nat) /\
  writes_to slot1 (log s') =
    map (fun r => (0 + Z.of_nat r * 1, dataFloat4ToUchar4 (forward r))) (seq 0 2)
    ++ map (fun r => (0 + Z.of_nat r * 1, sum r)) (rev (seq 0 2)) /\
  mem s' slot1 (0 + Z.of_nat 1 * 1) = sum 1%nat.
Proof.
  assert (H1 : slot0 <> slot1) by discriminate.
  assert (H2 : 0 <= blur_column (0, 0) (1, 1) (0, 0) < 1) by (vm_compute; split; discriminate || reflexivity).
  assert (H3 : (1 < Z.to_nat 2)%nat) by (vm_compute; lia).
  split; [auto|].
  exact (GaussianBlur_forward_then_reverse slot0 slot1 1 2 F32.half F32.half F32.half
           F32.half F32.half F32.half F32.half F32.half (0, 0) (1, 1) (0, 0)
           (mem_of [(slot0, [16909060; 84281096])]) 1 H1 H2 H3).
Defined.

(** C10. The reverse pass adds to the forward response as it was stored,
    after truncation to bytes: the final pixel of row [r] is
    [pack (unpack (pack forward_yc) + reverse_yc)].  This is not
    [pack (forward_yc + reverse_yc)] in general: with [a0 = a2 = 0.5], every
    other coefficient 0 and a column of two pixels of value 1, row 0 ends as
    0, where the sum taken in float gives 1. *)
Theorem GaussianBlur_adds_to_stored_bytes (inp out : buffer) (iWidth iHeight : Z)
    (a0 a1 a2 a3 b1 b2 coefp coefn : float) (groupId localSize localId : uint2)
    (m : memory) (r : nat) :
  inp <> out ->
  0 <= blur_column groupId localSize localId < iWidth ->
  (r < Z.to_nat iHeight)%nat ->
  let x := blur_column groupId localSize localId in
  let s' := run (GaussianBlur false inp iWidth iHeight a0 a1 a2 a3 b1 b2 coefp coefn out
                   groupId localSize localId) m in
  let col := blur_input m inp iWidth x in
  let rows := Z.to_nat iHeight in
  mem s' out (x + Z.of_nat r * iWidth) =
    dataFloat4ToUchar4
      (add4 (dataUchar4ToFloat4 (dataFloat4ToUchar4 (forward_response a0 a1 b1 b2 col r)))
            (reverse_response a2 a3 b1 b2 col rows r)) /\
  (let k := F32.half in
   let z := F32.zero in
   let m1 := mem_of [(slot0, [1; 1])] in
   let s1 := run (GaussianBlur false slot0 1 2 k z k z z z z z slot1 (0, 0) (1, 1) (0, 0)) m1 in
   mem s1 slot1 0 = 0 /\
   blurred_pixel k z k z z z (blur_input m1 slot0 1 0) 2 0 = 0 /\
   blurred_pixel_unquantized k z k z z z (blur_input m1 slot0 1 0) 2 0 = 1).
Proof.
  intros Hio Hx Hr. cbv zeta. split.
  - destruct (GaussianBlur_run inp out iWidth iHeight a0 a1 a2 a3 b1 b2 coefp coefn
                groupId localSize localId m Hio Hx) as (_ & Hm & _).
    apply Hm, Hr.
  - vm_compute. repeat split.
Qed.

Lemma GaussianBlur_adds_to_stored_bytes_witness :
  let k := F32.half in
  let z := F32.zero in
  let m := mem_of [(slot0, [1; 1])] in
  let s' := run (GaussianBlur false slot0 1 2 k z k z z z z z slot1 (0, 0) (1, 1) (0, 0)) m in
  let col := blur_input m slot0 1 0 in
  (slot0 <> slot1 /\ 0 <= blur_column (0, 0) (1, 1) (0, 0) < 1 /\ (0 < Z.to_nat 2)%nat) /\
  mem s' slot1 (0 + Z.of_nat 0 * 1) =
    dataFloat4ToUchar4
      (add4 (dataUchar4ToFloat4 (dataFloat4ToUchar4 (forward_response k z z z col 0)))
            (reverse_response k z z z col 2 0)).
Proof.
  assert (H1 : slot0 <> slot1) by discriminate.
  assert (H2 : 0 <= blur_column (0, 0) (1, 1) (0, 0) < 1)
    by (vm_compute; split; discriminate || reflexivity).
  assert (H3 : (0 < Z.to_nat 2)%nat) by (vm_compute; lia).
  split; [auto|].
  exact (proj1 (GaussianBlur_adds_to_stored_bytes slot0 slot1 1 2 F32.half F32.zero F32.half
                  F32.zero F32.zero F32.zero F32.zero F32.zero (0, 0) (1, 1) (0, 0)
                  (mem_of [(slot0, [1; 1])]) 0 H1 H2 H3)).
Defined.

(** ** The order of floats *)

Lemma SFcompare_fkey (f g : float) :
  f <> S754_nan -> g <> S754_nan ->
  (SFcompare f g = Some Lt <-> klt (fkey f) (fkey g)) /\
  (SFcompare f g = Some Eq <-> fkey f = fkey g) /\
  (SFcompare f g = Some Gt <-> klt (fkey g) (fkey f)).
Proof.
  intros Hf Hg. unfold klt.
  destruct f as [s|s| |s m e], g as [s'|s'| |s' m' e']; try congruence;
    try destruct s; try destruct s'; cbn [SFcompare fkey fst snd];
    try solve [repeat split; intros H; try discriminate H; try lia; try reflexivity;
               try (injection H; lia)].
  - (* both negative *)
    pose proof (Z.compare_spec e e') as He.
    pose proof (Pos.compare_spec m m') as Hm.
    rewrite Pos.compare_cont_spec. cbn [Pos.switch_Eq].
    destruct He, Hm; cbn [CompOpp]; repeat split; intros HH;
      try discriminate HH; try lia; try reflexivity; try (injection HH; lia);
      try (f_equal; [f_equal|]; lia).
  - (* both positive *)
    pose proof (Z.compare_spec e e') as He.
    pose proof (Pos.compare_spec m m') as Hm.
    rewrite Pos.compare_cont_spec. cbn [Pos.switch_Eq].
    destruct He, Hm; repeat split; intros HH;
      try discriminate HH; try lia; try reflexivity; try (injection HH; lia);
      try (f_equal; [f_equal|]; lia).
Qed.

Lemma ltb_not_nan (f g : float) : F32.ltb f g = true -> f <> S754_nan /\ g <> S754_nan.
Proof.
  unfold F32.ltb, SFltb. destruct f, g; cbn [SFcompare]; intros H;
    try discriminate H; split; discriminate.
Qed.

Lemma leb_not_nan (f g : float) : F32.leb f g = true -> f <> S754_nan /\ g <> S754_nan.
Proof.
  unfold F32.leb, SFleb. destruct f, g; cbn [SFcompare]; intros H;
    try discriminate H; split; discriminate.
Qed.

Lemma ltb_klt (f g : float) :
  f <> S754_nan -> g <> S754_nan -> (F32.ltb f g = true <-> klt (fkey f) (fkey g)).
Proof.
  intros Hf Hg. destruct (SFcompare_fkey f g Hf Hg) as (Hlt & _ & _).
  rewrite <- Hlt. unfold F32.ltb, SFltb.
  destruct (SFcompare f g) as [[| |]|]; split; intros H; congruence.
Qed.

Lemma leb_kle (f g : float) :
  f <> S754_nan -> g <> S754_nan -> (F32.leb f g = true <-> kle (fkey f) (fkey g)).
Proof.
  intros Hf Hg. destruct (SFcompare_fkey f g Hf Hg) as (Hlt & Heq & Hgt).
  unfold F32.leb, SFleb.
  assert (Hk : kle (fkey f) (fkey g) <-> klt (fkey f) (fkey g) \/ fkey f = fkey g).
  { unfold kle, klt. destruct (fkey f) as [[a b] c], (fkey g) as [[a' b'] c'].
    cbn [fst snd]. split.
    - intros H. assert (D : c < c' \/ c = c' \/ c' < c) by lia.
      destruct H as [H|[H [H'|[H' H'']]]]; [lia|lia|].
      destruct D as [D|[D|D]]; [lia| |lia]. right. subst. reflexivity.
    - intros [H|H]; [lia|]. injection H as -> -> ->. lia. }
  rewrite Hk, <- Hlt, <- Heq.
  destruct (SFcompare f g) as [[| |]|]; split; intros H;
    try discriminate H; try (destruct H; congruence); auto.
Qed.

Lemma float_eqb_eq (a b : float) : float_eqb a b = true -> a = b.
Proof.
  destruct a as [s|s| |s m e], b as [s'|s'| |s' m' e']; cbn [float_eqb];
    intros H; try discriminate H; try reflexivity.
  - apply Bool.eqb_prop in H. congruence.
  - apply Bool.eqb_prop in H. congruence.
  - apply andb_prop in H. destruct H as [H He]. apply andb_prop in H.
    destruct H as [Hs Hm]. apply Bool.eqb_prop in Hs. apply Pos.eqb_eq in Hm.
    apply Z.eqb_eq in He. congruence.
Qed.

(** A property of floats checked on the floats of the 256 bytes. *)
Lemma forall_byte_floats (f g : Z -> float) :
  forallb (fun b => float_eqb (f b) (g b)) bytes = true ->
  forall b, 0 <= b < 256 -> f b = g b.
Proof.
  intros H b Hb. apply float_eqb_eq.
  apply (forall_bytes (fun b => float_eqb (f b) (g b)) H b Hb).
Qed.

Lemma mul_byte_zero (b : Z) : 0 <= b < 256 -> F32.mul (F32.of_Z b) F32.zero = F32.zero.
Proof. apply (forall_byte_floats (fun b => F32.mul (F32.of_Z b) F32.zero) (fun _ => F32.zero)). vm_compute. reflexivity. Qed.

Lemma mul_byte_one (b : Z) : 0 <= b < 256 -> F32.mul (F32.of_Z b) F32.one = F32.of_Z b.
Proof. apply (forall_byte_floats (fun b => F32.mul (F32.of_Z b) F32.one) F32.of_Z). vm_compute. reflexivity. Qed.

Lemma add_zero_byte (b : Z) : 0 <= b < 256 -> F32.add F32.zero (F32.of_Z b) = F32.of_Z b.
Proof. apply (forall_byte_floats (fun b => F32.add F32.zero (F32.of_Z b)) F32.of_Z). vm_compute. reflexivity. Qed.

Lemma add_byte_zero (b : Z) : 0 <= b < 256 -> F32.add (F32.of_Z b) F32.zero = F32.of_Z b.
Proof. apply (forall_byte_floats (fun b => F32.add (F32.of_Z b) F32.zero) F32.of_Z). vm_compute. reflexivity. Qed.

Lemma byte_fraction_not_nan (b : Z) :
  0 <= b < 256 -> F32.div (F32.of_Z b) (F32.of_Z 255) <> S754_nan.
Proof.
  intros Hb E.
  pose proof (forall_bytes
                (fun b => match F32.div (F32.of_Z b) (F32.of_Z 255) with
                          | S754_nan => false
                          | _ => true
                          end)) as H.
  specialize (H ltac:(vm_compute; reflexivity) b Hb).
  cbv beta in H. rewrite E in H. discriminate H.
Qed.

(** ** Fusion (C4) *)

Lemma Fusion_in_bounds (puiDataIn pucFrame piLabelIn : buffer) (iWidth iHeight : Z)
    (fMinThresh fMaxThresh : float) (puiDataOut : buffer)
    (groupId localSize localId : uint2) (s : state) :
  fusion_X groupId localSize localId < Int.u32 iWidth ->
  fusion_Y groupId localSize localId < Int.u32 iHeight ->
  let off := fusion_offset iWidth groupId localSize localId in
  let c := fusion_channel (mem s) puiDataIn pucFrame piLabelIn fMinThresh fMaxThresh off in
  let v := Int.u32 (dataFloat4ToUchar4 (V4 (c 0%nat) (c 1%nat) (c 2%nat) (c 3%nat))) in
  Fusion puiDataIn pucFrame piLabelIn iWidth iHeight fMinThresh fMaxThresh puiDataOut
    groupId localSize localId s =
    (tt, State (upd (mem s) puiDataOut off v)
           (Store puiDataOut off v
            :: Load pucFrame (4 * off + 3) :: Load pucFrame (4 * off + 2)
            :: Load pucFrame (4 * off + 1) :: Load pucFrame (4 * off)
            :: Load piLabelIn off :: Load puiDataIn off :: log s)).
Proof.
  intros HX HY. unfold Fusion, fusion_X, fusion_Y in *.
  apply Z.ltb_lt in HX, HY. rewrite HX, HY. cbv zeta.
  unfold fusion_channel. change (Z.of_nat 0) with 0. rewrite Z.add_0_r.
  reflexivity.
Qed.

(** The three regimes of one channel.  The test for the blend comes first in
    the kernel and the test for the frame second; below the lower threshold
    the blurred value stays when the thresholds are in order. *)
Lemma fuse_regimes (fMinThresh fMaxThresh frame fg blurred back : float) :
  fg <> S754_nan ->
  (F32.leb fMinThresh fMaxThresh = true -> F32.ltb fg fMinThresh = true ->
   fuse fMinThresh fMaxThresh frame fg blurred back = blurred) /\
  (F32.geb fg fMinThresh = true -> F32.ltb fg fMaxThresh = true ->
   fuse fMinThresh fMaxThresh frame fg blurred back
   = F32.add (F32.mul frame fg) (F32.mul blurred back)) /\
  (F32.geb fg fMaxThresh = true ->
   fuse fMinThresh fMaxThresh frame fg blurred back = frame).
Proof.
  intros Hfg. unfold fuse, F32.geb. split; [|split].
  - intros Hord Hlt. destruct (leb_not_nan _ _ Hord) as [Hmin Hmax].
    pose proof (proj1 (leb_kle _ _ Hmin Hmax) Hord) as K1.
    pose proof (proj1 (ltb_klt _ _ Hfg Hmin) Hlt) as K2.
    destruct (SFleb fMinThresh fg) eqn:E1.
    + apply (leb_kle _ _ Hmin Hfg) in E1. exfalso. unfold kle, klt in *. lia.
    + cbn [andb]. destruct (SFleb fMaxThresh fg) eqn:E2; [|reflexivity].
      apply (leb_kle _ _ Hmax Hfg) in E2. exfalso. unfold kle, klt in *. lia.
  - intros H1 H2. unfold F32.ltb in H2. rewrite H1. unfold F32.ltb. rewrite H2. reflexivity.
  - intros H. destruct (leb_not_nan _ _ H) as [Hmax _].
    destruct (F32.ltb fg fMaxThresh) eqn:E.
    + apply (ltb_klt _ _ Hfg Hmax) in E. apply (leb_kle _ _ Hmax Hfg) in H.
      exfalso. unfold kle, klt in *. lia.
    + rewrite andb_false_r. rewrite H. reflexivity.
Qed.

Lemma fuse_background (fMinThresh fMaxThresh : float) (f b : Z) :
  F32.ltb F32.zero fMaxThresh = true ->
  0 <= f < 256 -> 0 <= b < 256 ->
  fuse fMinThresh fMaxThresh (F32.of_Z f) F32.zero (F32.of_Z b) F32.one = F32.of_Z b.
Proof.
  intros Hmax Hf Hb. unfold fuse, F32.geb. rewrite Hmax.
  destruct (SFleb fMinThresh F32.zero).
  - cbn [andb]. rewrite mul_byte_zero, mul_byte_one, add_zero_byte by assumption.
    reflexivity.
  - cbn [andb]. destruct (SFleb fMaxThresh F32.zero) eqn:E; [|reflexivity].
    destruct (ltb_not_nan _ _ Hmax) as [Hz Hm].
    apply (ltb_klt _ _ Hz Hm) in Hmax. apply (leb_kle _ _ Hm Hz) in E.
    exfalso. unfold kle, klt in *. lia.
Qed.

Lemma fuse_foreground (fMinThresh fMaxThresh : float) (f b : Z) :
  F32.leb fMinThresh fMaxThresh = true ->
  F32.leb fMinThresh F32.one = true ->
  0 <= f < 256 -> 0 <= b < 256 ->
  fuse fMinThresh fMaxThresh (F32.of_Z f) F32.one (F32.of_Z b) F32.zero = F32.of_Z f.
Proof.
  intros Hord Hmin Hf Hb. unfold fuse, F32.geb. unfold F32.leb in Hmin. rewrite Hmin.
  cbn [andb]. destruct (F32.ltb F32.one fMaxThresh) eqn:E.
  - rewrite mul_byte_one, mul_byte_zero, add_byte_zero by assumption. reflexivity.
  - destruct (SFleb fMaxThresh F32.one) eqn:E'; [reflexivity|].
    destruct (leb_not_nan _ _ Hord) as [_ Hm].
    assert (H1 : F32.one <> S754_nan) by discriminate.
    assert (K : ~ klt (fkey F32.one) (fkey fMaxThresh)).
    { intros K. apply (ltb_klt _ _ H1 Hm) in K. congruence. }
    assert (K' : ~ kle (fkey fMaxThresh) (fkey F32.one)).
    { intros K'. apply (leb_kle _ _ Hm H1) in K'. unfold F32.leb in K'. congruence. }
    exfalso. unfold kle, klt in *. lia.
Qed.

Lemma byte_of_range (p : Z) (k : nat) : 0 <= byte_of p k < 256.
Proof. apply land_255_range. Qed.

Lemma peek8_range (m : memory) (b : buffer) (i : Z) : 0 <= peek8 m b i < 256.
Proof. unfold peek8, Int.u8. apply Z.mod_pos_bound. lia. Qed.

Lemma land_255_byte (b : Z) : 0 <= b < 256 -> Z.land b 255 = b.
Proof. intros H. rewrite land_255_mod. apply Z.mod_small, H. Qed.

Lemma chan_V4 {A} (c : nat -> A) (k : nat) :
  (k < 4)%nat -> chan k (V4 (c 0%nat) (c 1%nat) (c 2%nat) (c 3%nat)) = c k.
Proof. intros H. destruct k as [|[|[|[|k]]]]; try lia; reflexivity. Qed.

(** Bytes of a word that is 0, and of the word of all ones. *)
Lemma byte_of_zero (k : nat) : byte_of 0 k = 0.
Proof. unfold byte_of. rewrite Z.shiftr_0_l. reflexivity. Qed.

Lemma byte_of_ones (k : nat) : (k < 4)%nat -> byte_of (2 ^ 32 - 1) k = 255.
Proof. intros H. destruct k as [|[|[|[|k]]]]; try lia; reflexivity. Qed.

Lemma word_of_bytes (u v : Z) :
  (forall k, (k < 4)%nat -> byte_of u k = byte_of v k) -> Int.u32 u = Int.u32 v.
Proof.
  intros H. unfold Int.u32. apply Z.bits_inj'. intros n Hn.
  destruct (Z.ltb_spec n 32) as [Hlt|Hge].
  - rewrite !Z.mod_pow2_bits_low by lia.
    assert (Hk : (Z.to_nat (n / 8) < 4)%nat).
    { apply Nat2Z.inj_lt. rewrite Z2Nat.id by (apply Z.div_pos; lia).
      apply Z.div_lt_upper_bound; lia. }
    specialize (H _ Hk). unfold byte_of in H.
    rewrite Z2Nat.id in H by (apply Z.div_pos; lia).
    apply (f_equal (fun z => Z.testbit z (n mod 8))) in H.
    pose proof (Z.mod_pos_bound n 8 ltac:(lia)) as Hm.
    rewrite !Z.land_spec, !Z.shiftr_spec, testbit_255 in H by lia.
    replace (n mod 8 + 8 * (n / 8)) with n in H by (rewrite (Z.div_mod n 8) at 1; lia).
    destruct (Z.ltb_spec (n mod 8) 8); [|lia].
    rewrite !andb_true_r in H. exact H.
  - rewrite !Z.mod_pow2_bits_high by lia. reflexivity.
Qed.

(** For an in-bounds pixel of [Fusion] each channel [k] is decided on its
    own mask channel [fg], the mask byte over 255, and packed by truncation:
    below [fMinThresh] the output byte is the blurred byte, if the thresholds
    are in order; from [fMinThresh] up to [fMaxThresh] it is the truncated
    [frame*fg + blurred*(1-fg)]; from [fMaxThresh] on it is the frame byte.
    With a mask of 0 the output is the blurred pixel when [fMaxThresh > 0];
    with a mask of all ones it is the frame pixel when the thresholds are in
    order and [fMinThresh <= 1]. *)
Theorem Fusion_regimes (puiDataIn pucFrame piLabelIn : buffer) (iWidth iHeight : Z)
    (fMinThresh fMaxThresh : float) (puiDataOut : buffer)
    (groupId localSize localId : uint2) (m : memory) (k : nat) :
  fusion_X groupId localSize localId < Int.u32 iWidth ->
  fusion_Y groupId localSize localId < Int.u32 iHeight ->
  (k < 4)%nat ->
  let off := fusion_offset iWidth groupId localSize localId in
  let s' := run (Fusion puiDataIn pucFrame piLabelIn iWidth iHeight fMinThresh fMaxThresh
                   puiDataOut groupId localSize localId) m in
  let blurred := byte_of (peek32 m puiDataIn off) k in
  let frame := peek8 m pucFrame (4 * off + Z.of_nat k) in
  let fg := F32.div (F32.of_Z (byte_of (peek32 m piLabelIn off) k)) (F32.of_Z 255) in
  let blend :=
    F32.add (F32.mul (F32.of_Z frame) fg) (F32.mul (F32.of_Z blurred) (F32.sub F32.one fg)) in
  let out := byte_of (mem s' puiDataOut off) k in
  (F32.leb fMinThresh fMaxThresh = true -> F32.ltb fg fMinThresh = true -> out = blurred) /\
  (F32.geb fg fMinThresh = true -> F32.ltb fg fMaxThresh = true ->
   out = Z.land (F32.to_uint blend) 255) /\
  (F32.geb fg fMaxThresh = true -> out = frame) /\
  (F32.ltb F32.zero fMaxThresh = true -> peek32 m piLabelIn off = 0 ->
   mem s' puiDataOut off = peek32 m puiDataIn off) /\
  (F32.leb fMinThresh fMaxThresh = true -> F32.leb fMinThresh F32.one = true ->
   peek32 m piLabelIn off = 2 ^ 32 - 1 ->
   forall j, (j < 4)%nat ->
     byte_of (mem s' puiDataOut off) j = peek8 m pucFrame (4 * off + Z.of_nat j)).
Proof.
  intros HX HY Hk off s' blurred frame fg blend out.
  assert (Hmem : mem s' puiDataOut off =
                 dataFloat4ToUchar4
                   (V4 (fusion_channel m puiDataIn pucFrame piLabelIn fMinThresh fMaxThresh off 0)
                       (fusion_channel m puiDataIn pucFrame piLabelIn fMinThresh fMaxThresh off 1)
                       (fusion_channel m puiDataIn pucFrame piLabelIn fMinThresh fMaxThresh off 2)
                       (fusion_channel m puiDataIn pucFrame piLabelIn fMinThresh fMaxThresh off 3))).
  { unfold s', run. rewrite Fusion_in_bounds by assumption. cbn [snd mem].
    fold off. rewrite upd_same, dataFloat4ToUchar4_pack4, u32_pack4. reflexivity. }
  assert (Hbyte : forall j, (j < 4)%nat ->
            byte_of (mem s' puiDataOut off) j =
            Z.land (F32.to_uint
                      (fusion_channel m puiDataIn pucFrame piLabelIn fMinThresh fMaxThresh off j))
                   255).
  { intros j Hj. rewrite Hmem, dataFloat4ToUchar4_pack4, byte_of_pack4 by exact Hj.
    cbn [vx vy vz vw].
    destruct j as [|[|[|[|j]]]]; try lia; reflexivity. }
  assert (Hfg : fg <> S754_nan) by apply byte_fraction_not_nan, byte_of_range.
  destruct (fuse_regimes fMinThresh fMaxThresh (F32.of_Z frame) fg (F32.of_Z blurred)
              (F32.sub F32.one fg) Hfg) as (R1 & R2 & R3).
  split; [|split; [|split; [|split]]].
  - intros Hord Hlt. unfold out. rewrite Hbyte by exact Hk. unfold fusion_channel.
    fold blurred frame fg. rewrite R1 by assumption.
    rewrite to_uint_of_byte by apply byte_of_range.
    apply land_255_byte, byte_of_range.
  - intros Hge Hlt. unfold out. rewrite Hbyte by exact Hk. unfold fusion_channel.
    fold blurred frame fg. rewrite R2 by assumption. reflexivity.
  - intros Hge. unfold out. rewrite Hbyte by exact Hk. unfold fusion_channel.
    fold blurred frame fg. rewrite R3 by assumption.
    rewrite to_uint_of_byte by apply peek8_range.
    apply land_255_byte, peek8_range.
  - intros Hmax Hmask.
    assert (E : Int.u32 (mem s' puiDataOut off) = Int.u32 (peek32 m puiDataIn off)).
    { apply word_of_bytes. intros j Hj. rewrite Hbyte by exact Hj.
      unfold fusion_channel. rewrite Hmask, byte_of_zero.
      change (F32.div (F32.of_Z 0) (F32.of_Z 255)) with F32.zero.
      change (F32.sub F32.one F32.zero) with F32.one.
      rewrite fuse_background; try assumption;
        [|apply peek8_range|apply byte_of_range].
      rewrite to_uint_of_byte by apply byte_of_range.
      apply land_255_byte, byte_of_range. }
    rewrite Hmem, dataFloat4ToUchar4_pack4 in E. rewrite u32_pack4 in E.
    rewrite Hmem, dataFloat4ToUchar4_pack4, E.
    unfold peek32, Int.u32. apply Z.mod_mod. lia.
  - intros Hord Hmin Hmask j Hj. rewrite Hbyte by exact Hj.
    unfold fusion_channel. rewrite Hmask, byte_of_ones by exact Hj.
    change (F32.div (F32.of_Z 255) (F32.of_Z 255)) with F32.one.
    change (F32.sub F32.one F32.one) with F32.zero.
    rewrite fuse_foreground; try assumption; [|apply peek8_range|apply byte_of_range].
    rewrite to_uint_of_byte by apply peek8_range.
    apply land_255_byte, peek8_range.
Qed.

Lemma Fusion_regimes_witness :
  let m := mem_of [(slot0, [67305985]); (slot1, [10; 20; 30; 40]); (slot2, [4294967295])] in
  let s' := run (Fusion slot0 slot1 slot2 1 1 F32.half F32.one slot3 (0, 0) (1, 1) (0, 0)) m in
  (fusion_X (0, 0) (1, 1) (0, 0) < Int.u32 1 /\
   fusion_Y (0, 0) (1, 1) (0, 0) < Int.u32 1 /\ (1 < 4)%nat) /\
  byte_of (mem s' slot3 0) 1 = 20.
Proof.
  assert (H1 : fusion_X (0, 0) (1, 1) (0, 0) < Int.u32 1) by reflexivity.
  assert (H2 : fusion_Y (0, 0) (1, 1) (0, 0) < Int.u32 1) by reflexivity.
  assert (H3 : (1 < 4)%nat) by lia.
  split; [auto|].
  pose proof (Fusion_regimes slot0 slot1 slot2 1 1 F32.half F32.one slot3 (0, 0) (1, 1) (0, 0)
                (mem_of [(slot0, [67305985]); (slot1, [10; 20; 30; 40]);
                         (slot2, [4294967295])]) 1 H1 H2 H3) as T.
  cbv zeta in T. destruct T as (_ & _ & R3 & _).
  refine (eq_trans (R3 _) _); vm_compute; reflexivity.
Defined.

(** C4, as stated, fails outside the thresholds it has in mind.  With
    thresholds -1 and 0 a mask of 0 gives the frame, not the blurred pixel;
    with thresholds 2 and 3 a mask of all ones gives the blurred pixel, not
    the frame. *)
Lemma Fusion_mask_extremes_fail :
  let frame_word := 10 + 20 * 2 ^ 8 + 30 * 2 ^ 16 + 40 * 2 ^ 24 in
  let m0 := mem_of [(slot0, [67305985]); (slot1, [10; 20; 30; 40]); (slot2, [0])] in
  let s0 := run (Fusion slot0 slot1 slot2 1 1 (F32.of_Z (-1)) (F32.of_Z 0) slot3
                   (0, 0) (1, 1) (0, 0)) m0 in
  let m1 := mem_of [(slot0, [67305985]); (slot1, [10; 20; 30; 40]); (slot2, [4294967295])] in
  let s1 := run (Fusion slot0 slot1 slot2 1 1 (F32.of_Z 2) (F32.of_Z 3) slot3
                   (0, 0) (1, 1) (0, 0)) m1 in
  (F32.ltb (F32.of_Z (-1)) (F32.of_Z 0) = true /\
   mem s0 slot3 0 <> peek32 m0 slot0 0 /\ mem s0 slot3 0 = frame_word) /\
  (F32.ltb (F32.of_Z 2) (F32.of_Z 3) = true /\
   mem s1 slot3 0 <> frame_word /\ mem s1 slot3 0 = peek32 m1 slot0 0).
Proof. vm_compute. repeat split; discriminate. Qed.

(** ** ResizeBillinear (C5) *)

Lemma to_uchar_range (f : float) : 0 <= F32.to_uchar f < 256.
Proof.
  unfold F32.to_uchar, F32.to_range, F32.clampZ.
  destruct f as [s|s| |s m e]; try destruct s; lia.
Qed.

Lemma u8_small (z : Z) : 0 <= z < 256 -> Int.u8 z = z.
Proof. intros H. apply Z.mod_small. exact H. Qed.

(** [ResizeBillinear]. For a destination pixel [(dx, dy)] inside
    [dst_cols] by [dst_rows] the kernel stores, at [dy * dst_step + dx], the
    pixel of the contract: source coordinates floored and clamped to the
    source with the fraction zeroed when clamped, the [+1] neighbours clamped
    again, the four weights, [+ 0.5], the clamp to [0, 255], the truncation
    to a byte; the source coordinate is [(dx + 0.5) * inv_fx - 0.5] with
    [inv_fx = 1 / fx] rounded to single precision first (and the same in y),
    not [(dx + 0.5) / fx - 0.5]. *)
Theorem ResizeBillinear_pixel (srcptr : buffer) (src_step src_rows src_cols : Z)
    (ifx ify : float) (dstptr : buffer) (dst_step dst_rows dst_cols : Z)
    (index : uint2) (m : memory) :
  Int.s32 (fst index) < dst_cols ->
  Int.s32 (snd index) < dst_rows ->
  let dx := Int.s32 (fst index) in
  let dy := Int.s32 (snd index) in
  let s' := run (ResizeBillinear srcptr src_step src_rows src_cols ifx ify
                   dstptr dst_step dst_rows dst_cols index) m in
  mem s' dstptr (Int.mad24 dy dst_step dx) =
    resize_pixel source_coordinate_recip (peek8 m srcptr)
      src_step src_rows src_cols ifx ify dx dy /\
  writes_to dstptr (log s') =
    [(Int.mad24 dy dst_step dx,
      resize_pixel source_coordinate_recip (peek8 m srcptr)
        src_step src_rows src_cols ifx ify dx dy)].
Proof.
  intros Hx Hy dx dy s'. subst s'. unfold run, ResizeBillinear.
  fold dx dy. apply Z.ltb_lt in Hx, Hy. fold dx in Hx. fold dy in Hy.
  rewrite Hx, Hy. cbn [andb].
  unfold resize_pixel, floor_clamp, source_coordinate_recip.
  set (sx := F32.sub (F32.mul (F32.add (F32.of_Z dx) F32.half) (F32.div F32.one ifx)) F32.half).
  set (sy := F32.sub (F32.mul (F32.add (F32.of_Z dy) F32.half) (F32.div F32.one ify)) F32.half).
  destruct (F32.to_int (F32.floor sx) <? 0);
    destruct (F32.to_int (F32.floor sy) <? 0);
    match goal with |- context [?a >=? src_cols] => destruct (a >=? src_cols) end;
    match goal with |- context [?a >=? src_rows] => destruct (a >=? src_rows) end;
    unfold bind, load8, store8, round_to_byte; cbn [mem log snd writes_to];
    rewrite Nat.eqb_refl, upd_same, u8_small by apply to_uchar_range;
    split; reflexivity.
Qed.

Lemma ResizeBillinear_pixel_witness :
  let fx := F32.div (F32.of_Z 7) (F32.of_Z 4) in
  let m := mem_of [(slot0, [0; 1; 0; 1; 0; 1; 0; 1])] in
  let s' := run (ResizeBillinear slot0 8 1 8 fx F32.one slot1 14 1 14 (10, 0)) m in
  (Int.s32 10 < 14 /\ Int.s32 0 < 1) /\
  mem s' slot1 (Int.mad24 (Int.s32 0) 14 (Int.s32 10)) =
    resize_pixel source_coordinate_recip (peek8 m slot0) 8 1 8 fx F32.one
      (Int.s32 10) (Int.s32 0) /\
  writes_to slot1 (log s') =
    [(Int.mad24 (Int.s32 0) 14 (Int.s32 10),
      resize_pixel source_coordinate_recip (peek8 m slot0) 8 1 8 fx F32.one
        (Int.s32 10) (Int.s32 0))].
Proof.
  assert (H1 : Int.s32 10 < 14) by reflexivity.
  assert (H2 : Int.s32 0 < 1) by reflexivity.
  split; [auto|].
  exact (ResizeBillinear_pixel slot0 8 1 8 (F32.div (F32.of_Z 7) (F32.of_Z 4)) F32.one
           slot1 14 1 14 (10, 0) (mem_of [(slot0, [0; 1; 0; 1; 0; 1; 0; 1])]) H1 H2).
Defined.

(** C5, as stated, fails in single precision: at scale 1.75 the quotient
    [(10 + 0.5) / 1.75] is 6 and the source coordinate 5.5, which puts
    destination pixel 10 of a row 0, 1, 0, 1, ... at 0.5 and rounds it to 1;
    the kernel multiplies by the rounded reciprocal, lands just above 5.5,
    and stores 0. *)
Lemma ResizeBillinear_not_by_division :
  let fx := F32.div (F32.of_Z 7) (F32.of_Z 4) in
  let m := mem_of [(slot0, [0; 1; 0; 1; 0; 1; 0; 1])] in
  let s' := run (ResizeBillinear slot0 8 1 8 fx F32.one slot1 14 1 14 (10, 0)) m in
  mem s' slot1 10 <>
    resize_pixel source_coordinate_div (peek8 m slot0) 8 1 8 fx F32.one 10 0.
Proof. vm_compute. discriminate. Qed.

(** ** Integers that do not wrap *)

Lemma s32_small (z : Z) : - 2 ^ 31 <= z < 2 ^ 31 -> Int.s32 z = z.
Proof. intros H. unfold Int.s32. rewrite Z.mod_small by lia. lia. Qed.

Lemma u32_small (z : Z) : 0 <= z < 2 ^ 32 -> Int.u32 z = z.
Proof. intros H. apply Z.mod_small. exact H. Qed.

Lemma sx24_small (z : Z) : - 2 ^ 23 <= z < 2 ^ 23 -> Int.sx24 z = z.
Proof. intros H. unfold Int.sx24. rewrite Z.mod_small by lia. lia. Qed.

Lemma mad24_small (x y z : Z) :
  - 2 ^ 23 <= x < 2 ^ 23 -> - 2 ^ 23 <= y < 2 ^ 23 ->
  - 2 ^ 31 <= x * y + z < 2 ^ 31 ->
  Int.mad24 x y z = x * y + z.
Proof.
  intros Hx Hy Hz. unfold Int.mad24. rewrite !sx24_small by assumption.
  apply s32_small, Hz.
Qed.

Lemma mul24_small (x y : Z) :
  - 2 ^ 23 <= x < 2 ^ 23 -> - 2 ^ 23 <= y < 2 ^ 23 ->
  - 2 ^ 31 <= x * y < 2 ^ 31 ->
  Int.mul24 x y = x * y.
Proof.
  intros Hx Hy Hz. unfold Int.mul24. rewrite !sx24_small by assumption.
  apply s32_small, Hz.
Qed.

(** The offset of element [(x, y)] of a [w] by [h] array lies in the array. *)
Lemma offset_bound (w h x y : Z) :
  0 <= x < w -> 0 <= y < h -> 0 <= y * w + x < w * h.
Proof. intros Hx Hy. nia. Qed.

Lemma offset_inj (w x y x' y' : Z) :
  0 <= x < w -> 0 <= x' < w -> y * w + x = y' * w + x' -> x = x' /\ y = y'.
Proof.
  intros Hx Hx' E. assert (Hy : y = y').
  { destruct (Z.lt_trichotomy y y') as [H|[H|H]]; [exfalso; nia|exact H|exfalso; nia]. }
  subst y'. split; [lia|reflexivity].
Qed.

Lemma peek8_u8 (m : memory) (b : buffer) (i : Z) : Int.u8 (peek8 m b i) = peek8 m b i.
Proof. apply u8_small, peek8_range. Qed.

(** ** Dispatches *)

Lemma dispatch_cons {T} (k : T -> M unit) (t : T) (rest : list T) (s : state) :
  snd (dispatch k (t :: rest) s) = snd (dispatch k rest (snd (k t s))).
Proof. cbn [dispatch]. unfold bind. destruct (k t s) as [a s1]. reflexivity. Qed.

Lemma dispatch_nil {T} (k : T -> M unit) (s : state) : snd (dispatch k [] s) = s.
Proof. reflexivity. Qed.

Lemma grid_spec (w h : nat) (p : uint2) :
  In p (grid w h) <-> in_image (Z.of_nat w) (Z.of_nat h) p.
Proof.
  unfold grid, in_image. rewrite in_flat_map. split.
  - intros (y & Hy & Hp). apply in_map_iff in Hp. destruct Hp as (x & <- & Hx).
    apply in_seq in Hx, Hy. cbn [fst snd]. lia.
  - intros [Hx Hy]. exists (Z.to_nat (snd p)). split; [apply in_seq; lia|].
    apply in_map_iff. exists (Z.to_nat (fst p)). split; [|apply in_seq; lia].
    destruct p as [x y]. cbn [fst snd] in *. f_equal; lia.
Qed.

(** ** Transpose (C3) *)

Section TransposeProof.

Variables (idata block odata : buffer) (width height : Z).
Variable m0 : memory.
Hypothesis idata_block : idata <> block.
Hypothesis idata_odata : idata <> odata.
Hypothesis block_odata : block <> odata.
Hypothesis width_range : 0 <= width < 2 ^ 23.
Hypothesis height_range : 0 <= height < 2 ^ 23.
Hypothesis size_range : width * height < 2 ^ 31.

Let tile : uint2 := (BLOCK_DIM, BLOCK_DIM).

(** The staging cell of a thread and what its load puts there. *)
Let cell (l : uint2) : Z := snd l * 17 + fst l.
Let staged (g l : uint2) : Z :=
  peek8 m0 idata ((snd g * 16 + snd l) * width + (fst g * 16 + fst l)).

(** The transposed element is in place. *)
Let placed (m : memory) (x y : Z) : Prop :=
  m odata (x * height + y) = peek8 m0 idata (y * width + x).

Lemma Transpose_load_eq (g l : uint2) (s : state) :
  group_ok g -> in_tile l ->
  Transpose_load idata width height block (thread_position tile g l) tile l s =
    let X := fst g * 16 + fst l in
    let Y := snd g * 16 + snd l in
    if (X <? width) && (Y <? height)
    then (tt, State (upd (mem s) block (cell l) (peek8 (mem s) idata (Y * width + X)))
                (Store block (cell l) (peek8 (mem s) idata (Y * width + X))
                 :: Load idata (Y * width + X) :: log s))
    else (tt, s).
Proof.
  intros [Hgx Hgy] [Hlx Hly]. unfold BLOCK_DIM in *.
  unfold Transpose_load, thread_position, tile, BLOCK_DIM, cell. cbn [fst snd].
  rewrite !u32_small by lia. rewrite !s32_small by lia. cbv zeta.
  destruct (Z.ltb_spec (fst g * 16 + fst l) width) as [HX|HX]; [|reflexivity].
  destruct (Z.ltb_spec (snd g * 16 + snd l) height) as [HY|HY]; [|reflexivity].
  cbn [andb].
  pose proof (offset_bound width height (fst g * 16 + fst l) (snd g * 16 + snd l)
                ltac:(lia) ltac:(lia)) as Hb.
  rewrite mad24_small by lia.
  unfold bind, load8, store8. cbn [mem log]. rewrite peek8_u8. reflexivity.
Qed.

Lemma Transpose_store_eq (g l : uint2) (s : state) :
  group_ok g -> in_tile l ->
  Transpose_store width height block odata tile g l s =
    let X := fst g * 16 + snd l in
    let Y := snd g * 16 + fst l in
    if (Y <? height) && (X <? width)
    then (tt, State (upd (mem s) odata (X * height + Y) (peek8 (mem s) block (cell (snd l, fst l))))
                (Store odata (X * height + Y) (peek8 (mem s) block (cell (snd l, fst l)))
                 :: Load block (cell (snd l, fst l)) :: log s))
    else (tt, s).
Proof.
  intros [Hgx Hgy] [Hlx Hly]. unfold BLOCK_DIM in *.
  unfold Transpose_store, tile, BLOCK_DIM, cell. cbn [fst snd].
  rewrite !(s32_small (fst g)), !(s32_small (snd g)), !(s32_small 16) by lia.
  rewrite !mul24_small by lia. rewrite !s32_small by lia. cbv zeta.
  destruct (Z.ltb_spec (snd g * 16 + fst l) height) as [HY|HY]; [|reflexivity].
  destruct (Z.ltb_spec (fst g * 16 + snd l) width) as [HX|HX];
    [|rewrite andb_false_r; reflexivity].
  cbn [andb].
  pose proof (offset_bound height width (snd g * 16 + fst l) (fst g * 16 + snd l)
                ltac:(lia) ltac:(lia)) as Hb.
  rewrite mad24_small by lia.
  unfold bind, load8, store8. cbn [mem log]. rewrite peek8_u8. reflexivity.
Qed.

Lemma cell_inj (l l' : uint2) : in_tile l -> in_tile l' -> cell l = cell l' -> l = l'.
Proof.
  intros [Hx Hy] [Hx' Hy'] E. unfold cell, BLOCK_DIM in *.
  destruct (offset_inj 17 (fst l) (snd l) (fst l') (snd l')) as [E1 E2]; try lia.
  destruct l, l'. cbn [fst snd] in *. congruence.
Qed.

(** The loads of one group: a list of threads of the tile run one after the
    other leaves in [block] the element of every thread of the list whose
    position is in the image, and keeps what was staged right before. *)
Lemma Transpose_load_phase (g : uint2) (locals : list uint2) :
  group_ok g -> Forall in_tile locals ->
  forall s : state,
    (forall i, mem s idata i = m0 idata i) ->
    let s' := snd (dispatch (fun l => Transpose_load idata width height block
                                        (thread_position tile g l) tile l) locals s) in
    (forall b i, b <> block -> mem s' b i = mem s b i) /\
    (forall l, in_tile l ->
       in_image width height (fst g * 16 + fst l, snd g * 16 + snd l) ->
       In l locals \/ mem s block (cell l) = staged g l ->
       mem s' block (cell l) = staged g l).
Proof.
  intros Hg Hall. induction Hall as [|t rest Ht Hrest IH]; intros s Hin s'.
  - subst s'. rewrite dispatch_nil. split; [reflexivity|].
    intros l _ _ [[]|H]. exact H.
  - subst s'. rewrite dispatch_cons. rewrite Transpose_load_eq by assumption.
    cbv zeta.
    destruct ((fst g * 16 + fst t <? width) && (snd g * 16 + snd t <? height)) eqn:E;
      cbn [snd].
    + apply andb_prop in E. destruct E as [EX EY]. apply Z.ltb_lt in EX, EY.
      set (s1 := State _ _).
      assert (Hin1 : forall i, mem s1 idata i = m0 idata i).
      { intros i. unfold s1. cbn [mem]. rewrite upd_other_buffer by exact idata_block.
        apply Hin. }
      destruct (IH s1 Hin1) as [Hb Hc]. split.
      * intros b i Hbi. rewrite Hb by exact Hbi. unfold s1. cbn [mem].
        apply upd_other_buffer, Hbi.
      * intros l Hl Himg Hor. apply Hc; try assumption.
        destruct Hor as [[->|Hr]|Hs]; [right|left; exact Hr|].
        -- unfold s1. cbn [mem]. rewrite upd_same. unfold staged, peek8.
           rewrite Hin. reflexivity.
        -- destruct (Z.eq_dec (cell l) (cell t)) as [Ec|Ec].
           ++ apply cell_inj in Ec; try assumption. subst l. right.
              unfold s1. cbn [mem]. rewrite upd_same. unfold staged, peek8.
              rewrite Hin. reflexivity.
           ++ right. unfold s1. cbn [mem]. rewrite upd_other_index by exact Ec.
              exact Hs.
    + destruct (IH s Hin) as [Hb Hc]. split; [exact Hb|].
      intros l Hl Himg Hor. apply Hc; try assumption.
      destruct Hor as [[->|Hr]|Hs]; [|left; exact Hr|right; exact Hs].
      exfalso. destruct Himg as [Hx Hy]. cbn [fst snd] in Hx, Hy.
      apply andb_false_iff in E. destruct E as [E|E]; apply Z.ltb_ge in E; lia.
Qed.

(** The stores of one group, entered with the tile staged. *)
Lemma Transpose_store_phase (g : uint2) (locals : list uint2) :
  group_ok g -> Forall in_tile locals ->
  forall s : state,
    (forall l, in_tile l ->
       in_image width height (fst g * 16 + fst l, snd g * 16 + snd l) ->
       mem s block (cell l) = staged g l) ->
    let s' := snd (dispatch (Transpose_store width height block odata tile g) locals s) in
    (forall b i, b <> odata -> mem s' b i = mem s b i) /\
    (forall x y, in_image width height (x, y) ->
       (exists l, In l locals /\ x = fst g * 16 + snd l /\ y = snd g * 16 + fst l)
       \/ placed (mem s) x y ->
       placed (mem s') x y).
Proof.
  intros Hg Hall. induction Hall as [|t rest Ht Hrest IH]; intros s Hst s'.
  - subst s'. rewrite dispatch_nil. split; [reflexivity|].
    intros x y _ [(l & [] & _)|H]. exact H.
  - subst s'. rewrite dispatch_cons. rewrite Transpose_store_eq by assumption.
    cbv zeta.
    destruct ((snd g * 16 + fst t <? height) && (fst g * 16 + snd t <? width)) eqn:E;
      cbn [snd].
    + apply andb_prop in E. destruct E as [EY EX]. apply Z.ltb_lt in EX, EY.
      set (s1 := State _ _).
      assert (Hval : peek8 (mem s) block (cell (snd t, fst t))
                     = peek8 m0 idata ((snd g * 16 + fst t) * width + (fst g * 16 + snd t))).
      { unfold peek8 at 1. rewrite Hst.
        - unfold staged. cbn [fst snd]. apply peek8_u8.
        - destruct Ht as [Hx Hy]. split; cbn [fst snd]; assumption.
        - destruct Hg as [Hgx Hgy]. destruct Ht as [Hx Hy]. unfold BLOCK_DIM in *.
          split; cbn [fst snd]; lia. }
      assert (Hst1 : forall l, in_tile l ->
                in_image width height (fst g * 16 + fst l, snd g * 16 + snd l) ->
                mem s1 block (cell l) = staged g l).
      { intros l Hl Himg. unfold s1. cbn [mem].
        rewrite upd_other_buffer by exact block_odata. apply Hst; assumption. }
      destruct (IH s1 Hst1) as [Hb Hp]. split.
      * intros b i Hbi. rewrite Hb by exact Hbi. unfold s1. cbn [mem].
        apply upd_other_buffer, Hbi.
      * intros x y Himg Hor. apply Hp; [exact Himg|].
        assert (Hnew : placed (mem s1) (fst g * 16 + snd t) (snd g * 16 + fst t)).
        { unfold placed, s1. cbn [mem]. rewrite upd_same. exact Hval. }
        destruct Hor as [(l & [->|Hr] & Hx & Hy)|Hs].
        -- right. subst x y. exact Hnew.
        -- left. exists l. auto.
        -- destruct (Z.eq_dec (x * height + y)
                       ((fst g * 16 + snd t) * height + (snd g * 16 + fst t))) as [Ea|Ea].
           ++ destruct Himg as [Hx Hy]. cbn [fst snd] in Hx, Hy.
              destruct Hg as [Hgx Hgy]. destruct Ht as [Htx Hty]. unfold BLOCK_DIM in *.
              apply offset_inj in Ea; try lia. destruct Ea as [-> ->].
              right. exact Hnew.
           ++ right. unfold placed, s1. cbn [mem].
              rewrite upd_other_index by exact Ea. exact Hs.
    + destruct (IH s Hst) as [Hb Hp]. split; [exact Hb|].
      intros x y Himg Hor. apply Hp; [exact Himg|].
      destruct Hor as [(l & [->|Hr] & Hx & Hy)|Hs]; [|left; exists l; auto|right; exact Hs].
      exfalso. destruct Himg as [Hx' Hy']. cbn [fst snd] in Hx', Hy'.
      apply andb_false_iff in E. destruct E as [E|E]; apply Z.ltb_ge in E; lia.
Qed.

Lemma bind_snd {A B} (c : M A) (k : A -> M B) (s : state) :
  snd (bind c k s) = snd (k (fst (c s)) (snd (c s))).
Proof. unfold bind. destruct (c s) as [a s1]. reflexivity. Qed.

(** One group: loads, barrier, stores. *)
Lemma Transpose_group_step (g : uint2) (locals : list uint2) :
  group_ok g -> Forall in_tile locals -> (forall l, in_tile l -> In l locals) ->
  forall s : state,
    (forall i, mem s idata i = m0 idata i) ->
    let s' := snd (Transpose_group idata width height block odata tile locals g s) in
    (forall i, mem s' idata i = m0 idata i) /\
    (forall x y, in_image width height (x, y) ->
       (x / 16 = fst g /\ y / 16 = snd g) \/ placed (mem s) x y ->
       placed (mem s') x y).
Proof.
  intros Hg Hall Hcov s Hin s'. subst s'. unfold Transpose_group.
  rewrite bind_snd.
  destruct (Transpose_load_phase g locals Hg Hall s Hin) as [Hb1 Hst].
  set (s1 := snd (dispatch _ locals s)) in *.
  assert (Hst1 : forall l, in_tile l ->
            in_image width height (fst g * 16 + fst l, snd g * 16 + snd l) ->
            mem s1 block (cell l) = staged g l).
  { intros l Hl Himg. apply Hst; auto. }
  destruct (Transpose_store_phase g locals Hg Hall s1 Hst1) as [Hb2 Hp].
  split.
  - intros i. rewrite Hb2 by exact idata_odata. rewrite Hb1 by exact idata_block.
    apply Hin.
  - intros x y Himg Hor. apply Hp; [exact Himg|].
    destruct Hor as [[Hx Hy]|Hs].
    + left. exists (y mod 16, x mod 16). cbn [fst snd].
      pose proof (Z.div_mod x 16 ltac:(lia)). pose proof (Z.div_mod y 16 ltac:(lia)).
      pose proof (Z.mod_pos_bound x 16 ltac:(lia)).
      pose proof (Z.mod_pos_bound y 16 ltac:(lia)).
      split; [|lia]. apply Hcov. unfold in_tile, BLOCK_DIM. cbn [fst snd]. lia.
    + right. unfold placed in *.
      assert (Hob : odata <> block) by (intro E; symmetry in E; contradiction).
      rewrite Hb1 by exact Hob.
      exact Hs.
Qed.

(** A grid of groups. *)
Lemma Transpose_grid_steps (locals groups : list uint2) :
  Forall in_tile locals -> (forall l, in_tile l -> In l locals) ->
  Forall group_ok groups ->
  forall s : state,
    (forall i, mem s idata i = m0 idata i) ->
    let s' := snd (Transpose_grid idata width height block odata tile locals groups s) in
    forall x y, in_image width height (x, y) ->
      In (x / 16, y / 16) groups \/ placed (mem s) x y ->
      placed (mem s') x y.
Proof.
  intros Hall Hcov Hgs.
  induction Hgs as [|g rest Hg Hrest IH]; intros s Hin s' x y Himg Hor;
    subst s'; unfold Transpose_grid in *.
  - rewrite dispatch_nil. destruct Hor as [[]|H]. exact H.
  - rewrite dispatch_cons.
    destruct (Transpose_group_step g locals Hg Hall Hcov s Hin) as [Hin1 Hp].
    apply IH; [exact Hin1|exact Himg|].
    destruct Hor as [[Eg|Hr]|Hs]; [right|left; exact Hr|right].
    + apply Hp; [exact Himg|]. left. rewrite Eg. split; reflexivity.
    + apply Hp; [exact Himg|]. right. exact Hs.
Qed.

End TransposeProof.

(** [Transpose] run over thread groups of 16 by 16 that cover the image
    leaves [dst[x][y] = src[y][x]] for every [x < width] and [y < height],
    whether or not [width] and [height] are multiples of 16; [idata] is
    [height] rows of [width] bytes and [odata] is [width] rows of [height]
    bytes.  The sizes are those a 24-bit multiply and a 32-bit offset can
    address; the threads of a group and the groups may come in any order. *)
Theorem Transpose_transposes (idata block odata : buffer) (width height : Z)
    (locals groups : list uint2) (m : memory) (x y : Z) :
  idata <> block -> idata <> odata -> block <> odata ->
  0 <= width < 2 ^ 23 -> 0 <= height < 2 ^ 23 -> width * height < 2 ^ 31 ->
  Forall in_tile locals -> (forall l, in_tile l -> In l locals) ->
  Forall group_ok groups ->
  (forall g, in_image width height (fst g * 16, snd g * 16) -> In g groups) ->
  0 <= x < width -> 0 <= y < height ->
  mem (run (Transpose_grid idata width height block odata (BLOCK_DIM, BLOCK_DIM)
              locals groups) m) odata (x * height + y)
  = peek8 m idata (y * width + x).
Proof.
  intros H1 H2 H3 Hw Hh Hsz Hall Hcov Hgs Hgcov Hx Hy. unfold run.
  apply (Transpose_grid_steps idata block odata width height m H1 H2 H3 Hw Hh Hsz
           locals groups Hall Hcov Hgs (State m []) (fun i => eq_refl) x y).
  - split; cbn [fst snd]; assumption.
  - left. apply Hgcov. cbn [fst snd].
    pose proof (Z.div_mod x 16 ltac:(lia)). pose proof (Z.div_mod y 16 ltac:(lia)).
    pose proof (Z.mod_pos_bound x 16 ltac:(lia)).
    pose proof (Z.mod_pos_bound y 16 ltac:(lia)).
    split; cbn [fst snd]; lia.
Qed.

Lemma Transpose_transposes_witness :
  let m := mem_of [(slot0, [1; 2; 3; 4; 5; 6])] in
  let locals := grid 16 16 in
  let groups := [(0, 0)] in
  (slot0 <> slot1 /\ slot0 <> slot2 /\ slot1 <> slot2 /\
   0 <= 3 < 2 ^ 23 /\ 0 <= 2 < 2 ^ 23 /\ 3 * 2 < 2 ^ 31 /\
   Forall in_tile locals /\ (forall l, in_tile l -> In l locals) /\
   Forall group_ok groups /\
   (forall g, in_image 3 2 (fst g * 16, snd g * 16) -> In g groups) /\
   0 <= 2 < 3 /\ 0 <= 1 < 2) /\
  mem (run (Transpose_grid slot0 3 2 slot1 slot2 (BLOCK_DIM, BLOCK_DIM) locals groups) m)
    slot2 (2 * 2 + 1) = 6.
Proof.
  assert (H1 : slot0 <> slot1) by discriminate.
  assert (H2 : slot0 <> slot2) by discriminate.
  assert (H3 : slot1 <> slot2) by discriminate.
  assert (H4 : 0 <= 3 < 2 ^ 23) by lia.
  assert (H5 : 0 <= 2 < 2 ^ 23) by lia.
  assert (H6 : 3 * 2 < 2 ^ 31) by lia.
  assert (H7 : Forall in_tile (grid 16 16)).
  { apply Forall_forall. intros l Hl. apply grid_spec in Hl. exact Hl. }
  assert (H8 : forall l, in_tile l -> In l (grid 16 16)).
  { intros l Hl. apply grid_spec. exact Hl. }
  assert (H9 : Forall group_ok [(0, 0)]).
  { constructor; [|constructor]. unfold group_ok. cbn [fst snd]. lia. }
  assert (H10 : forall g, in_image 3 2 (fst g * 16, snd g * 16) -> In g [(0, 0)]).
  { intros [gx gy] [Hx Hy]. cbn [fst snd] in Hx, Hy. left. f_equal; lia. }
  assert (H11 : 0 <= 2 < 3) by lia.
  assert (H12 : 0 <= 1 < 2) by lia.
  split; [repeat split; assumption || lia|].
  exact (Transpose_transposes slot0 slot1 slot2 3 2 (grid 16 16) [(0, 0)]
           (mem_of [(slot0, [1; 2; 3; 4; 5; 6])]) 2 1
           H1 H2 H3 H4 H5 H6 H7 H8 H9 H10 H11 H12).
Defined.

(** ** Copies and fills by [uchar4] *)

Lemma vstore4_eq (p : buffer) (i : Z) (v : vec4 Z) (s : state) :
  vstore4 p i v s =
    (tt, State (upd (upd (upd (upd (mem s) p (4 * i) (Int.u8 (vx v)))
                              p (4 * i + 1) (Int.u8 (vy v)))
                         p (4 * i + 2) (Int.u8 (vz v)))
                    p (4 * i + 3) (Int.u8 (vw v)))
           (Store p (4 * i + 3) (Int.u8 (vw v)) :: Store p (4 * i + 2) (Int.u8 (vz v))
            :: Store p (4 * i + 1) (Int.u8 (vy v)) :: Store p (4 * i) (Int.u8 (vx v))
            :: log s)).
Proof. reflexivity. Qed.

Lemma vload4_eq (offset : Z) (p : buffer) (s : state) :
  vload4 offset p s =
    (V4 (peek8 (mem s) p (4 * offset)) (peek8 (mem s) p (4 * offset + 1))
        (peek8 (mem s) p (4 * offset + 2)) (peek8 (mem s) p (4 * offset + 3)),
     State (mem s)
       (Load p (4 * offset + 3) :: Load p (4 * offset + 2)
        :: Load p (4 * offset + 1) :: Load p (4 * offset) :: log s)).
Proof. reflexivity. Qed.

(** The memory after a store of four bytes at cell [i]. *)
Lemma upd4_other_buffer (m : memory) (p b : buffer) (i a v0 v1 v2 v3 : Z) :
  b <> p ->
  upd (upd (upd (upd m p (4 * i) v0) p (4 * i + 1) v1) p (4 * i + 2) v2)
      p (4 * i + 3) v3 b a = m b a.
Proof. intros H. rewrite !upd_other_buffer by exact H. reflexivity. Qed.

Lemma upd4_outside (m : memory) (p : buffer) (i a v0 v1 v2 v3 : Z) :
  ~ (4 * i <= a < 4 * i + 4) ->
  upd (upd (upd (upd m p (4 * i) v0) p (4 * i + 1) v1) p (4 * i + 2) v2)
      p (4 * i + 3) v3 p a = m p a.
Proof. intros H. rewrite !upd_other_index by lia. reflexivity. Qed.

Lemma upd4_inside (m : memory) (p : buffer) (i a : Z) (v : Z -> Z) :
  4 * i <= a < 4 * i + 4 ->
  upd (upd (upd (upd m p (4 * i) (v (4 * i))) p (4 * i + 1) (v (4 * i + 1)))
           p (4 * i + 2) (v (4 * i + 2)))
      p (4 * i + 3) (v (4 * i + 3)) p a = v a.
Proof.
  intros H.
  assert (D : a = 4 * i \/ a = 4 * i + 1 \/ a = 4 * i + 2 \/ a = 4 * i + 3) by lia.
  destruct D as [ -> | [ -> | [ -> | -> ] ] ].
  - rewrite !upd_other_index by lia. apply upd_same.
  - rewrite !upd_other_index by lia. apply upd_same.
  - rewrite upd_other_index by lia. apply upd_same.
  - apply upd_same.
Qed.

(** [copy_uchar4]: cells [i] to [i + n - 1] of [dst] receive the cells of
    [src] that lie [base - lo] further on. *)
Lemma copy_uchar4_spec (src dst : buffer) (base lo : Z) (n : nat) :
  src <> dst ->
  forall (i : Z) (s : state),
    - 2 ^ 31 <= base + i - lo -> base + i - lo + Z.of_nat n <= 2 ^ 31 ->
    let s' := snd (copy_uchar4 n src dst base lo i s) in
    (forall b a, b <> dst -> mem s' b a = mem s b a) /\
    (forall a, ~ (4 * i <= a < 4 * (i + Z.of_nat n)) -> mem s' dst a = mem s dst a) /\
    (forall a, 4 * i <= a < 4 * (i + Z.of_nat n) ->
               mem s' dst a = peek8 (mem s) src (a + 4 * (base - lo))).
Proof.
  intros Hsd. induction n as [|n IH]; intros i s Hlo Hhi s'; subst s'.
  - cbn [copy_uchar4 ret snd]. repeat split; auto. intros a Ha. lia.
  - cbn [copy_uchar4]. rewrite bind_snd, vload4_eq. cbn [fst snd].
    rewrite bind_snd, vstore4_eq. cbn [fst snd vx vy vz vw mem log].
    rewrite s32_small by lia. rewrite !peek8_u8.
    set (o := base + i - lo).
    set (s1 := State _ _).
    assert (Hsrc : forall a, mem s1 src a = mem s src a).
    { intros a. unfold s1. cbn [mem]. apply upd4_other_buffer. exact Hsd. }
    destruct (IH (i + 1) s1 ltac:(lia) ltac:(lia)) as (Hb & Ho & Hc).
    split; [|split].
    + intros b a Hba. rewrite Hb by exact Hba. unfold s1. cbn [mem].
      apply upd4_other_buffer. exact Hba.
    + intros a Ha. rewrite Ho by lia. unfold s1. cbn [mem]. apply upd4_outside. lia.
    + intros a Ha. destruct (Z_lt_dec a (4 * (i + 1))) as [Hlt|Hge].
      * rewrite Ho by lia. unfold s1. cbn [mem].
        replace (4 * o) with (4 * i + 4 * (base - lo)) by (unfold o; lia).
        replace (4 * i + 4 * (base - lo) + 1) with (4 * i + 1 + 4 * (base - lo)) by lia.
        replace (4 * i + 4 * (base - lo) + 2) with (4 * i + 2 + 4 * (base - lo)) by lia.
        replace (4 * i + 4 * (base - lo) + 3) with (4 * i + 3 + 4 * (base - lo)) by lia.
        apply (upd4_inside (mem s) dst i a
                 (fun a => peek8 (mem s) src (a + 4 * (base - lo)))). lia.
      * rewrite Hc by lia. unfold peek8. rewrite Hsrc. reflexivity.
Qed.

Lemma zero_uchar4_spec (dst : buffer) (n : nat) :
  forall (i : Z) (s : state),
    let s' := snd (zero_uchar4 n dst i s) in
    (forall b a, b <> dst -> mem s' b a = mem s b a) /\
    (forall a, ~ (4 * i <= a < 4 * (i + Z.of_nat n)) -> mem s' dst a = mem s dst a) /\
    (forall a, 4 * i <= a < 4 * (i + Z.of_nat n) -> mem s' dst a = 0).
Proof.
  induction n as [|n IH]; intros i s s'; subst s'.
  - cbn [zero_uchar4 ret snd]. repeat split; auto. intros a Ha. lia.
  - cbn [zero_uchar4]. rewrite bind_snd, vstore4_eq. cbn [fst snd splat vx vy vz vw].
    set (s1 := State _ _).
    destruct (IH (i + 1) s1) as (Hb & Ho & Hc).
    split; [|split].
    + intros b a Hba. rewrite Hb by exact Hba. unfold s1. cbn [mem].
      apply upd4_other_buffer. exact Hba.
    + intros a Ha. rewrite Ho by lia. unfold s1. cbn [mem]. apply upd4_outside. lia.
    + intros a Ha. destruct (Z_lt_dec a (4 * (i + 1))) as [Hlt|Hge].
      * rewrite Ho by lia. unfold s1. cbn [mem].
        apply (upd4_inside (mem s) dst i a (fun _ => Int.u8 0)). lia.
      * apply Hc. lia.
Qed.

(** ** Padding (C7) *)

Ltac Zify.zify_post_hook ::= Z.to_euclidean_division_equations.

(** Removes the [Int.s32] around values that are in range, innermost first. *)
Ltac strip_s32 tac :=
  repeat match goal with
         | |- context [Int.s32 ?z] =>
             lazymatch z with
             | context [Int.s32 _] => fail
             | _ => rewrite (s32_small z) by tac
             end
         end.

Lemma shiftr_2 (z : Z) : Z.shiftr z 2 = z / 4.
Proof. rewrite Z.shiftr_div_pow2 by lia. reflexivity. Qed.

Section PaddingProof.

Variables (src padded out : buffer) (w h pw ph k : Z).
Hypothesis width_by_4 : w = 4 * k.
Hypothesis k_nonneg : 0 <= k.
Hypothesis width_le : w <= pw.
Hypothesis height_le : 0 <= h <= ph.
Hypothesis height_range : ph < 2 ^ 30.
Hypothesis size_range : pw * ph < 2 ^ 31.

Let Yh := luma_rows h.
Let Yp := padding_rows h ph.
Let lo := row_cell pw.
Let prow := padded_row h ph.

Lemma padding_rows_range : 0 <= Yh <= h /\ 0 <= Yp <= ph - h.
Proof. unfold Yh, Yp, luma_rows, padding_rows. lia. Qed.

Lemma prow_range (r : Z) : 0 <= r < h -> 0 <= prow r < ph.
Proof.
  intros Hr. pose proof padding_rows_range. unfold prow, padded_row. fold Yh Yp.
  destruct (Z.geb_spec r Yh); lia.
Qed.

Lemma prow_inj (r r' : Z) : prow r = prow r' -> r = r'.
Proof.
  pose proof padding_rows_range. unfold prow, padded_row. fold Yh Yp.
  destruct (Z.geb_spec r Yh), (Z.geb_spec r' Yh); lia.
Qed.

Lemma lo_next (r : Z) : 0 <= r -> lo r + k <= lo (r + 1).
Proof.
  intros Hr. unfold lo, row_cell. rewrite !shiftr_2.
  replace ((r + 1) * pw) with (r * pw + pw) by lia. lia.
Qed.

Lemma lo_mono (r r' : Z) : 0 <= r <= r' -> lo r <= lo r'.
Proof.
  intros Hr. unfold lo, row_cell. rewrite !shiftr_2.
  assert (r * pw <= r' * pw) by nia. lia.
Qed.

Lemma lo_range (r : Z) : 0 <= r < ph -> 0 <= lo r /\ 4 * lo (r + 1) <= pw * ph.
Proof.
  intros Hr. unfold lo, row_cell. rewrite !shiftr_2.
  assert (0 <= r * pw) by nia. assert ((r + 1) * pw <= pw * ph) by nia. lia.
Qed.

Lemma NV12_Remove_Padding_row (t : uint2) (s : state) :
  padded <> out -> 0 <= fst t < h ->
  let id := fst t in
  let s' := snd (NV12_Remove_Padding padded pw ph out w h t s) in
  (forall b a, b <> out -> mem s' b a = mem s b a) /\
  (forall a, ~ (4 * (id * k) <= a < 4 * ((id + 1) * k)) -> mem s' out a = mem s out a) /\
  (forall a, 4 * (id * k) <= a < 4 * ((id + 1) * k) ->
             mem s' out a = peek8 (mem s) padded (a + 4 * (lo (prow id) - id * k))).
Proof.
  intros Hpo Hid id s'. subst s'. fold id in Hid.
  pose proof padding_rows_range as Hrng. pose proof (prow_range id Hid) as Hprow.
  pose proof (lo_range (prow id) Hprow) as Hlo.
  assert (Hidw : 0 <= id * w /\ id * w + w <= pw * ph) by nia.
  assert (Hpp : 0 <= prow id * pw <= pw * ph) by nia.
  unfold NV12_Remove_Padding, Int.div, Int.shr. fold id.
  strip_s32 ltac:(lia).
  destruct (Z.gtb_spec id (h - 1)) as [Hgt|_]; [lia|].
  assert (Hrow : (if id >? Z.quot (h * 2) 3 - 1 then id + Z.quot ((ph - h) * 2) 3 else id)
                 = prow id).
  { unfold prow, padded_row, luma_rows, padding_rows.
    destruct (Z.gtb_spec id (Z.quot (h * 2) 3 - 1)), (Z.geb_spec id (Z.quot (h * 2) 3)); lia. }
  rewrite Hrow. strip_s32 ltac:(lia).
  rewrite !shiftr_2.
  replace (id * w / 4) with (id * k) by lia.
  replace ((id * w + w) / 4 - id * k) with k by lia.
  fold (Z.shiftr (prow id * pw) 2) in *. rewrite <- shiftr_2. fold (row_cell pw (prow id)).
  fold lo.
  destruct (copy_uchar4_spec padded out (lo (prow id)) (id * k) (Z.to_nat k) Hpo (id * k) s)
    as (Hb & Ho & Hc).
  { lia. }
  { pose proof (lo_next (prow id) ltac:(lia)). lia. }
  rewrite Z2Nat.id in Ho, Hc by lia.
  split; [exact Hb|]. split.
  - intros a Ha. apply Ho. lia.
  - intros a Ha. apply Hc. lia.
Qed.

Lemma NV12_Add_Padding_row (t : uint2) (s : state) :
  src <> padded -> 0 <= fst t < ph ->
  let id := fst t in
  let s' := snd (NV12_Add_Padding src w h padded pw ph t s) in
  (forall b a, b <> padded -> mem s' b a = mem s b a) /\
  (forall a, ~ (4 * lo id <= a < 4 * lo (id + 1)) -> mem s' padded a = mem s padded a) /\
  (forall r, 0 <= r < h -> id = prow r ->
     forall a, 4 * lo id <= a < 4 * (lo id + k) ->
               mem s' padded a = peek8 (mem s) src (a + 4 * (r * k - lo id))).
Proof.
  intros Hsp Hid id s'. subst s'. fold id in Hid.
  pose proof padding_rows_range as Hrng.
  pose proof (lo_range id Hid) as Hlo. pose proof (lo_next id ltac:(lia)) as Hnext.
  assert (Hidw : 0 <= id * pw /\ id * pw + pw <= pw * ph) by nia.
  unfold NV12_Add_Padding, Int.div, Int.shr. fold id.
  strip_s32 ltac:(lia).
  fold (luma_rows h) (padding_rows h ph). fold Yh Yp.
  strip_s32 ltac:(lia).
  destruct (Z.gtb_spec id (ph - 1)) as [Hgt|_]; [lia|].
  replace (id * pw + pw) with ((id + 1) * pw) by lia.
  fold (row_cell pw id) (row_cell pw (id + 1)). fold lo.
  destruct ((id >=? Yh) && (id <? Yh + Yp) || (id >? h + Yp - 1)) eqn:Ezero.
  - (* a row of zeros *)
    destruct (zero_uchar4_spec padded (Z.to_nat (lo (id + 1) - lo id)) (lo id) s)
      as (Hb & Ho & Hc).
    rewrite Z2Nat.id in Ho, Hc by lia.
    split; [exact Hb|]. split.
    + intros a Ha. apply Ho. lia.
    + intros r Hr Hpr a Ha. exfalso.
      unfold prow, padded_row in Hpr. fold Yh Yp in Hpr.
      apply orb_prop in Ezero. destruct Ezero as [E|E].
      * apply andb_prop in E. destruct E as [E1 E2].
        apply Z.geb_le in E1. apply Z.ltb_lt in E2.
        destruct (Z.geb_spec r Yh); lia.
      * apply Z.gtb_lt in E. destruct (Z.geb_spec r Yh); lia.
  - (* a row of data *)
    apply orb_false_elim in Ezero. destruct Ezero as [E1 E2].
    rewrite Z.gtb_ltb in E2. apply Z.ltb_ge in E2.
    set (id' := if id >=? Yh + Yp then id - Yp else id).
    assert (Hid' : 0 <= id' < h).
    { unfold id'. destruct (Z.geb_spec id (Yh + Yp)); [lia|].
      apply andb_false_iff in E1. destruct E1 as [E1|E1];
        [rewrite Z.geb_leb in E1; apply Z.leb_gt in E1|apply Z.ltb_ge in E1]; lia. }
    assert (Hidk : 0 <= id' * w /\ id' * w + w <= pw * ph) by nia.
    strip_s32 ltac:(lia).
    rewrite (shiftr_2 (id' * w)), (shiftr_2 (id * pw + w)).
    replace (id' * w / 4) with (id' * k) by lia.
    replace ((id * pw + w) / 4) with (lo id + k)
      by (unfold lo, row_cell; rewrite shiftr_2; lia).
    replace (lo id + k - lo id) with k by lia.
    rewrite bind_snd.
    destruct (copy_uchar4_spec src padded (id' * k) (lo id) (Z.to_nat k) Hsp (lo id) s)
      as (Hb & Ho & Hc).
    { lia. }
    { rewrite Z2Nat.id by lia. nia. }
    rewrite Z2Nat.id in Ho, Hc by lia.
    set (s1 := snd (copy_uchar4 (Z.to_nat k) src padded (id' * k) (lo id) (lo id) s)) in *.
    assert (Hdata : forall r, 0 <= r < h -> id = prow r -> id' = r).
    { intros r Hr Hpr. unfold id'. unfold prow, padded_row in Hpr. fold Yh Yp in Hpr.
      destruct (Z.geb_spec id (Yh + Yp)), (Z.geb_spec r Yh); lia. }
    destruct (Z.gtb_spec pw w) as [Hwide|Hsame].
    + destruct (zero_uchar4_spec padded (Z.to_nat (lo (id + 1) - (lo id + k))) (lo id + k) s1)
        as (Hb' & Ho' & Hc').
      rewrite Z2Nat.id in Ho', Hc' by lia.
      split; [|split].
      * intros b a Hba. rewrite Hb' by exact Hba. apply Hb, Hba.
      * intros a Ha. rewrite Ho' by lia. apply Ho. lia.
      * intros r Hr Hpr a Ha. rewrite Ho' by lia. rewrite Hc by lia.
        rewrite (Hdata r Hr Hpr). reflexivity.
    + cbn [ret snd]. split; [exact Hb|]. split.
      * intros a Ha. apply Ho. lia.
      * intros r Hr Hpr a Ha. rewrite Hc by lia.
        rewrite (Hdata r Hr Hpr). reflexivity.
Qed.

Variable m0 : memory.

(** Row [r] of the tight buffer is in place in the padded one. *)
Let added (m : memory) (r : Z) : Prop :=
  forall a, 4 * lo (prow r) <= a < 4 * (lo (prow r) + k) ->
            m padded a = peek8 m0 src (a + 4 * (r * k - lo (prow r))).

Lemma NV12_Add_Padding_rows (adds : list uint2) :
  src <> padded -> Forall (fun t => 0 <= fst t < ph) adds ->
  forall s : state,
    (forall a, mem s src a = m0 src a) ->
    let s' := snd (dispatch (NV12_Add_Padding src w h padded pw ph) adds s) in
    forall r, 0 <= r < h ->
      (exists t, In t adds /\ fst t = prow r) \/ added (mem s) r ->
      added (mem s') r.
Proof.
  intros Hsp Hall. induction Hall as [|t rest Ht Hrest IH]; intros s Hsrc s' r Hr Hor;
    subst s'.
  - rewrite dispatch_nil. destruct Hor as [(t & [] & _)|H]. exact H.
  - rewrite dispatch_cons.
    destruct (NV12_Add_Padding_row t s Hsp Ht) as (Hb & Ho & Hc).
    set (s1 := snd (NV12_Add_Padding src w h padded pw ph t s)) in *.
    apply IH; [intros a; rewrite Hb by exact Hsp; apply Hsrc|exact Hr|].
    destruct (Z.eq_dec (fst t) (prow r)) as [E|E].
    + right. intros a Ha. rewrite <- E in Ha. rewrite (Hc r Hr E a Ha).
      unfold peek8. rewrite Hsrc, E. reflexivity.
    + destruct Hor as [(t' & [->|Hin] & Ht')|Hs]; [contradiction|left; exists t'; auto|].
      right. intros a Ha. rewrite Ho; [apply Hs, Ha|].
      pose proof (prow_range r Hr) as Hp.
      pose proof (lo_next (prow r) ltac:(lia)) as Hn.
      assert (D : fst t + 1 <= prow r \/ prow r + 1 <= fst t) by lia.
      destruct D as [D|D].
      * pose proof (lo_mono (fst t + 1) (prow r) ltac:(lia)). lia.
      * pose proof (lo_mono (prow r + 1) (fst t) ltac:(lia)). lia.
Qed.

Variable m1 : memory.

(** Row [id] of the output holds what the padded buffer has for it. *)
Let removed (m : memory) (id : Z) : Prop :=
  forall a, 4 * (id * k) <= a < 4 * ((id + 1) * k) ->
            m out a = peek8 m1 padded (a + 4 * (lo (prow id) - id * k)).

Lemma NV12_Remove_Padding_rows (removes : list uint2) :
  padded <> out -> Forall (fun t => 0 <= fst t < h) removes ->
  forall s : state,
    (forall a, mem s padded a = m1 padded a) ->
    let s' := snd (dispatch (NV12_Remove_Padding padded pw ph out w h) removes s) in
    forall id, 0 <= id < h ->
      (exists t, In t removes /\ fst t = id) \/ removed (mem s) id ->
      removed (mem s') id.
Proof.
  intros Hpo Hall. induction Hall as [|t rest Ht Hrest IH]; intros s Hpad s' id Hid Hor;
    subst s'.
  - rewrite dispatch_nil. destruct Hor as [(t & [] & _)|H]. exact H.
  - rewrite dispatch_cons.
    destruct (NV12_Remove_Padding_row t s Hpo Ht) as (Hb & Ho & Hc).
    set (s1 := snd (NV12_Remove_Padding padded pw ph out w h t s)) in *.
    apply IH; [intros a; rewrite Hb by exact Hpo; apply Hpad|exact Hid|].
    destruct (Z.eq_dec (fst t) id) as [E|E].
    + right. intros a Ha. rewrite <- E in Ha. rewrite (Hc a Ha).
      unfold peek8. rewrite Hpad, E. reflexivity.
    + destruct Hor as [(t' & [->|Hin] & Ht')|Hs]; [contradiction|left; exists t'; auto|].
      right. intros a Ha. rewrite Ho; [apply Hs, Ha|].
      assert (D : fst t + 1 <= id \/ id + 1 <= fst t) by lia.
      destruct D as [D|D]; nia.
Qed.

End PaddingProof.

(** For an NV12 buffer of [h] rows of [w] bytes, [w] a multiple of 4,
    [NV12_Add_Padding] to [oheight] rows of [owidth] bytes followed by
    [NV12_Remove_Padding] back to [w] by [h] gives every byte of the buffer
    back.  The padded geometry is not smaller than the original and fits a
    32-bit offset; each kernel runs once or more for every row of its
    destination, in any order. *)
Theorem NV12_padding_round_trip (src padded out : buffer)
    (width height owidth oheight : Z) (adds removes : list uint2) (m : memory) (a : Z) :
  src <> padded -> padded <> out ->
  width mod 4 = 0 ->
  0 <= width <= owidth -> 0 <= height <= oheight ->
  oheight < 2 ^ 30 -> owidth * oheight < 2 ^ 31 ->
  Forall (fun t => 0 <= fst t < oheight) adds ->
  (forall r, 0 <= r < oheight -> exists t, In t adds /\ fst t = r) ->
  Forall (fun t => 0 <= fst t < height) removes ->
  (forall r, 0 <= r < height -> exists t, In t removes /\ fst t = r) ->
  0 <= a < width * height ->
  let s1 := run (dispatch (NV12_Add_Padding src width height padded owidth oheight) adds) m in
  let s2 := run (dispatch (NV12_Remove_Padding padded owidth oheight out width height)
                   removes) (mem s1) in
  mem s2 out a = peek8 m src a.
Proof.
  intros Hsp Hpo Hw4 Hw Hh Hph Hsz Hadds Hacov Hrems Hrcov Ha s1 s2.
  set (k := width / 4).
  assert (Hk : width = 4 * k) by (unfold k; lia).
  assert (Hk0 : 0 <= k) by lia.
  assert (Hkpos : 0 < k) by nia.
  set (id := a / width).
  assert (Hid : 0 <= id < height).
  { unfold id. split; [apply Z.div_pos; lia|apply Z.div_lt_upper_bound; nia]. }
  assert (Hcell : 4 * (id * k) <= a < 4 * ((id + 1) * k)).
  { unfold id. pose proof (Z.div_mod a width ltac:(lia)).
    pose proof (Z.mod_pos_bound a width ltac:(lia)). nia. }
  pose proof (prow_range height owidth oheight Hh id Hid) as Hprow.
  pose proof (NV12_Remove_Padding_rows src padded out width height owidth oheight k
                Hk Hk0 (proj2 Hw) Hh Hph Hsz m (mem s1) removes Hpo Hrems
                (State (mem s1) []) (fun _ => eq_refl) id Hid
                (or_introl (Hrcov id Hid)) a Hcell) as Hrem.
  pose proof (NV12_Add_Padding_rows src padded width height owidth oheight k
                Hk Hk0 (proj2 Hw) Hh Hph Hsz m adds Hsp Hadds
                (State m []) (fun _ => eq_refl) id Hid
                (or_introl (Hacov _ Hprow))) as Hadd.
  unfold s2, run. rewrite Hrem. unfold peek8 at 1.
  unfold s1, run. rewrite Hadd.
  - rewrite peek8_u8. f_equal. lia.
  - lia.
Qed.

(** ** Small integers are exact in single precision *)

(** The hook for division is not wanted below. *)
Ltac Zify.zify_post_hook ::= idtac.

Lemma digits2_pos_bounds (x : positive) :
  2 ^ (Zpos (digits2_pos x) - 1) <= Zpos x < 2 ^ Zpos (digits2_pos x).
Proof.
  induction x as [x IH|x IH|]; cbn [digits2_pos].
  - rewrite Pos2Z.inj_succ. replace (Z.succ (Zpos (digits2_pos x)) - 1)
      with (Z.succ (Zpos (digits2_pos x) - 1)) by lia.
    rewrite !Z.pow_succ_r by lia. lia.
  - rewrite Pos2Z.inj_succ. replace (Z.succ (Zpos (digits2_pos x)) - 1)
      with (Z.succ (Zpos (digits2_pos x) - 1)) by lia.
    rewrite !Z.pow_succ_r by lia. lia.
  - cbn. lia.
Qed.

Lemma digits2_pos_small (x : positive) : Zpos x < 2 ^ 24 -> Zpos (digits2_pos x) <= 24.
Proof.
  intros H. pose proof (digits2_pos_bounds x) as [Hlo _].
  destruct (Z_le_gt_dec (Zpos (digits2_pos x)) 24) as [Hle|Hgt]; [exact Hle|].
  exfalso. assert (2 ^ 24 <= 2 ^ (Zpos (digits2_pos x) - 1))
    by (apply Z.pow_le_mono_r; lia). lia.
Qed.

Lemma digits2_pos_iter_xO (x n : positive) :
  digits2_pos (Pos.iter xO x n) = (digits2_pos x + n)%positive.
Proof.
  rewrite (Pos.iter_swap_gen _ _ digits2_pos xO Pos.succ) by reflexivity.
  induction n as [|n IH] using Pos.peano_ind.
  - cbn. rewrite Pos.add_1_r. reflexivity.
  - rewrite Pos.iter_succ, IH, Pos.add_succ_r. reflexivity.
Qed.

Lemma Zpos_iter_xO (x n : positive) :
  Zpos (Pos.iter xO x n) = Zpos x * 2 ^ Zpos n.
Proof.
  rewrite (Pos.iter_swap_gen _ _ Zpos xO (Z.mul 2)) by reflexivity.
  rewrite <- Z.shiftl_mul_pow2 by lia. reflexivity.
Qed.

(** A mantissa of 24 digits with an exponent in range is left as it is by
    the rounding of [SpecFloat]. *)
Lemma binary_round_aux_canonical (m : positive) (e : Z) :
  digits2_pos m = 24%positive -> - 149 <= e <= 104 ->
  binary_round_aux F32.prec F32.emax false (Zpos m) e loc_Exact = S754_finite false m e.
Proof.
  intros Hd He. unfold binary_round_aux.
  assert (Hs : shr_fexp F32.prec F32.emax (Zpos m) e loc_Exact
               = (Build_shr_record (Zpos m) false false, e)).
  { unfold shr_fexp, fexp, emin, F32.prec, F32.emax. cbn [Zdigits2]. rewrite Hd.
    replace (Z.max (24 + e - 24) (3 - 128 - 24) - e) with 0 by lia. reflexivity. }
  rewrite Hs. cbn [shr_m loc_of_shr_record round_nearest_even]. rewrite Hs.
  cbn [shr_m]. unfold F32.prec, F32.emax.
  destruct (Z.leb_spec e (128 - 24)); [reflexivity|lia].
Qed.

(** The float of a positive integer below 2^24: the integer itself, shifted
    to a mantissa of 24 digits. *)
Lemma of_Z_pos (x : positive) :
  Zpos x < 2 ^ 24 ->
  exists (m : positive) (e : Z),
    F32.of_Z (Zpos x) = S754_finite false m e /\
    digits2_pos m = 24%positive /\ - 23 <= e <= 0 /\ Zpos m = Zpos x * 2 ^ (- e).
Proof.
  intros Hx. pose proof (digits2_pos_small x Hx) as Hd.
  pose proof (Pos2Z.is_pos (digits2_pos x)) as Hd0.
  unfold F32.of_Z, binary_normalize, binary_round, shl_align, fexp, emin,
    F32.prec, F32.emax.
  replace (Z.max (Zpos (digits2_pos x) + 0 - 24) (3 - 128 - 24) - 0)
    with (Zpos (digits2_pos x) - 24) by lia.
  replace (Z.max (Zpos (digits2_pos x) + 0 - 24) (3 - 128 - 24))
    with (Zpos (digits2_pos x) - 24) by lia.
  destruct (Zpos (digits2_pos x) - 24) as [|p|p] eqn:E.
  - exists x, 0. split; [|split; [|split]].
    + apply binary_round_aux_canonical; [|lia]. apply Pos2Z.inj. lia.
    + apply Pos2Z.inj. lia.
    + lia.
    + cbn. lia.
  - lia.
  - exists (Pos.iter xO x p), (Zneg p).
    assert (Hdig : digits2_pos (Pos.iter xO x p) = 24%positive).
    { rewrite digits2_pos_iter_xO. apply Pos2Z.inj. rewrite Pos2Z.inj_add. lia. }
    split; [|split; [|split]].
    + apply binary_round_aux_canonical; [exact Hdig|lia].
    + exact Hdig.
    + lia.
    + rewrite Zpos_iter_xO. reflexivity.
Qed.

(** Multiplying such a float by 1.0 gives it back. *)
Lemma mul_one_canonical (m : positive) (e : Z) :
  digits2_pos m = 24%positive -> - 126 <= e <= 104 ->
  F32.mul (S754_finite false m e) F32.one = S754_finite false m e.
Proof.
  intros Hd He. unfold F32.mul, F32.one, SFmul. cbn [xorb].
  rewrite Pos.mul_comm. cbn [Pos.mul].
  unfold binary_round_aux.
  assert (Hs1 : shr_fexp F32.prec F32.emax
                  (Zpos m~0~0~0~0~0~0~0~0~0~0~0~0~0~0~0~0~0~0~0~0~0~0~0) (e + -23) loc_Exact
                = (Build_shr_record (Zpos m) false false, e)).
  { unfold shr_fexp, fexp, emin, F32.prec, F32.emax. cbn [Zdigits2 digits2_pos].
    rewrite Hd. cbn [Pos.succ].
    replace (Z.max (47 + (e + -23) - 24) (3 - 128 - 24) - (e + -23)) with 23 by lia.
    cbn [shr shr_record_of_loc iter_pos shr_1 orb]. f_equal. lia. }
  rewrite Hs1. cbn [shr_m loc_of_shr_record round_nearest_even].
  assert (Hs2 : shr_fexp F32.prec F32.emax (Zpos m) e loc_Exact
                = (Build_shr_record (Zpos m) false false, e)).
  { unfold shr_fexp, fexp, emin, F32.prec, F32.emax. cbn [Zdigits2]. rewrite Hd.
    replace (Z.max (24 + e - 24) (3 - 128 - 24) - e) with 0 by lia. reflexivity. }
  rewrite Hs2. cbn [shr_m]. unfold F32.prec, F32.emax.
  destruct (Z.leb_spec e (128 - 24)); [reflexivity|lia].
Qed.

(** Integers below 2^24 go to [float] and back unchanged, and the source
    coordinate [0 + x * 1.0] of the format converters is [x]. *)
Lemma to_int_of_Z (x : Z) : 0 <= x < 2 ^ 24 -> F32.to_int (F32.of_Z x) = x.
Proof.
  intros Hx. destruct x as [|x|x]; [reflexivity| |lia].
  destruct (of_Z_pos x ltac:(lia)) as (m & e & -> & Hd & He & Hm).
  unfold F32.to_int, F32.to_range, F32.trunc, F32.clampZ.
  assert (Hsh : Z.shiftl (Zpos m) e = Zpos x).
  { destruct e as [|p|p]; [cbn in *; lia|lia|].
    change (Z.shiftl (Zpos m) (Zneg p)) with (Z.shiftr (Zpos m) (Zpos p)).
    rewrite Z.shiftr_div_pow2 by lia. rewrite Hm. cbn [Z.opp].
    apply Z.div_mul. apply Z.pow_nonzero; lia. }
  rewrite Hsh. lia.
Qed.

Lemma src_coordinate_identity (x : Z) :
  0 <= x < 2 ^ 24 -> F32.to_int (src_coordinate 0 x F32.one) = x.
Proof.
  intros Hx. unfold src_coordinate. change (F32.of_Z 0) with F32.zero.
  destruct x as [|x|x]; [reflexivity| |lia].
  rewrite <- (to_int_of_Z (Zpos x) Hx) at 2.
  destruct (of_Z_pos x ltac:(lia)) as (m & e & -> & Hd & He & Hm).
  rewrite mul_one_canonical by (assumption || lia). reflexivity.
Qed.

(** ** Conversion between NV12 and I420 (C6) *)

Ltac Zify.zify_post_hook ::= Z.to_euclidean_division_equations.

Lemma land_fffffffe (x : Z) : 0 <= x < 2 ^ 31 -> Z.land x 4294967294 = 2 * (x / 2).
Proof.
  intros Hx. apply Z.bits_inj'. intros n Hn.
  rewrite Z.land_spec.
  change 4294967294 with (Z.shiftl (Z.ones 31) 1).
  replace (2 * (x / 2)) with (Z.shiftl (Z.shiftr x 1) 1)
    by (rewrite Z.shiftl_mul_pow2, Z.shiftr_div_pow2 by lia; change (2 ^ 1) with 2; lia).
  destruct (Z.eq_dec n 0) as [->|Hn0].
  - rewrite !Z.shiftl_spec_low by lia. apply andb_false_r.
  - rewrite !Z.shiftl_spec by lia. rewrite Z.shiftr_spec by lia.
    replace (n - 1 + 1) with n by lia.
    destruct (Z_lt_dec (n - 1) 31) as [Hlt|Hge].
    + rewrite Z.ones_spec_low by lia. apply andb_true_r.
    + rewrite Z.ones_spec_high by lia. rewrite andb_false_r.
      symmetry. apply Z.bits_above_log2; [lia|].
      destruct (Z.eq_dec x 0) as [->|Hx0]; [cbn; lia|].
      apply Z.log2_lt_pow2; [lia|].
      assert (2 ^ 31 <= 2 ^ n) by (apply Z.pow_le_mono_r; lia). lia.
Qed.

Lemma even_align_even (x : Z) : 0 <= x < 2 ^ 31 -> Z.rem x 2 = 0 -> even_align x = x.
Proof.
  intros Hx He. unfold even_align. rewrite u32_small by lia.
  rewrite land_fffffffe by exact Hx. rewrite s32_small by lia. lia.
Qed.

Lemma mul_bound (c W y H : Z) :
  0 <= 2 * c <= W -> 0 <= y < H -> 0 <= c * y /\ 2 * (c * y) + W <= W * H.
Proof. intros Hc Hy. nia. Qed.

Lemma half_times_even (W y hw yq : Z) :
  W = 2 * hw -> y = 2 * yq -> hw * y = W * yq.
Proof. intros -> ->. lia. Qed.

Section NV12Proof.

Variables W H : Z.
Hypothesis W_by_4 : W mod 4 = 0.
Hypothesis H_by_2 : H mod 2 = 0.
Hypothesis W_range : 0 <= W < 2 ^ 23.
Hypothesis H_range : 0 <= H < 2 ^ 23.
Hypothesis size_range : W * H < 2 ^ 30.

Let cfgI := identity_config W H.

(** The offsets of a position: luma, interleaved chroma, planar chroma. *)
Let luma (x y : Z) : Z := y * W + x.
Let uv (x y : Z) : Z := W / 2 * y + (x + W * H).
Let cuv (x y : Z) : Z := Z.quot W 4 * y + Z.quot x 2.

Let both_even (x y : Z) : bool := (Z.rem x 2 =? 0) && (Z.rem y 2 =? 0).

Lemma NV12_I420_identity_eq (src dsty dstu dstv : buffer) (x y : Z) (s : state) :
  0 <= x < W -> 0 <= y < H -> y < W ->
  NV12_I420 src cfgI dsty dstu dstv cfgI identity_rect (x, y) s =
    let s1 := State (upd (mem s) dsty (luma x y) (peek8 (mem s) src (luma x y)))
                (Store dsty (luma x y) (peek8 (mem s) src (luma x y))
                 :: Load src (luma x y + 1) :: Load src (luma x y) :: log s) in
    if both_even x y then
      let cu := peek8 (mem s1) src (uv x y) in
      let cv := peek8 (mem s1) src (uv x y + 1) in
      (tt, State (upd (upd (mem s1) dstu (cuv x y) cu) dstv (cuv x y) cv)
             (Store dstv (cuv x y) cv :: Store dstu (cuv x y) cu
              :: Load src (uv x y + 1) :: Load src (uv x y) :: log s1))
    else (tt, s1).
Proof.
  intros Hx Hy HyW.
  pose proof (offset_bound W H x y Hx Hy) as Hoff.
  unfold NV12_I420, cfgI, identity_config, identity_rect, cfg, rect,
    CONFIG_WIDTH, CONFIG_HEIGHT, CONFIG_X, CONFIG_Y, CONFIG_HALF_W, CONFIG_WH,
    RECT_KX, RECT_KY, Int.rem, Int.div.
  cbn [nth fst snd].
  strip_s32 ltac:(lia).
  rewrite !src_coordinate_identity by lia.
  destruct (Z.geb_spec y W) as [Hge|_]; [lia|].
  rewrite !Z.add_0_r.
  rewrite (mad24_small y W x) by lia.
  fold (luma x y). fold (both_even x y).
  unfold load_uchar2, store8, load8, bind, ret. cbn [fst snd mem log].
  rewrite peek8_u8.
  destruct (both_even x y) eqn:Ev; [|reflexivity].
  unfold both_even in Ev. apply andb_prop in Ev. destruct Ev as [Ex Ey].
  apply Z.eqb_eq in Ex, Ey.
  rewrite !even_align_even by lia.
  pose proof (mul_bound (W / 2) W y H ltac:(lia) Hy) as Hb2.
  pose proof (mul_bound (Z.quot W 4) W y H ltac:(lia) Hy) as Hb4.
  strip_s32 ltac:(lia).
  assert (Huv : 0 <= W / 2 * y + (x + W * H) < 2 ^ 31) by lia.
  assert (Hcuv : 0 <= Z.quot W 4 * y + Z.quot x 2 < 2 ^ 31) by lia.
  rewrite (mad24_small (W / 2) y) by lia.
  rewrite (mad24_small (Z.quot W 4) y) by lia.
  fold (uv x y) (cuv x y). cbn [mem]. rewrite !peek8_u8. reflexivity.
Qed.

Lemma I420_NV12_identity_eq (srcy srcu srcv dst : buffer) (x y : Z) (s : state) :
  0 <= x < W -> 0 <= y < H ->
  I420_NV12 srcy srcu srcv cfgI dst cfgI identity_rect (x, y) s =
    let s1 := State (upd (mem s) dst (luma x y) (peek8 (mem s) srcy (luma x y)))
                (Store dst (luma x y) (peek8 (mem s) srcy (luma x y))
                 :: Load srcy (luma x y + 1) :: Load srcy (luma x y) :: log s) in
    if both_even x y then
      let cu := peek8 (mem s1) srcu (cuv x y) in
      let cv := peek8 (mem s1) srcv (cuv x y) in
      (tt, State (upd (upd (mem s1) dst (uv x y) cu) dst (uv x y + 1) cv)
             (Store dst (uv x y + 1) cv :: Store dst (uv x y) cu
              :: Load srcv (cuv x y) :: Load srcu (cuv x y) :: log s1))
    else (tt, s1).
Proof.
  intros Hx Hy.
  pose proof (offset_bound W H x y Hx Hy) as Hoff.
  unfold I420_NV12, cfgI, identity_config, identity_rect, cfg, rect,
    CONFIG_WIDTH, CONFIG_HEIGHT, CONFIG_X, CONFIG_Y, CONFIG_HALF_W, CONFIG_WH,
    RECT_KX, RECT_KY, Int.rem, Int.div.
  cbn [nth fst snd].
  strip_s32 ltac:(lia).
  rewrite !src_coordinate_identity by lia.
  destruct (Z.geb_spec y H) as [Hge|_]; [lia|].
  destruct (Z.geb_spec x W) as [Hge|_]; [lia|].
  rewrite !Z.add_0_r.
  rewrite (mad24_small y W x) by lia.
  fold (luma x y). fold (both_even x y).
  unfold load_uchar2, store_uchar2, store8, load8, bind, ret. cbn [fst snd mem log].
  rewrite peek8_u8.
  destruct (both_even x y) eqn:Ev; [|reflexivity].
  unfold both_even in Ev. apply andb_prop in Ev. destruct Ev as [Ex Ey].
  apply Z.eqb_eq in Ex, Ey.
  rewrite !even_align_even by lia.
  pose proof (mul_bound (W / 2) W y H ltac:(lia) Hy) as Hb2.
  pose proof (mul_bound (Z.quot W 4) W y H ltac:(lia) Hy) as Hb4.
  strip_s32 ltac:(lia).
  assert (Huv : 0 <= W / 2 * y + (x + W * H) < 2 ^ 31) by lia.
  assert (Hcuv : 0 <= Z.quot W 4 * y + Z.quot x 2 < 2 ^ 31) by lia.
  rewrite (mad24_small (W / 2) y) by lia.
  rewrite (mad24_small (Z.quot W 4) y) by lia.
  fold (uv x y) (cuv x y). cbn [mem]. rewrite !peek8_u8. reflexivity.
Qed.

Lemma cuv_inj (x y x' y' : Z) :
  0 <= x < W -> 0 <= x' < W -> 0 <= y -> 0 <= y' ->
  both_even x y = true -> both_even x' y' = true ->
  cuv x y = cuv x' y' -> x = x' /\ y = y'.
Proof.
  intros Hx Hx' Hy Hy' Ev Ev' E. unfold both_even in *.
  apply andb_prop in Ev, Ev'. destruct Ev as [Ex Ey], Ev' as [Ex' Ey'].
  apply Z.eqb_eq in Ex, Ey, Ex', Ey'. unfold cuv in E.
  destruct (offset_inj (2 * Z.quot W 4) (Z.quot x 2) (Z.quot y 2) (Z.quot x' 2) (Z.quot y' 2))
    as [E1 E2]; [lia|lia| |lia].
  replace (Z.quot y 2 * (2 * Z.quot W 4)) with (Z.quot W 4 * y) by lia.
  replace (Z.quot y' 2 * (2 * Z.quot W 4)) with (Z.quot W 4 * y') by lia.
  exact E.
Qed.

Lemma uv_apart (x y x' y' : Z) :
  0 <= x < W -> 0 <= x' < W -> 0 <= y -> 0 <= y' ->
  both_even x y = true -> both_even x' y' = true ->
  (uv x y = uv x' y' -> x = x' /\ y = y') /\
  uv x y <> uv x' y' + 1 /\ uv x y + 1 <> uv x' y'.
Proof.
  intros Hx Hx' Hy Hy' Ev Ev'. unfold both_even in *.
  apply andb_prop in Ev, Ev'. destruct Ev as [Ex Ey], Ev' as [Ex' Ey'].
  apply Z.eqb_eq in Ex, Ey, Ex', Ey'. unfold uv.
  assert (Hq : W / 2 * y = W * Z.quot y 2) by (apply half_times_even; lia).
  assert (Hq' : W / 2 * y' = W * Z.quot y' 2) by (apply half_times_even; lia).
  rewrite Hq, Hq'. split; [|split].
  - intros E.
    destruct (offset_inj W x (Z.quot y 2) x' (Z.quot y' 2)) as [E1 E2]; lia.
  - intros E. assert (W * (Z.quot y 2 - Z.quot y' 2) = x' - x + 1) by lia.
    assert (Z.quot W 4 * 4 = W) by lia. nia.
  - intros E. assert (W * (Z.quot y' 2 - Z.quot y 2) = x - x' + 1) by lia.
    assert (Z.quot W 4 * 4 = W) by lia. nia.
Qed.

Variables (src dsty dstu dstv dst : buffer).
Hypothesis src_y : src <> dsty.
Hypothesis src_u : src <> dstu.
Hypothesis src_v : src <> dstv.
Hypothesis y_u : dsty <> dstu.
Hypothesis y_v : dsty <> dstv.
Hypothesis u_v : dstu <> dstv.
Hypothesis dst_y : dst <> dsty.
Hypothesis dst_u : dst <> dstu.
Hypothesis dst_v : dst <> dstv.

Variable m0 : memory.

(** Position [(x, y)] has arrived in the three planes. *)
Let converted (m : memory) (x y : Z) : Prop :=
  m dsty (luma x y) = peek8 m0 src (luma x y) /\
  (both_even x y = true ->
   m dstu (cuv x y) = peek8 m0 src (uv x y) /\
   m dstv (cuv x y) = peek8 m0 src (uv x y + 1)).

Lemma NV12_I420_converts (ts : list uint2) :
  H <= W -> Forall (in_image W H) ts ->
  forall s : state,
    (forall a, mem s src a = m0 src a) ->
    let s' := snd (dispatch (NV12_I420 src cfgI dsty dstu dstv cfgI identity_rect) ts s) in
    forall x y, in_image W H (x, y) ->
      In (x, y) ts \/ converted (mem s) x y -> converted (mem s') x y.
Proof.
  intros HW Hall. induction Hall as [|t rest Ht Hrest IH]; intros s Hsrc s' x y Hxy Hor;
    subst s'.
  - rewrite dispatch_nil. destruct Hor as [[]|Hc]. exact Hc.
  - rewrite dispatch_cons. destruct t as [x' y'].
    destruct Ht as [Hx' Hy']. cbn [fst snd] in Hx', Hy'.
    destruct Hxy as [Hx Hy]. cbn [fst snd] in Hx, Hy.
    rewrite NV12_I420_identity_eq by lia. cbv zeta.
    set (s1 := State (upd (mem s) dsty (luma x' y') _) _).
    assert (Hs1 : forall a, mem s1 src a = mem s src a).
    { intros a. unfold s1. cbn [mem]. apply upd_other_buffer, src_y. }
    assert (Hnew : converted
                     (mem (snd (if both_even x' y'
                                then (tt, State (upd (upd (mem s1) dstu (cuv x' y')
                                                        (peek8 (mem s1) src (uv x' y')))
                                                   dstv (cuv x' y')
                                                   (peek8 (mem s1) src (uv x' y' + 1)))
                                            (Store dstv (cuv x' y')
                                               (peek8 (mem s1) src (uv x' y' + 1))
                                             :: Store dstu (cuv x' y')
                                                  (peek8 (mem s1) src (uv x' y'))
                                             :: Load src (uv x' y' + 1)
                                             :: Load src (uv x' y') :: log s1))
                                else (tt, s1)))) x' y').
    { unfold converted. destruct (both_even x' y'); cbn [snd mem].
      - split.
        + rewrite !upd_other_buffer by (auto using y_u, y_v).
          unfold s1. cbn [mem]. rewrite upd_same. unfold peek8. rewrite Hsrc. reflexivity.
        + intros _. split.
          * rewrite upd_other_buffer by exact u_v. rewrite upd_same.
            unfold peek8. rewrite Hs1, Hsrc. reflexivity.
          * rewrite upd_same. unfold peek8. rewrite Hs1, Hsrc. reflexivity.
      - split; [|discriminate].
        unfold s1. cbn [mem]. rewrite upd_same. unfold peek8. rewrite Hsrc. reflexivity. }
    apply IH.
    + intros a. destruct (both_even x' y'); cbn [snd mem];
        rewrite ?upd_other_buffer by (auto using src_u, src_v); rewrite Hs1; apply Hsrc.
    + split; assumption.
    + destruct Hor as [[E|Hin]|Hc]; [right|left; exact Hin|right].
      * injection E as -> ->. exact Hnew.
      * destruct Hc as [Hcy Hcc]. split.
        -- assert (Hy1 : mem s1 dsty (luma x y) = peek8 m0 src (luma x y)).
           { unfold s1. cbn [mem]. destruct (Z.eq_dec (luma x y) (luma x' y')) as [E|E].
             - rewrite E, upd_same. unfold peek8. rewrite Hsrc. reflexivity.
             - rewrite upd_other_index by exact E. exact Hcy. }
           destruct (both_even x' y'); cbn [snd mem];
             rewrite ?upd_other_buffer by (auto using y_u, y_v); exact Hy1.
        -- intros Ev. destruct (Hcc Ev) as [Hu Hv].
           destruct (both_even x' y') eqn:Ev'; cbn [snd mem].
           ++ destruct (Z.eq_dec (cuv x y) (cuv x' y')) as [E|E].
              ** destruct (cuv_inj x y x' y') as [-> ->]; try assumption; try lia.
                 cbn [snd mem] in Hnew.
                 destruct Hnew as [_ Hn]. apply Hn. exact Ev.
              ** split.
                 --- rewrite upd_other_buffer by congruence.
                     rewrite upd_other_index by exact E.
                     unfold s1. cbn [mem]. rewrite upd_other_buffer by congruence.
                     exact Hu.
                 --- rewrite upd_other_index by exact E.
                     rewrite upd_other_buffer by congruence.
                     unfold s1. cbn [mem]. rewrite upd_other_buffer by congruence.
                     exact Hv.
           ++ unfold s1. cbn [mem].
              rewrite !upd_other_buffer by congruence. auto.
Qed.

Variable m1 : memory.

(** Position [(x, y)] has arrived back in the NV12 buffer. *)
Let restored (m : memory) (x y : Z) : Prop :=
  m dst (luma x y) = peek8 m1 dsty (luma x y) /\
  (both_even x y = true ->
   m dst (uv x y) = peek8 m1 dstu (cuv x y) /\
   m dst (uv x y + 1) = peek8 m1 dstv (cuv x y)).

Lemma uv_above_luma (x y x' y' : Z) :
  0 <= x < W -> 0 <= y < H -> 0 <= x' -> 0 <= y' -> luma x y < uv x' y'.
Proof.
  intros Hx Hy Hx' Hy'. pose proof (offset_bound W H x y Hx Hy). unfold luma, uv.
  assert (0 <= W / 2 * y') by (apply Z.mul_nonneg_nonneg; lia). lia.
Qed.

Ltac Zify.zify_post_hook ::= idtac.

Lemma I420_NV12_restores (ts : list uint2) :
  Forall (in_image W H) ts ->
  forall s : state,
    (forall b a, b <> dst -> mem s b a = m1 b a) ->
    let s' := snd (dispatch (I420_NV12 dsty dstu dstv cfgI dst cfgI identity_rect) ts s) in
    forall x y, in_image W H (x, y) ->
      In (x, y) ts \/ restored (mem s) x y -> restored (mem s') x y.
Proof.
  intros Hall. induction Hall as [|t rest Ht Hrest IH]; intros s Hin s' x y Hxy Hor;
    subst s'.
  - rewrite dispatch_nil. destruct Hor as [[]|Hc]. exact Hc.
  - rewrite dispatch_cons. destruct t as [x' y'].
    destruct Ht as [Hx' Hy']. cbn [fst snd] in Hx', Hy'.
    destruct Hxy as [Hx Hy]. cbn [fst snd] in Hx, Hy.
    rewrite I420_NV12_identity_eq by lia. cbv zeta.
    set (s1 := State (upd (mem s) dst (luma x' y') _) _).
    assert (Hy_ne : dsty <> dst) by (intro E; symmetry in E; contradiction).
    assert (Hu_ne : dstu <> dst) by (intro E; symmetry in E; contradiction).
    assert (Hv_ne : dstv <> dst) by (intro E; symmetry in E; contradiction).
    assert (Hva : peek8 (mem s) dsty (luma x' y') = peek8 m1 dsty (luma x' y'))
      by (unfold peek8; rewrite Hin by exact Hy_ne; reflexivity).
    assert (Hcu : peek8 (mem s1) dstu (cuv x' y') = peek8 m1 dstu (cuv x' y')).
    { unfold peek8, s1. cbn [mem]. rewrite upd_other_buffer by exact Hu_ne.
      rewrite Hin by exact Hu_ne. reflexivity. }
    assert (Hcv : peek8 (mem s1) dstv (cuv x' y') = peek8 m1 dstv (cuv x' y')).
    { unfold peek8, s1. cbn [mem]. rewrite upd_other_buffer by exact Hv_ne.
      rewrite Hin by exact Hv_ne. reflexivity. }
    rewrite Hcu, Hcv.
    pose proof (uv_above_luma x y x' y' ltac:(lia) ltac:(lia) ltac:(lia) ltac:(lia)) as Hab.
    pose proof (uv_above_luma x' y' x y ltac:(lia) ltac:(lia) ltac:(lia) ltac:(lia)) as Hab'.
    pose proof (uv_above_luma x' y' x' y' ltac:(lia) ltac:(lia) ltac:(lia) ltac:(lia)) as Hab''.
    apply IH.
    + intros b a Hb. destruct (both_even x' y'); cbn [snd mem];
        rewrite ?upd_other_buffer by exact Hb; unfold s1; cbn [mem];
        rewrite upd_other_buffer by exact Hb; apply Hin, Hb.
    + split; assumption.
    + assert (Hown : forall e, both_even x' y' = e ->
                restored
                  (mem (snd (if e
                             then (tt, State (upd (upd (mem s1) dst (uv x' y')
                                                     (peek8 m1 dstu (cuv x' y')))
                                                dst (uv x' y' + 1)
                                                (peek8 m1 dstv (cuv x' y')))
                                         (Store dst (uv x' y' + 1) (peek8 m1 dstv (cuv x' y'))
                                          :: Store dst (uv x' y') (peek8 m1 dstu (cuv x' y'))
                                          :: Load dstv (cuv x' y')
                                          :: Load dstu (cuv x' y') :: log s1))
                             else (tt, s1)))) x' y').
      { intros e Ee. unfold restored. destruct e; cbn [snd mem].
        - split.
          + rewrite !upd_other_index by lia. unfold s1. cbn [mem].
            rewrite upd_same. exact Hva.
          + intros _. split.
            * rewrite upd_other_index by lia. apply upd_same.
            * apply upd_same.
        - split; [|congruence]. unfold s1. cbn [mem]. rewrite upd_same. exact Hva. }
      destruct Hor as [[E|Hi]|Hc]; [right|left; exact Hi|right].
      * injection E as -> ->. apply Hown. reflexivity.
      * destruct (Z.eq_dec x x') as [Ex|Ex]; [destruct (Z.eq_dec y y') as [Ey|Ey]|].
        { subst x' y'. apply Hown. reflexivity. }
        { destruct Hc as [Hcy Hcc].
          assert (Hl : luma x y <> luma x' y')
            by (intros E; apply offset_inj in E; lia).
          assert (Hy1 : mem s1 dst (luma x y) = peek8 m1 dsty (luma x y))
            by (unfold s1; cbn [mem]; rewrite upd_other_index by exact Hl; exact Hcy).
          split.
          - destruct (both_even x' y'); cbn [snd mem];
              rewrite ?upd_other_index by (clear - Hab; lia); exact Hy1.
          - intros Ev. destruct (Hcc Ev) as [Hu Hv].
            destruct (both_even x' y') eqn:Ev'; cbn [snd mem].
            + destruct (uv_apart x y x' y' Hx Hx' (proj1 Hy) (proj1 Hy') Ev Ev')
                as (Hi1 & Hi2 & Hi3).
              assert (Hne : uv x y <> uv x' y')
                by (intros E; apply Hi1 in E; destruct E; contradiction).
              rewrite !upd_other_index by (clear - Hab Hab' Hne Hi2 Hi3; lia).
              unfold s1. cbn [mem].
              rewrite !upd_other_index by (clear - Hab Hab' Hne Hi2 Hi3; lia). auto.
            + unfold s1. cbn [mem].
              rewrite !upd_other_index by (clear - Hab Hab'; lia). auto. }
        { destruct Hc as [Hcy Hcc].
          assert (Hl : luma x y <> luma x' y')
            by (intros E; apply offset_inj in E; lia).
          assert (Hy1 : mem s1 dst (luma x y) = peek8 m1 dsty (luma x y))
            by (unfold s1; cbn [mem]; rewrite upd_other_index by exact Hl; exact Hcy).
          split.
          - destruct (both_even x' y'); cbn [snd mem];
              rewrite ?upd_other_index by (clear - Hab; lia); exact Hy1.
          - intros Ev. destruct (Hcc Ev) as [Hu Hv].
            destruct (both_even x' y') eqn:Ev'; cbn [snd mem].
            + destruct (uv_apart x y x' y' Hx Hx' (proj1 Hy) (proj1 Hy') Ev Ev')
                as (Hi1 & Hi2 & Hi3).
              assert (Hne : uv x y <> uv x' y')
                by (intros E; apply Hi1 in E; destruct E; contradiction).
              rewrite !upd_other_index by (clear - Hab Hab' Hne Hi2 Hi3; lia).
              unfold s1. cbn [mem].
              rewrite !upd_other_index by (clear - Hab Hab' Hne Hi2 Hi3; lia). auto.
            + unfold s1. cbn [mem].
              rewrite !upd_other_index by (clear - Hab Hab'; lia). auto. }
Qed.

End NV12Proof.

(** ** Thread lists *)

Lemma line_in_range (n : nat) : Forall (fun t : uint2 => 0 <= fst t < Z.of_nat n) (line n).
Proof.
  apply Forall_forall. intros t Ht. unfold line in Ht. apply in_map_iff in Ht.
  destruct Ht as (i & <- & Hi). apply in_seq in Hi. cbn [fst]. lia.
Qed.

Lemma line_covers (n : nat) (r : Z) :
  0 <= r < Z.of_nat n -> exists t, In t (line n) /\ fst t = r.
Proof.
  intros Hr. exists (r, 0). split; [|reflexivity].
  unfold line. apply in_map_iff. exists (Z.to_nat r). split; [f_equal; lia|].
  apply in_seq. lia.
Qed.

Lemma grid_in_image (w h : nat) : Forall (in_image (Z.of_nat w) (Z.of_nat h)) (grid w h).
Proof. apply Forall_forall. intros p Hp. apply grid_spec, Hp. Qed.

Lemma grid_covers (w h : nat) (p : uint2) :
  in_image (Z.of_nat w) (Z.of_nat h) p -> In p (grid w h).
Proof. apply grid_spec. Qed.

(** ** The packed pixel, there and back *)

(** Unpacking a 32-bit pixel and packing it again gives the pixel back; and
    packing four channels that hold whole numbers of [0, 255] and unpacking
    gives the four channels back. *)
Theorem packed_pixel_round_trip (u a b c d : Z) :
  0 <= u < 2 ^ 32 ->
  0 <= a < 256 -> 0 <= b < 256 -> 0 <= c < 256 -> 0 <= d < 256 ->
  let f := V4 (F32.of_Z a) (F32.of_Z b) (F32.of_Z c) (F32.of_Z d) in
  dataFloat4ToUchar4 (dataUchar4ToFloat4 u) = u /\
  dataUchar4ToFloat4 (dataFloat4ToUchar4 f) = f.
Proof.
  intros Hu Ha Hb Hc Hd f. split.
  - rewrite pack_unpack. apply u32_small, Hu.
  - subst f. rewrite dataFloat4ToUchar4_pack4. cbn [vx vy vz vw].
    rewrite !to_uint_of_byte by assumption.
    pose proof (byte_of_pack4 a b c d 0 ltac:(lia)) as E0.
    pose proof (byte_of_pack4 a b c d 1 ltac:(lia)) as E1.
    pose proof (byte_of_pack4 a b c d 2 ltac:(lia)) as E2.
    pose proof (byte_of_pack4 a b c d 3 ltac:(lia)) as E3.
    unfold byte_of in E0, E1, E2, E3. cbn [chan vx vy vz vw Z.of_nat] in E0, E1, E2, E3.
    change (8 * 0) with 0 in E0. rewrite Z.shiftr_0_r in E0.
    change (8 * Z.pos _) with 8 in E1. change (8 * Z.pos _) with 16 in E2.
    change (8 * Z.pos _) with 24 in E3.
    unfold dataUchar4ToFloat4. rewrite E0, E1, E2, E3.
    rewrite !land_255_byte by assumption. reflexivity.
Qed.

Lemma packed_pixel_round_trip_witness :
  let f := V4 (F32.of_Z 4) (F32.of_Z 3) (F32.of_Z 2) (F32.of_Z 1) in
  dataFloat4ToUchar4 (dataUchar4ToFloat4 16909060) = 16909060 /\
  dataUchar4ToFloat4 (dataFloat4ToUchar4 f) = f.
Proof.
  apply (packed_pixel_round_trip 16909060 4 3 2 1); lia.
Defined.

(** ** Transposing twice *)

Lemma group_of_position (w h : Z) (groups : list uint2) (x y : Z) :
  (forall g, in_image w h (fst g * 16, snd g * 16) -> In g groups) ->
  in_image w h (x, y) -> In (x / 16, y / 16) groups.
Proof.
  intros Hcov [Hx Hy]. cbn [fst snd] in Hx, Hy. apply Hcov. cbn [fst snd].
  pose proof (Z.div_mod x 16 ltac:(lia)). pose proof (Z.div_mod y 16 ltac:(lia)).
  pose proof (Z.mod_pos_bound x 16 ltac:(lia)).
  pose proof (Z.mod_pos_bound y 16 ltac:(lia)).
  split; cbn [fst snd]; lia.
Qed.

(** [Transpose] is its own inverse: transposing a [width] by [height] image
    from [a] into [b], and then [b], now [height] by [width], into [c],
    leaves in [c] the bytes of [a], each in its place.  Both runs may use the
    same staging buffer. *)
Theorem Transpose_twice_is_identity (a block b c : buffer) (width height : Z)
    (locals groups groups' : list uint2) (m : memory) (x y : Z) :
  a <> block -> a <> b -> block <> b -> b <> c -> block <> c ->
  0 <= width < 2 ^ 23 -> 0 <= height < 2 ^ 23 -> width * height < 2 ^ 31 ->
  Forall in_tile locals -> (forall l, in_tile l -> In l locals) ->
  Forall group_ok groups ->
  (forall g, in_image width height (fst g * 16, snd g * 16) -> In g groups) ->
  Forall group_ok groups' ->
  (forall g, in_image height width (fst g * 16, snd g * 16) -> In g groups') ->
  0 <= x < width -> 0 <= y < height ->
  let tile := (BLOCK_DIM, BLOCK_DIM) in
  let s1 := run (Transpose_grid a width height block b tile locals groups) m in
  let s2 := run (Transpose_grid b height width block c tile locals groups') (mem s1) in
  mem s2 c (y * width + x) = peek8 m a (y * width + x).
Proof.
  intros N1 N2 N3 N4 N5 Hw Hh Hsz Hall Hcov Hgs Hgcov Hgs' Hgcov' Hx Hy tile s1 s2.
  assert (Hxy : in_image width height (x, y)) by (split; assumption).
  assert (Hyx : in_image height width (y, x)) by (split; assumption).
  assert (Hsz' : height * width < 2 ^ 31) by lia.
  assert (N4' : b <> block) by congruence.
  pose proof (Transpose_grid_steps a block b width height m N1 N2 N3 Hw Hh Hsz
                locals groups Hall Hcov Hgs (State m []) (fun i => eq_refl) x y Hxy
                (or_introl (group_of_position _ _ _ _ _ Hgcov Hxy))) as E1.
  pose proof (Transpose_grid_steps b block c height width (mem s1) N4' N4 N5 Hh Hw Hsz'
                locals groups' Hall Hcov Hgs' (State (mem s1) []) (fun i => eq_refl) y x Hyx
                (or_introl (group_of_position _ _ _ _ _ Hgcov' Hyx))) as E2.
  cbv zeta in E1, E2. fold tile in E1, E2.
  change (snd (Transpose_grid a width height block b tile locals groups (State m [])))
    with s1 in E1.
  change (snd (Transpose_grid b height width block c tile locals groups'
                 (State (mem s1) []))) with s2 in E2.
  rewrite E2. unfold peek8 at 1. rewrite E1. apply peek8_u8.
Qed.

Lemma Transpose_twice_is_identity_witness :
  let m := mem_of [(slot0, [1; 2; 3; 4; 5; 6])] in
  let tile := (BLOCK_DIM, BLOCK_DIM) in
  let s1 := run (Transpose_grid slot0 3 2 slot1 slot2 tile (grid 16 16) [(0, 0)]) m in
  let s2 := run (Transpose_grid slot2 2 3 slot1 slot3 tile (grid 16 16) [(0, 0)]) (mem s1) in
  mem s2 slot3 (1 * 3 + 2) = 6.
Proof.
  assert (H7 : Forall in_tile (grid 16 16)).
  { apply Forall_forall. intros l Hl. apply grid_spec in Hl. exact Hl. }
  assert (H8 : forall l, in_tile l -> In l (grid 16 16)).
  { intros l Hl. apply grid_spec. exact Hl. }
  assert (H9 : Forall group_ok [(0, 0)]).
  { constructor; [|constructor]. unfold group_ok. cbn [fst snd]. lia. }
  assert (H10 : forall g, in_image 3 2 (fst g * 16, snd g * 16) -> In g [(0, 0)]).
  { intros [gx gy] [Hx Hy]. cbn [fst snd] in Hx, Hy. left. f_equal; lia. }
  assert (H11 : forall g, in_image 2 3 (fst g * 16, snd g * 16) -> In g [(0, 0)]).
  { intros [gx gy] [Hx Hy]. cbn [fst snd] in Hx, Hy. left. f_equal; lia. }
  exact (Transpose_twice_is_identity slot0 slot1 slot2 slot3 3 2 (grid 16 16) [(0, 0)] [(0, 0)]
           (mem_of [(slot0, [1; 2; 3; 4; 5; 6])]) 2 1
           ltac:(discriminate) ltac:(discriminate) ltac:(discriminate) ltac:(discriminate)
           ltac:(discriminate) ltac:(lia) ltac:(lia) ltac:(lia) H7 H8 H9 H10 H9 H11
           ltac:(lia) ltac:(lia)).
Defined.

(** [Transpose] does not write to its input: after any run of thread groups
    the image in [idata] is as it was. *)
Theorem Transpose_leaves_input (idata block odata : buffer) (width height : Z)
    (locals groups : list uint2) (m : memory) (i : Z) :
  idata <> block -> idata <> odata -> block <> odata ->
  0 <= width < 2 ^ 23 -> 0 <= height < 2 ^ 23 -> width * height < 2 ^ 31 ->
  Forall in_tile locals -> (forall l, in_tile l -> In l locals) ->
  Forall group_ok groups ->
  mem (run (Transpose_grid idata width height block odata (BLOCK_DIM, BLOCK_DIM)
              locals groups) m) idata i = m idata i.
Proof.
  intros H1 H2 H3 Hw Hh Hsz Hall Hcov Hgs. unfold run.
  assert (G : forall s, (forall j, mem s idata j = m idata j) ->
            forall j, mem (snd (Transpose_grid idata width height block odata
                                  (BLOCK_DIM, BLOCK_DIM) locals groups s)) idata j
                      = m idata j).
  { induction Hgs as [|g rest Hg Hrest IH]; intros s Hs j; unfold Transpose_grid in *.
    - rewrite dispatch_nil. apply Hs.
    - rewrite dispatch_cons. apply IH.
      destruct (Transpose_group_step idata block odata width height m H1 H2 H3 Hw Hh Hsz
                  g locals Hg Hall Hcov s Hs) as [Hin _].
      exact Hin. }
  apply G. reflexivity.
Qed.

Lemma Transpose_leaves_input_witness :
  let m := mem_of [(slot0, [1; 2; 3; 4; 5; 6])] in
  mem (run (Transpose_grid slot0 3 2 slot1 slot2 (BLOCK_DIM, BLOCK_DIM) (grid 16 16) [(0, 0)]) m)
    slot0 4 = 5.
Proof.
  assert (H9 : Forall group_ok [(0, 0)]).
  { constructor; [|constructor]. unfold group_ok. cbn [fst snd]. lia. }
  exact (Transpose_leaves_input slot0 slot1 slot2 3 2 (grid 16 16) [(0, 0)]
           (mem_of [(slot0, [1; 2; 3; 4; 5; 6])]) 4
           ltac:(discriminate) ltac:(discriminate) ltac:(discriminate)
           ltac:(lia) ltac:(lia) ltac:(lia) (grid_in_image 16 16) (grid_covers 16 16) H9).
Defined.

(** ** GaussianBlur: what a thread touches, and the unit filter *)

Ltac Zify.zify_post_hook ::= idtac.

Lemma sub_byte_zero (b : Z) : 0 <= b < 256 -> F32.sub (F32.of_Z b) F32.zero = F32.of_Z b.
Proof. apply (forall_byte_floats (fun b => F32.sub (F32.of_Z b) F32.zero) F32.of_Z). vm_compute. reflexivity. Qed.

(** The kernel with the clamp seeding, as a function of the state. *)
Lemma GaussianBlur_clamp_unfold (inp out : buffer) (iWidth iHeight : Z)
    (a0 a1 a2 a3 b1 b2 coefp coefn : float) (groupId localSize localId : uint2)
    (s : state) :
  GaussianBlur true inp iWidth iHeight a0 a1 a2 a3 b1 b2 coefp coefn out
    groupId localSize localId s =
    let x := blur_column groupId localSize localId in
    if x >=? iWidth then (tt, s)
    else
      let xp := dataUchar4ToFloat4 (peek32 (mem s) inp x) in
      let yb := zip4 F32.mul xp (splat coefp) in
      let p := GaussianBlur_forward (Z.to_nat iHeight) inp out iWidth a0 a1 b1 b2
                 x x xp yb yb (State (mem s) (Load inp x :: log s)) in
      let q := fst (fst p) - iWidth in
      let xn := dataUchar4ToFloat4 (peek32 (mem (snd p)) inp q) in
      let yn := zip4 F32.mul xn (splat coefn) in
      GaussianBlur_reverse (Z.to_nat iHeight) inp out iWidth a2 a3 b1 b2
        q (snd (fst p) - iWidth) xn xn yn yn
        (State (mem (snd p)) (Load inp q :: log (snd p))).
Proof.
  unfold GaussianBlur, blur_column. cbn zeta.
  destruct (_ >=? iWidth); [reflexivity|].
  unfold bind, ret, load32. cbn [fst snd mem log].
  destruct (GaussianBlur_forward _ _ _ _ _ _ _ _ _ _ _ _ _ _) as [[pi po] s1].
  reflexivity.
Qed.

Section BlurColumn.

Variables (inp out : buffer) (iWidth : Z).

(** The forward loop moves both pointers down [n] rows and stores to the [n]
    cells of [out] it passes, and to nothing else. *)
Lemma GaussianBlur_forward_frame (a0 a1 b1 b2 : float) (n : nat) :
  forall (p q : Z) (xp yp yb : float4) (s : state),
    let res := GaussianBlur_forward n inp out iWidth a0 a1 b1 b2 p q xp yp yb s in
    fst res = (p + Z.of_nat n * iWidth, q + Z.of_nat n * iWidth) /\
    (forall b i, b <> out \/ (forall j, (j < n)%nat -> i <> q + Z.of_nat j * iWidth) ->
                 mem (snd res) b i = mem s b i).
Proof.
  induction n as [|n IH]; intros p q xp yp yb s; cbn zeta.
  - cbn [GaussianBlur_forward ret fst snd]. split; [f_equal; lia|reflexivity].
  - cbn [GaussianBlur_forward]. unfold bind at 1. cbn [load32 fst snd]. unfold bind at 1.
    cbn [store32 fst snd mem log].
    match goal with
    | |- context [GaussianBlur_forward n inp out iWidth a0 a1 b1 b2 ?p' ?q' ?x' ?y' ?z' ?s'] =>
        destruct (IH p' q' x' y' z' s') as [Hp Hm];
        set (res := GaussianBlur_forward n inp out iWidth a0 a1 b1 b2 p' q' x' y' z' s') in *
    end.
    split; [rewrite Hp; f_equal; lia|].
    intros b i Hbi. rewrite Hm.
    + cbn [mem]. destruct Hbi as [Hb|Hi]; [apply upd_other_buffer, Hb|].
      apply upd_other_index. specialize (Hi 0%nat ltac:(lia)). lia.
    + destruct Hbi as [Hb|Hi]; [left; exact Hb|right].
      intros j Hj. specialize (Hi (S j) ltac:(lia)). lia.
Qed.

(** The reverse loop stores to the [n] cells of [out] it passes on its way
    up, and to nothing else. *)
Lemma GaussianBlur_reverse_frame (a2 a3 b1 b2 : float) (n : nat) :
  forall (p q : Z) (xn xa yn ya : float4) (s : state),
    let s' := snd (GaussianBlur_reverse n inp out iWidth a2 a3 b1 b2 p q xn xa yn ya s) in
    forall b i, b <> out \/ (forall j, (j < n)%nat -> i <> q - Z.of_nat j * iWidth) ->
                mem s' b i = mem s b i.
Proof.
  induction n as [|n IH]; intros p q xn xa yn ya s; cbn zeta.
  - reflexivity.
  - cbn [GaussianBlur_reverse]. unfold bind at 1. cbn [load32 fst snd]. unfold bind at 1.
    cbn [load32 fst snd mem log]. unfold bind at 1. cbn [store32 fst snd mem log].
    intros b i Hbi. rewrite IH.
    + cbn [mem]. destruct Hbi as [Hb|Hi]; [apply upd_other_buffer, Hb|].
      apply upd_other_index. specialize (Hi 0%nat ltac:(lia)). lia.
    + destruct Hbi as [Hb|Hi]; [left; exact Hb|right].
      intros j Hj. specialize (Hi (S j) ltac:(lia)). lia.
Qed.

End BlurColumn.

(** One thread on any state: what it leaves alone. *)
Lemma GaussianBlur_thread_frame (clamp : bool) (inp out : buffer)
    (iWidth iHeight : Z) (a0 a1 a2 a3 b1 b2 coefp coefn : float)
    (groupId localSize localId : uint2) (s : state) (b : buffer) (i : Z) :
  b <> out \/
  (forall r, 0 <= r < iHeight -> i <> blur_column groupId localSize localId + r * iWidth) \/
  iWidth <= blur_column groupId localSize localId ->
  mem (snd (GaussianBlur clamp inp iWidth iHeight a0 a1 a2 a3 b1 b2 coefp coefn out
              groupId localSize localId s)) b i = mem s b i.
Proof.
  intros Hbi.
  set (x := blur_column groupId localSize localId) in *.
  set (n := Z.to_nat iHeight).
  assert (Hidle : iWidth <= x -> (x >=? iWidth) = true) by (intros; apply Z.geb_le; lia).
  destruct (Z_le_dec iWidth x) as [Hout|Hin].
  { destruct clamp; [rewrite GaussianBlur_clamp_unfold|rewrite GaussianBlur_unfold];
      cbn zeta; fold x; rewrite (Hidle Hout); reflexivity. }
  assert (Hbi' : b <> out \/ (forall r, 0 <= r < iHeight -> i <> x + r * iWidth))
    by (destruct Hbi as [H|[H|H]]; [left; exact H|right; exact H|contradiction]).
  clear Hbi.
  assert (Hfwd : forall xp yp yb s,
             let res := GaussianBlur_forward n inp out iWidth a0 a1 b1 b2 x x xp yp yb s in
             fst res = (x + Z.of_nat n * iWidth, x + Z.of_nat n * iWidth) /\
             mem (snd res) b i = mem s b i).
  { intros xp yp yb s0 res.
    destruct (GaussianBlur_forward_frame inp out iWidth a0 a1 b1 b2 n x x xp yp yb s0)
      as [Hp Hm].
    split; [exact Hp|]. apply Hm. destruct Hbi' as [Hb|Hi]; [left; exact Hb|right].
    intros j Hj. apply Hi. unfold n in Hj. lia. }
  assert (Hrev : forall p xn xa yn ya s,
             mem (snd (GaussianBlur_reverse n inp out iWidth a2 a3 b1 b2 p
                         (x + Z.of_nat n * iWidth - iWidth) xn xa yn ya s)) b i = mem s b i).
  { intros p xn xa yn ya s0. apply GaussianBlur_reverse_frame.
    destruct Hbi' as [Hb|Hi]; [left; exact Hb|right].
    intros j Hj.
    replace (x + Z.of_nat n * iWidth - iWidth - Z.of_nat j * iWidth)
      with (x + (Z.of_nat n - 1 - Z.of_nat j) * iWidth) by ring.
    apply Hi. unfold n in *. lia. }
  destruct clamp.
  - rewrite GaussianBlur_clamp_unfold. cbn zeta. fold x n.
    destruct (x >=? iWidth); [reflexivity|].
    match goal with
    | |- context [GaussianBlur_forward n inp out iWidth a0 a1 b1 b2 x x ?xp ?yp ?yb ?s0] =>
        destruct (Hfwd xp yp yb s0) as [Hp Hm];
        set (res := GaussianBlur_forward n inp out iWidth a0 a1 b1 b2 x x xp yp yb s0) in *
    end.
    rewrite Hp. cbn [fst snd]. rewrite Hrev. cbn [mem]. rewrite Hm. reflexivity.
  - rewrite GaussianBlur_unfold. cbn zeta. fold x n.
    destruct (x >=? iWidth); [reflexivity|].
    match goal with
    | |- context [GaussianBlur_forward n inp out iWidth a0 a1 b1 b2 x x ?xp ?yp ?yb ?s0] =>
        destruct (Hfwd xp yp yb s0) as [Hp Hm];
        set (res := GaussianBlur_forward n inp out iWidth a0 a1 b1 b2 x x xp yp yb s0) in *
    end.
    rewrite Hp. cbn [fst snd]. rewrite Hrev. rewrite Hm. reflexivity.
Qed.

(** A thread of [GaussianBlur] stores to its own column of the output and to
    nothing else: whatever the coefficients, the position of the thread and
    the clamp switch, every cell of every other buffer, the input among them,
    and every cell of the output off the rows [0 .. iHeight - 1] of the column
    of the thread stays as it was. *)
Theorem GaussianBlur_touches_only_its_column (clamp : bool) (inp out : buffer)
    (iWidth iHeight : Z) (a0 a1 a2 a3 b1 b2 coefp coefn : float)
    (groupId localSize localId : uint2) (m : memory) (b : buffer) (i : Z) :
  b <> out \/
  (forall r, 0 <= r < iHeight -> i <> blur_column groupId localSize localId + r * iWidth) ->
  mem (run (GaussianBlur clamp inp iWidth iHeight a0 a1 a2 a3 b1 b2 coefp coefn out
              groupId localSize localId) m) b i = m b i.
Proof.
  intros Hbi. unfold run.
  rewrite GaussianBlur_thread_frame; [reflexivity|].
  destruct Hbi as [H|H]; [left; exact H|right; left; exact H].
Qed.

Lemma zero4_is_pixel : is_pixel zero4.
Proof. exists 0. reflexivity. Qed.

Lemma blur_tap_unit (w : Z) (xp yp yb : float4) :
  is_pixel xp -> is_pixel yp -> is_pixel yb ->
  blur_tap F32.one F32.zero F32.zero F32.zero (dataUchar4ToFloat4 w) xp yp yb
  = dataUchar4ToFloat4 w.
Proof.
  intros [w1 ->] [w2 ->] [w3 ->].
  unfold blur_tap, sub4, add4, scale4, zip4, map4, dataUchar4ToFloat4. cbn [vx vy vz vw].
  rewrite !mul_byte_one, !mul_byte_zero, !add_byte_zero, !sub_byte_zero
    by apply land_255_range.
  reflexivity.
Qed.

Lemma blur_tap_null (xn xa : float4) :
  is_pixel xn -> is_pixel xa ->
  blur_tap F32.zero F32.zero F32.zero F32.zero xn xa zero4 zero4 = zero4.
Proof.
  intros [w1 ->] [w2 ->].
  unfold blur_tap, sub4, add4, scale4, zip4, map4, dataUchar4ToFloat4. cbn [vx vy vz vw].
  rewrite !mul_byte_zero by apply land_255_range.
  reflexivity.
Qed.

Lemma pixel_times_one (v : float4) : is_pixel v -> zip4 F32.mul v (splat F32.one) = v.
Proof.
  intros [w ->]. unfold zip4, splat, dataUchar4ToFloat4. cbn [vx vy vz vw].
  rewrite !mul_byte_one by apply land_255_range. reflexivity.
Qed.

Lemma pixel_times_zero (v : float4) : is_pixel v -> zip4 F32.mul v (splat F32.zero) = zero4.
Proof.
  intros [w ->]. unfold zip4, splat, dataUchar4ToFloat4. cbn [vx vy vz vw].
  rewrite !mul_byte_zero by apply land_255_range. reflexivity.
Qed.

Lemma pixel_plus_zero (w : Z) :
  dataFloat4ToUchar4 (add4 (dataUchar4ToFloat4 w) zero4) = Int.u32 w.
Proof.
  rewrite <- pack_unpack. f_equal.
  unfold add4, zip4, zero4, splat, dataUchar4ToFloat4. cbn [vx vy vz vw].
  rewrite !add_byte_zero by apply land_255_range. reflexivity.
Qed.

Lemma u32_idem (z : Z) : Int.u32 (Int.u32 z) = Int.u32 z.
Proof. unfold Int.u32. apply Z.mod_mod. lia. Qed.

(** The forward loop of the unit filter copies the rows it passes. *)
Lemma GaussianBlur_forward_unit (inp out : buffer) (iWidth : Z) (n : nat) :
  inp <> out -> iWidth <> 0 ->
  forall (p : Z) (xp yp yb : float4) (s : state),
    is_pixel xp -> is_pixel yp -> is_pixel yb ->
    let res := GaussianBlur_forward n inp out iWidth F32.one F32.zero F32.zero F32.zero
                 p p xp yp yb s in
    forall j, (j < n)%nat ->
      mem (snd res) out (p + Z.of_nat j * iWidth)
      = peek32 (mem s) inp (p + Z.of_nat j * iWidth).
Proof.
  intros inp_out width_nonzero.
  induction n as [|n IH]; intros p xp yp yb s Hxp Hyp Hyb res j Hj; [lia|].
  subst res. rewrite GaussianBlur_forward_step. cbn zeta.
  rewrite blur_tap_unit by assumption. rewrite pack_unpack.
  set (s1 := State _ _).
  destruct j as [|j].
  - destruct (GaussianBlur_forward_frame inp out iWidth F32.one F32.zero F32.zero F32.zero n
                (p + iWidth) (p + iWidth) (dataUchar4ToFloat4 (peek32 (mem s) inp p))
                (dataUchar4ToFloat4 (peek32 (mem s) inp p)) yp s1) as [_ Hm].
    rewrite Hm.
    + unfold s1. cbn [mem]. replace (p + Z.of_nat 0 * iWidth) with p by lia.
      rewrite upd_same. unfold peek32. rewrite !u32_idem. reflexivity.
    + right. intros k Hk. nia.
  - replace (p + Z.of_nat (S j) * iWidth) with (p + iWidth + Z.of_nat j * iWidth) by lia.
    rewrite IH; [|eexists; reflexivity|eexists; reflexivity|assumption|lia].
    unfold s1, peek32. cbn [mem]. rewrite upd_other_buffer by exact inp_out. reflexivity.
Qed.

(** The reverse loop of the null filter stores back what it reads. *)
Lemma GaussianBlur_reverse_null (inp out : buffer) (iWidth : Z) (n : nat) :
  forall (p q : Z) (xn xa : float4) (s : state),
    is_pixel xn -> is_pixel xa ->
    let s' := snd (GaussianBlur_reverse n inp out iWidth F32.zero F32.zero F32.zero F32.zero
                     p q xn xa zero4 zero4 s) in
    forall b i, mem s' b i = mem s b i \/ mem s' b i = Int.u32 (mem s b i).
Proof.
  induction n as [|n IH]; intros p q xn xa s Hxn Hxa s' b i; subst s'.
  - left. reflexivity.
  - set (s1 := State (upd (mem s) out q (Int.u32 (mem s out q)))
                     (Store out q (Int.u32 (mem s out q)) :: Load out q :: Load inp p :: log s)).
    assert (Es : GaussianBlur_reverse (S n) inp out iWidth F32.zero F32.zero F32.zero F32.zero
                   p q xn xa zero4 zero4 s
                 = GaussianBlur_reverse n inp out iWidth F32.zero F32.zero F32.zero F32.zero
                     (p - iWidth) (q - iWidth) (dataUchar4ToFloat4 (peek32 (mem s) inp p)) xn
                     zero4 zero4 s1).
    { rewrite GaussianBlur_reverse_step. cbn zeta.
      rewrite blur_tap_null by assumption. rewrite pixel_plus_zero.
      unfold s1, peek32. rewrite !u32_idem. reflexivity. }
    rewrite Es.
    assert (H1 : mem s1 b i = mem s b i \/ mem s1 b i = Int.u32 (mem s b i)).
    { unfold s1. cbn [mem]. unfold upd.
      destruct (Nat.eqb_spec b out) as [->|]; [|left; reflexivity].
      destruct (Z.eqb_spec i q) as [->|]; [right|left]; reflexivity. }
    destruct (IH (p - iWidth) (q - iWidth) (dataUchar4ToFloat4 (peek32 (mem s) inp p)) xn s1
                ltac:(eexists; reflexivity) Hxn b i) as [E|E]; rewrite E.
    + exact H1.
    + destruct H1 as [->| ->]; [right; reflexivity|right; apply u32_idem].
Qed.

(** The unit filter.  With [a0 = 1] and every other coefficient 0, and with
    the edge coefficients that go with them, [coefp = 1] and [coefn = 0],
    [GaussianBlur] copies the column of its thread from the input to the
    output, with or without the clamp seeding. *)
Theorem GaussianBlur_unit_filter_copies (clamp : bool) (inp out : buffer)
    (iWidth iHeight : Z) (groupId localSize localId : uint2) (m : memory) (r : Z) :
  inp <> out ->
  0 <= blur_column groupId localSize localId < iWidth ->
  0 <= r < iHeight ->
  let x := blur_column groupId localSize localId in
  let s' := run (GaussianBlur clamp inp iWidth iHeight
                   F32.one F32.zero F32.zero F32.zero F32.zero F32.zero F32.one F32.zero
                   out groupId localSize localId) m in
  mem s' out (x + r * iWidth) = peek32 m inp (x + r * iWidth).
Proof.
  intros Hio Hx Hr x s'. subst s'. unfold run. fold x in Hx.
  assert (Hw : iWidth <> 0) by lia.
  set (n := Z.to_nat iHeight).
  assert (Er : r = Z.of_nat (Z.to_nat r)) by lia.
  assert (Hrn : (Z.to_nat r < n)%nat) by (unfold n; lia).
  assert (Hrev : forall p q xn xa s, is_pixel xn -> is_pixel xa ->
             mem s out (x + r * iWidth) = Int.u32 (mem s out (x + r * iWidth)) ->
             mem (snd (GaussianBlur_reverse n inp out iWidth F32.zero F32.zero F32.zero F32.zero
                         p q xn xa zero4 zero4 s)) out (x + r * iWidth)
             = mem s out (x + r * iWidth)).
  { intros p q xn xa s Hxn Hxa Hs.
    destruct (GaussianBlur_reverse_null inp out iWidth n p q xn xa s Hxn Hxa out
                (x + r * iWidth)) as [E|E]; rewrite E; [reflexivity|symmetry; exact Hs]. }
  assert (Hnorm : forall z, peek32 m inp z = Int.u32 (peek32 m inp z)).
  { intros z. unfold peek32. symmetry. apply u32_idem. }
  destruct clamp.
  - rewrite GaussianBlur_clamp_unfold. cbn zeta. fold x n.
    destruct (Z.geb_spec x iWidth) as [Hge|_]; [lia|].
    cbn [mem].
    rewrite pixel_times_one by (eexists; reflexivity).
    set (xp := dataUchar4ToFloat4 (peek32 m inp x)).
    set (s0 := State m _).
    pose proof (GaussianBlur_forward_unit inp out iWidth n Hio Hw x xp xp xp s0
                  ltac:(eexists; reflexivity) ltac:(eexists; reflexivity)
                  ltac:(eexists; reflexivity) (Z.to_nat r) Hrn) as Hf.
    cbv zeta in Hf. rewrite <- Er in Hf.
    set (res := GaussianBlur_forward n inp out iWidth F32.one F32.zero F32.zero F32.zero
                  x x xp xp xp s0) in *.
    rewrite pixel_times_zero by (eexists; reflexivity).
    rewrite Hrev; cbn [mem]; try (eexists; reflexivity).
    + exact Hf.
    + rewrite Hf. apply Hnorm.
  - rewrite GaussianBlur_unfold. cbn zeta. fold x n.
    destruct (Z.geb_spec x iWidth) as [Hge|_]; [lia|].
    pose proof (GaussianBlur_forward_unit inp out iWidth n Hio Hw x zero4 zero4 zero4
                  (State m []) (zero4_is_pixel) (zero4_is_pixel) (zero4_is_pixel)
                  (Z.to_nat r) Hrn) as Hf.
    cbv zeta in Hf. rewrite <- Er in Hf.
    set (res := GaussianBlur_forward n inp out iWidth F32.one F32.zero F32.zero F32.zero
                  x x zero4 zero4 zero4 (State m [])) in *.
    rewrite Hrev; try apply zero4_is_pixel.
    + exact Hf.
    + rewrite Hf. apply Hnorm.
Qed.

(** An image of no rows.  With [iHeight <= 0] neither loop of [GaussianBlur]
    runs and nothing is stored.  Without the clamp seeding a thread on a
    column of the image makes no access; with it, the thread still reads the
    two seeds, the second of them at [x - iWidth], one row above the image. *)
Theorem GaussianBlur_on_no_rows (clamp : bool) (inp out : buffer) (iWidth iHeight : Z)
    (a0 a1 a2 a3 b1 b2 coefp coefn : float) (groupId localSize localId : uint2)
    (m : memory) :
  iHeight <= 0 ->
  blur_column groupId localSize localId < iWidth ->
  let x := blur_column groupId localSize localId in
  run (GaussianBlur clamp inp iWidth iHeight a0 a1 a2 a3 b1 b2 coefp coefn out
         groupId localSize localId) m
  = State m (if clamp then [Load inp (x - iWidth); Load inp x] else []).
Proof.
  intros Hh Hx x. fold x in Hx. unfold run.
  assert (En : Z.to_nat iHeight = 0%nat) by lia.
  destruct clamp.
  - rewrite GaussianBlur_clamp_unfold. cbn zeta. fold x. rewrite En.
    destruct (Z.geb_spec x iWidth) as [Hge|_]; [lia|].
    cbn [GaussianBlur_forward GaussianBlur_reverse ret fst snd mem log]. reflexivity.
  - rewrite GaussianBlur_unfold. cbn zeta. fold x. rewrite En.
    destruct (Z.geb_spec x iWidth) as [Hge|_]; [lia|].
    reflexivity.
Qed.

Lemma GaussianBlur_on_no_rows_witness :
  let m := mem_of [(slot0, [1; 2; 3; 4])] in
  run (GaussianBlur true slot0 2 0 F32.one F32.zero F32.zero F32.zero F32.zero F32.zero
         F32.one F32.zero slot1 (0, 0) (1, 1) (1, 0)) m
  = State m [Load slot0 (1 - 2); Load slot0 1].
Proof.
  apply (GaussianBlur_on_no_rows true slot0 slot1 2 0
           F32.one F32.zero F32.zero F32.zero F32.zero F32.zero F32.one F32.zero
           (0, 0) (1, 1) (1, 0)).
  - lia.
  - change (blur_column (0, 0) (1, 1) (1, 0)) with 1. lia.
Defined.

Section BlurThreads.

Variables (inp out : buffer) (iWidth : Z).
Hypothesis inp_out : inp <> out.
Hypothesis width_nonzero : iWidth <> 0.

(** Two runs of the forward loop from states with the same input store the
    same words. *)
Lemma GaussianBlur_forward_agree (a0 a1 b1 b2 : float) (n : nat) :
  forall (p q : Z) (xp yp yb : float4) (s s' : state),
    (forall i, mem s inp i = mem s' inp i) ->
    let res := GaussianBlur_forward n inp out iWidth a0 a1 b1 b2 p q xp yp yb s in
    let res' := GaussianBlur_forward n inp out iWidth a0 a1 b1 b2 p q xp yp yb s' in
    forall j, (j < n)%nat ->
      mem (snd res) out (q + Z.of_nat j * iWidth) = mem (snd res') out (q + Z.of_nat j * iWidth).
Proof.
  induction n as [|n IH]; intros p q xp yp yb s s' Hs res res' j Hj; [lia|].
  subst res res'. rewrite !GaussianBlur_forward_step. cbn zeta.
  assert (Ep : peek32 (mem s) inp p = peek32 (mem s') inp p)
    by (unfold peek32; rewrite Hs; reflexivity).
  rewrite <- Ep.
  set (xc := dataUchar4ToFloat4 (peek32 (mem s) inp p)).
  set (yc := blur_tap a0 a1 b1 b2 xc xp yp yb).
  set (v := Int.u32 (dataFloat4ToUchar4 yc)).
  set (s1 := State (upd (mem s) out q v) _).
  set (s1' := State (upd (mem s') out q v) _).
  destruct j as [|j].
  - destruct (GaussianBlur_forward_frame inp out iWidth a0 a1 b1 b2 n
                (p + iWidth) (q + iWidth) xc yc yp s1) as [_ Hm].
    destruct (GaussianBlur_forward_frame inp out iWidth a0 a1 b1 b2 n
                (p + iWidth) (q + iWidth) xc yc yp s1') as [_ Hm'].
    rewrite Hm, Hm'.
    + unfold s1, s1'. cbn [mem]. replace (q + Z.of_nat 0 * iWidth) with q by lia.
      rewrite !upd_same. reflexivity.
    + right. intros k Hk. nia.
    + right. intros k Hk. nia.
  - replace (q + Z.of_nat (S j) * iWidth) with (q + iWidth + Z.of_nat j * iWidth) by lia.
    apply IH; [|lia].
    intros i. unfold s1, s1'. cbn [mem]. rewrite !upd_other_buffer by exact inp_out.
    apply Hs.
Qed.

(** The same for the reverse loop, which also reads the cells it stores to. *)
Lemma GaussianBlur_reverse_agree (a2 a3 b1 b2 : float) (n : nat) :
  forall (p q : Z) (xn xa yn ya : float4) (s s' : state),
    (forall i, mem s inp i = mem s' inp i) ->
    (forall j, (j < n)%nat ->
       mem s out (q - Z.of_nat j * iWidth) = mem s' out (q - Z.of_nat j * iWidth)) ->
    let r := snd (GaussianBlur_reverse n inp out iWidth a2 a3 b1 b2 p q xn xa yn ya s) in
    let r' := snd (GaussianBlur_reverse n inp out iWidth a2 a3 b1 b2 p q xn xa yn ya s') in
    forall j, (j < n)%nat ->
      mem r out (q - Z.of_nat j * iWidth) = mem r' out (q - Z.of_nat j * iWidth).
Proof.
  induction n as [|n IH]; intros p q xn xa yn ya s s' Hs Ho r r' j Hj; [lia|].
  subst r r'. rewrite !GaussianBlur_reverse_step. cbn zeta.
  assert (Ep : peek32 (mem s) inp p = peek32 (mem s') inp p)
    by (unfold peek32; rewrite Hs; reflexivity).
  assert (Eq : peek32 (mem s) out q = peek32 (mem s') out q).
  { unfold peek32. specialize (Ho 0%nat ltac:(lia)).
    replace (q - Z.of_nat 0 * iWidth) with q in Ho by lia. rewrite Ho. reflexivity. }
  rewrite <- Ep, <- Eq.
  set (xc := dataUchar4ToFloat4 (peek32 (mem s) inp p)).
  set (yc := blur_tap a2 a3 b1 b2 xn xa yn ya).
  set (v := Int.u32 (dataFloat4ToUchar4 (add4 (dataUchar4ToFloat4 (peek32 (mem s) out q)) yc))).
  set (s1 := State (upd (mem s) out q v) _).
  set (s1' := State (upd (mem s') out q v) _).
  destruct j as [|j].
  - rewrite !GaussianBlur_reverse_frame by (right; intros k Hk; nia).
    unfold s1, s1'. cbn [mem]. replace (q - Z.of_nat 0 * iWidth) with q by lia.
    rewrite !upd_same. reflexivity.
  - replace (q - Z.of_nat (S j) * iWidth) with (q - iWidth - Z.of_nat j * iWidth) by lia.
    apply IH; [| |lia].
    + intros i. unfold s1, s1'. cbn [mem]. rewrite !upd_other_buffer by exact inp_out.
      apply Hs.
    + intros k Hk. unfold s1, s1'. cbn [mem].
      rewrite !upd_other_index by nia.
      replace (q - iWidth - Z.of_nat k * iWidth) with (q - Z.of_nat (S k) * iWidth) by lia.
      apply Ho. lia.
Qed.

End BlurThreads.

(** Two threads on the same column, from states with the same input, leave
    the same column. *)
Lemma GaussianBlur_thread_value (clamp : bool) (inp out : buffer) (iWidth iHeight : Z)
    (a0 a1 a2 a3 b1 b2 coefp coefn : float) (t t' : thread_ids) (s s' : state) (r : Z) :
  inp <> out ->
  (forall i, mem s inp i = mem s' inp i) ->
  let k := on_thread (GaussianBlur clamp inp iWidth iHeight a0 a1 a2 a3 b1 b2 coefp coefn out) in
  let x := on_thread blur_column t in
  on_thread blur_column t' = x -> 0 <= x < iWidth -> 0 <= r < iHeight ->
  mem (snd (k t s)) out (x + r * iWidth) = mem (snd (k t' s')) out (x + r * iWidth).
Proof.
  intros Hio Hs k x Ex Hx Hr. subst k. unfold on_thread in *.
  assert (Et : blur_column (group_of t) (size_of t) (local_of t) = x) by reflexivity.
  clearbody x.
  assert (Hw : iWidth <> 0) by lia.
  remember (Z.to_nat iHeight) as n eqn:En.
  assert (Main : forall xp yp yb s0 s0' (cl : bool),
             (forall i, mem s0 inp i = mem s0' inp i) ->
             let res := GaussianBlur_forward n inp out iWidth a0 a1 b1 b2 x x xp yp yb s0 in
             let res' := GaussianBlur_forward n inp out iWidth a0 a1 b1 b2 x x xp yp yb s0' in
             fst res = (x + Z.of_nat n * iWidth, x + Z.of_nat n * iWidth) /\
             fst res' = (x + Z.of_nat n * iWidth, x + Z.of_nat n * iWidth) /\
             (forall i, mem (snd res) inp i = mem (snd res') inp i) /\
             forall p xn xa yn ya l l',
               mem (snd (GaussianBlur_reverse n inp out iWidth a2 a3 b1 b2 p
                           (x + Z.of_nat n * iWidth - iWidth) xn xa yn ya
                           (State (mem (snd res)) l))) out (x + r * iWidth)
               = mem (snd (GaussianBlur_reverse n inp out iWidth a2 a3 b1 b2 p
                             (x + Z.of_nat n * iWidth - iWidth) xn xa yn ya
                             (State (mem (snd res')) l'))) out (x + r * iWidth)).
  { intros xp yp yb s0 s0' cl Hs0 res res'.
    destruct (GaussianBlur_forward_frame inp out iWidth a0 a1 b1 b2 n x x xp yp yb s0)
      as [Hp Hm].
    destruct (GaussianBlur_forward_frame inp out iWidth a0 a1 b1 b2 n x x xp yp yb s0')
      as [Hp' Hm'].
    fold res in Hp, Hm. fold res' in Hp', Hm'.
    assert (Hi : forall i, mem (snd res) inp i = mem (snd res') inp i).
    { intros i. rewrite Hm, Hm' by (left; exact Hio). apply Hs0. }
    split; [exact Hp|]. split; [exact Hp'|]. split; [exact Hi|].
    intros p xn xa yn ya l l'.
    pose proof (GaussianBlur_reverse_agree inp out iWidth Hio Hw a2 a3 b1 b2 n p
                  (x + Z.of_nat n * iWidth - iWidth) xn xa yn ya
                  (State (mem (snd res)) l) (State (mem (snd res')) l') Hi) as Hrev.
    cbv zeta in Hrev. cbn [mem] in Hrev.
    assert (Hcells : forall j, (j < n)%nat ->
               mem (snd res) out (x + Z.of_nat n * iWidth - iWidth - Z.of_nat j * iWidth)
               = mem (snd res') out (x + Z.of_nat n * iWidth - iWidth - Z.of_nat j * iWidth)).
    { intros j Hj.
      replace (x + Z.of_nat n * iWidth - iWidth - Z.of_nat j * iWidth)
        with (x + Z.of_nat (n - 1 - j) * iWidth) by nia.
      apply (GaussianBlur_forward_agree inp out iWidth Hio Hw a0 a1 b1 b2 n x x xp yp yb
               s0 s0' Hs0). lia. }
    specialize (Hrev Hcells (n - 1 - Z.to_nat r)%nat ltac:(lia)).
    replace (x + Z.of_nat n * iWidth - iWidth - Z.of_nat (n - 1 - Z.to_nat r) * iWidth)
      with (x + r * iWidth) in Hrev by nia.
    exact Hrev. }
  destruct clamp.
  - rewrite !GaussianBlur_clamp_unfold. cbn zeta. rewrite Ex, Et, <- En.
    destruct (Z.geb_spec x iWidth) as [Hge|_]; [lia|].
    assert (Ep : peek32 (mem s) inp x = peek32 (mem s') inp x)
      by (unfold peek32; rewrite Hs; reflexivity).
    rewrite <- Ep.
    match goal with
    | |- context [GaussianBlur_forward n inp out iWidth a0 a1 b1 b2 x x ?xp ?yp ?yb
                    (State (mem s) ?l)] =>
        match goal with
        | |- context [GaussianBlur_forward n inp out iWidth a0 a1 b1 b2 x x xp yp yb
                        (State (mem s') ?l')] =>
            destruct (Main xp yp yb (State (mem s) l) (State (mem s') l') true Hs)
              as (Hp & Hp' & Hi & Hrev);
            set (res := GaussianBlur_forward n inp out iWidth a0 a1 b1 b2 x x xp yp yb
                          (State (mem s) l)) in *;
            set (res' := GaussianBlur_forward n inp out iWidth a0 a1 b1 b2 x x xp yp yb
                           (State (mem s') l')) in *
        end
    end.
    rewrite Hp, Hp'. cbn [fst snd].
    assert (Eq : peek32 (mem (snd res)) inp (x + Z.of_nat n * iWidth - iWidth)
                 = peek32 (mem (snd res')) inp (x + Z.of_nat n * iWidth - iWidth))
      by (unfold peek32; rewrite Hi; reflexivity).
    rewrite <- Eq. apply Hrev.
  - rewrite !GaussianBlur_unfold. cbn zeta. rewrite Ex, Et, <- En.
    destruct (Z.geb_spec x iWidth) as [Hge|_]; [lia|].
    destruct (Main zero4 zero4 zero4 s s' false Hs) as (Hp & Hp' & Hi & Hrev).
    set (res := GaussianBlur_forward n inp out iWidth a0 a1 b1 b2 x x zero4 zero4 zero4 s) in *.
    set (res' := GaussianBlur_forward n inp out iWidth a0 a1 b1 b2 x x zero4 zero4 zero4 s') in *.
    rewrite Hp, Hp'. cbn [fst snd].
    specialize (Hrev (x + Z.of_nat n * iWidth - iWidth) zero4 zero4 zero4 zero4
                  (log (snd res)) (log (snd res'))).
    destruct (snd res) as [m1 l1], (snd res') as [m1' l1']. exact Hrev.
Qed.

(** The threads of [GaussianBlur] do not interfere.  When the output is not
    the input and no thread has a negative column, a dispatch of any threads,
    in any order and with repeats, leaves in each row of the column of a
    thread of the list what that thread stores when it runs alone on the
    initial memory. *)
Theorem GaussianBlur_threads_are_independent (clamp : bool) (inp out : buffer)
    (iWidth iHeight : Z) (a0 a1 a2 a3 b1 b2 coefp coefn : float)
    (threads : list thread_ids) (t : thread_ids) (m : memory) (r : Z) :
  inp <> out ->
  Forall (fun t' => 0 <= on_thread blur_column t') threads ->
  In t threads ->
  on_thread blur_column t < iWidth -> 0 <= r < iHeight ->
  let k := on_thread (GaussianBlur clamp inp iWidth iHeight a0 a1 a2 a3 b1 b2 coefp coefn out) in
  let cell := on_thread blur_column t + r * iWidth in
  mem (run (dispatch k threads) m) out cell = mem (run (k t) m) out cell.
Proof.
  intros Hio Hall Hin Hx Hr k cell. unfold run.
  set (x := on_thread blur_column t) in *.
  assert (Hx0 : 0 <= x) by (rewrite Forall_forall in Hall; apply (Hall t Hin)).
  set (V := mem (snd (k t (State m []))) out cell).
  assert (G : forall s, (forall i, mem s inp i = m inp i) ->
            In t threads \/ mem s out cell = V ->
            mem (snd (dispatch k threads s)) out cell = V).
  { clear Hin. induction Hall as [|t' rest Ht' Hrest IH]; intros s Hs Hor.
    - rewrite dispatch_nil. destruct Hor as [[]|E]. exact E.
    - rewrite dispatch_cons.
      assert (Hs1 : forall i, mem (snd (k t' s)) inp i = m inp i).
      { intros i. unfold k, on_thread. rewrite GaussianBlur_thread_frame by (left; exact Hio).
        apply Hs. }
      apply IH; [exact Hs1|].
      destruct (Z.eq_dec (on_thread blur_column t') x) as [Ec|Ec].
      + right. unfold V, cell. symmetry.
        apply (GaussianBlur_thread_value clamp inp out iWidth iHeight a0 a1 a2 a3 b1 b2
                 coefp coefn t t' (State m []) s r Hio); [|exact Ec|fold x; lia|exact Hr].
        intros i. symmetry. apply Hs.
      + destruct Hor as [[->|Hin]|E]; [contradiction|left; exact Hin|right].
        unfold k at 1, on_thread. rewrite GaussianBlur_thread_frame; [exact E|].
        fold (on_thread blur_column t').
        destruct (Z_le_dec iWidth (on_thread blur_column t')) as [Hout|Hin'];
          [right; right; exact Hout|right; left].
        intros r' Hr' E'. unfold cell in E'. apply Ec.
        destruct (offset_inj iWidth x r (on_thread blur_column t') r' ltac:(lia) ltac:(lia)
                    ltac:(lia)) as [Ex _].
        symmetry. exact Ex. }
  apply G; [reflexivity|left; exact Hin].
Qed.

(** ** Threads outside the image *)

(** A [Fusion] thread makes no access, and leaves the memory as it is,
    exactly when its position, taken as unsigned, is outside [iWidth] by
    [iHeight]. *)
Theorem Fusion_idle_iff_outside (puiDataIn pucFrame piLabelIn : buffer)
    (iWidth iHeight : Z) (fMinThresh fMaxThresh : float) (puiDataOut : buffer)
    (groupId localSize localId : uint2) (m : memory) :
  run (Fusion puiDataIn pucFrame piLabelIn iWidth iHeight fMinThresh fMaxThresh
         puiDataOut groupId localSize localId) m = State m []
  <-> (Int.u32 iWidth <= fusion_X groupId localSize localId \/
       Int.u32 iHeight <= fusion_Y groupId localSize localId).
Proof.
  unfold run, Fusion. fold (fusion_X groupId localSize localId).
  fold (fusion_Y groupId localSize localId).
  destruct (Z.ltb_spec (fusion_X groupId localSize localId) (Int.u32 iWidth)) as [HX|HX];
    [destruct (Z.ltb_spec (fusion_Y groupId localSize localId) (Int.u32 iHeight)) as [HY|HY]|];
    cbn [andb].
  - split; [|lia]. cbn [bind load32 load8 vload4 store32 ret snd fst log mem].
    discriminate.
  - split; [right; exact HY|reflexivity].
  - split; [left; exact HX|reflexivity].
Qed.

(** A [ResizeBillinear] thread makes no access exactly when its column is not
    below [dst_cols] or its row not below [dst_rows], both taken as [int]. *)
Theorem ResizeBillinear_idle_iff_outside (srcptr : buffer) (src_step src_rows src_cols : Z)
    (ifx ify : float) (dstptr : buffer) (dst_step dst_rows dst_cols : Z)
    (index : uint2) (m : memory) :
  run (ResizeBillinear srcptr src_step src_rows src_cols ifx ify
         dstptr dst_step dst_rows dst_cols index) m = State m []
  <-> (dst_cols <= Int.s32 (fst index) \/ dst_rows <= Int.s32 (snd index)).
Proof.
  unfold run, ResizeBillinear.
  destruct (Z.ltb_spec (Int.s32 (fst index)) dst_cols) as [HX|HX];
    [destruct (Z.ltb_spec (Int.s32 (snd index)) dst_rows) as [HY|HY]|];
    cbn [andb].
  - split; [|lia].
    repeat match goal with
           | |- context [if ?c then (_, _) else (_, _)] => destruct c
           end;
      cbn [bind load8 store8 ret snd fst log mem]; discriminate.
  - split; [right; exact HY|reflexivity].
  - split; [left; exact HX|reflexivity].
Qed.

(** The only test of [NV12_I420] compares the row of the thread with the
    width of the destination: a thread makes no access exactly when its row
    is not below [dstConfig[CONFIG_WIDTH]].  Its column and the height of the
    image play no part. *)
Theorem NV12_I420_idle_iff_row_reaches_width (src : buffer) (srcConfig : config)
    (dsty dstu dstv : buffer) (dstConfig : config) (RectConfig : rect_config)
    (index : uint2) (m : memory) :
  run (NV12_I420 src srcConfig dsty dstu dstv dstConfig RectConfig index) m = State m []
  <-> cfg dstConfig CONFIG_WIDTH <= Int.s32 (snd index).
Proof.
  unfold run, NV12_I420. cbn [fst snd].
  destruct (Z.geb_spec (Int.s32 (snd index)) (cfg dstConfig CONFIG_WIDTH)) as [H|H].
  - split; [lia|reflexivity].
  - split; [|lia].
    match goal with |- context [if ?c then _ else ret tt] => destruct c end;
      cbn [bind load_uchar2 load8 store8 ret snd fst log mem]; discriminate.
Qed.

(** [I420_NV12] tests both axes: a thread makes no access exactly when its row
    is not below [srcConfig[CONFIG_HEIGHT]] or its column not below
    [srcConfig[CONFIG_WIDTH]]. *)
Theorem I420_NV12_idle_iff_outside (srcy srcu srcv : buffer) (srcConfig : config)
    (dst : buffer) (dstConfig : config) (RectConfig : rect_config)
    (index : uint2) (m : memory) :
  run (I420_NV12 srcy srcu srcv srcConfig dst dstConfig RectConfig index) m = State m []
  <-> (cfg srcConfig CONFIG_HEIGHT <= Int.s32 (snd index) \/
       cfg srcConfig CONFIG_WIDTH <= Int.s32 (fst index)).
Proof.
  unfold run, I420_NV12. cbn [fst snd].
  destruct (Z.geb_spec (Int.s32 (snd index)) (cfg srcConfig CONFIG_HEIGHT)) as [H|H];
    [|destruct (Z.geb_spec (Int.s32 (fst index)) (cfg srcConfig CONFIG_WIDTH)) as [H'|H']].
  - split; [left; lia|reflexivity].
  - split; [right; lia|reflexivity].
  - split; [|lia].
    match goal with |- context [if ?c then _ else ret tt] => destruct c end;
      cbn [bind load_uchar2 store_uchar2 load8 store8 ret snd fst log mem]; discriminate.
Qed.

Lemma writes_to_In (b : buffer) (i v : Z) (l : list access) :
  In (Store b i v) l -> In (i, v) (writes_to b l).
Proof.
  induction l as [|a l IH]; [intros []|].
  intros [E|H].
  - subst a. cbn [writes_to]. rewrite Nat.eqb_refl. apply in_or_app. right. left. reflexivity.
  - destruct a as [b' i' | b' i' v']; cbn [writes_to]; [exact (IH H)|].
    destruct (Nat.eqb b' b); [apply in_or_app; left|]; exact (IH H).
Qed.

(** [ScaleConvert_NV12_I420] has no test at all: whatever the position of the
    thread, it reads four bytes of [src] and stores a luma byte to [dst_y],
    at the offset of its position moved by the origin of the destination. *)
Theorem ScaleConvert_NV12_I420_always_stores (src : buffer) (srcConfig : config)
    (dst_y dst_u dst_v : buffer) (dstConfig : config) (RectConfig : rect_config)
    (index : uint2) (m : memory) :
  let s' := run (ScaleConvert_NV12_I420 src srcConfig dst_y dst_u dst_v dstConfig
                   RectConfig index) m in
  let dstNum :=
    Int.mad24 (Int.s32 (Int.s32 (snd index) + cfg dstConfig CONFIG_Y))
      (cfg dstConfig CONFIG_WIDTH)
      (Int.s32 (Int.s32 (fst index) + cfg dstConfig CONFIG_X)) in
  In dstNum (map fst (writes_to dst_y (log s'))) /\
  (5 <= length (log s'))%nat.
Proof.
  intros s' dstNum. subst s'. unfold run, ScaleConvert_NV12_I420. cbn [fst snd].
  fold dstNum.
  match goal with |- context [if ?c then _ else ret tt] => destruct c end;
    cbn [bind load_uchar2 load8 store8 ret snd fst log mem length];
    (split; [|lia]); apply in_map_iff; eexists (_, _); (split; [reflexivity|]);
    apply writes_to_In; cbn [In]; tauto.
Qed.

(** [Fusion] changes one word at most: a thread leaves every cell as it was
    except the word of the output at its own offset, whatever its position;
    the blurred image, the frame and the mask are read only, unless one of
    them is the output buffer itself. *)
Theorem Fusion_changes_one_word (puiDataIn pucFrame piLabelIn : buffer)
    (iWidth iHeight : Z) (fMinThresh fMaxThresh : float) (puiDataOut : buffer)
    (groupId localSize localId : uint2) (m : memory) (b : buffer) (i : Z) :
  b <> puiDataOut \/ i <> fusion_offset iWidth groupId localSize localId ->
  mem (run (Fusion puiDataIn pucFrame piLabelIn iWidth iHeight fMinThresh fMaxThresh
              puiDataOut groupId localSize localId) m) b i = m b i.
Proof.
  intros Hbi. unfold run, Fusion.
  fold (fusion_X groupId localSize localId) (fusion_Y groupId localSize localId).
  fold (fusion_offset iWidth groupId localSize localId).
  destruct ((fusion_X groupId localSize localId <? Int.u32 iWidth)
            && (fusion_Y groupId localSize localId <? Int.u32 iHeight)); [|reflexivity].
  cbn [bind load32 load8 vload4 store32 ret snd fst log mem].
  destruct Hbi as [Hb|Hi]; [apply upd_other_buffer, Hb|apply upd_other_index, Hi].
Qed.

Lemma Fusion_changes_one_word_witness :
  let m := mem_of [(slot0, [7; 8]); (slot1, [1; 2; 3; 4; 5; 6; 7; 8]); (slot2, [0; 255])] in
  mem (run (Fusion slot0 slot1 slot2 2 1 F32.half F32.one slot3 (0, 0) (2, 1) (1, 0)) m)
    slot3 0 = 0.
Proof.
  apply (Fusion_changes_one_word slot0 slot1 slot2 2 1 F32.half F32.one slot3
           (0, 0) (2, 1) (1, 0)).
  right. vm_compute. discriminate.
Defined.

(** ** Threads do not interfere *)

(** The word an in-bounds [Fusion] thread stores depends on its offset and
    on the three inputs only. *)
Lemma Fusion_thread_value (puiDataIn pucFrame piLabelIn : buffer) (iWidth iHeight : Z)
    (fMinThresh fMaxThresh : float) (puiDataOut : buffer) (t t' : thread_ids)
    (s s' : state) :
  (forall b i, b <> puiDataOut -> mem s b i = mem s' b i) ->
  puiDataIn <> puiDataOut -> pucFrame <> puiDataOut -> piLabelIn <> puiDataOut ->
  fusion_X (group_of t) (size_of t) (local_of t) < Int.u32 iWidth ->
  fusion_Y (group_of t) (size_of t) (local_of t) < Int.u32 iHeight ->
  fusion_X (group_of t') (size_of t') (local_of t') < Int.u32 iWidth ->
  fusion_Y (group_of t') (size_of t') (local_of t') < Int.u32 iHeight ->
  fusion_offset iWidth (group_of t) (size_of t) (local_of t)
  = fusion_offset iWidth (group_of t') (size_of t') (local_of t') ->
  let k := on_thread (Fusion puiDataIn pucFrame piLabelIn iWidth iHeight
                        fMinThresh fMaxThresh puiDataOut) in
  let off := fusion_offset iWidth (group_of t) (size_of t) (local_of t) in
  mem (snd (k t s)) puiDataOut off = mem (snd (k t' s')) puiDataOut off.
Proof.
  intros Hs N1 N2 N3 HX HY HX' HY' Eo k off. subst k off. unfold on_thread, Fusion.
  fold (fusion_X (group_of t) (size_of t) (local_of t))
       (fusion_Y (group_of t) (size_of t) (local_of t))
       (fusion_X (group_of t') (size_of t') (local_of t'))
       (fusion_Y (group_of t') (size_of t') (local_of t')).
  fold (fusion_offset iWidth (group_of t) (size_of t) (local_of t)).
  fold (fusion_offset iWidth (group_of t') (size_of t') (local_of t')).
  apply Z.ltb_lt in HX, HY, HX', HY'. rewrite HX, HY, HX', HY', <- Eo. cbn [andb].
  cbn [bind load32 load8 vload4 store32 ret snd fst log mem].
  rewrite !upd_same. unfold peek32, peek8.
  rewrite !(Hs puiDataIn) by exact N1. rewrite !(Hs pucFrame) by exact N2.
  rewrite !(Hs piLabelIn) by exact N3. reflexivity.
Qed.

(** A [Fusion] thread on any state changes one word at most, and none when
    it is out of bounds. *)
Lemma Fusion_thread_frame (puiDataIn pucFrame piLabelIn : buffer) (iWidth iHeight : Z)
    (fMinThresh fMaxThresh : float) (puiDataOut : buffer) (t : thread_ids)
    (s : state) (b : buffer) (i : Z) :
  let k := on_thread (Fusion puiDataIn pucFrame piLabelIn iWidth iHeight
                        fMinThresh fMaxThresh puiDataOut) in
  b <> puiDataOut \/ i <> fusion_offset iWidth (group_of t) (size_of t) (local_of t) \/
  ~ (fusion_X (group_of t) (size_of t) (local_of t) < Int.u32 iWidth /\
     fusion_Y (group_of t) (size_of t) (local_of t) < Int.u32 iHeight) ->
  mem (snd (k t s)) b i = mem s b i.
Proof.
  intros k Hbi. subst k. unfold on_thread, Fusion.
  fold (fusion_X (group_of t) (size_of t) (local_of t))
       (fusion_Y (group_of t) (size_of t) (local_of t)).
  fold (fusion_offset iWidth (group_of t) (size_of t) (local_of t)).
  destruct (Z.ltb_spec (fusion_X (group_of t) (size_of t) (local_of t)) (Int.u32 iWidth));
    [|reflexivity].
  destruct (Z.ltb_spec (fusion_Y (group_of t) (size_of t) (local_of t)) (Int.u32 iHeight));
    [|reflexivity].
  cbn [andb bind load32 load8 vload4 store32 ret snd fst log mem].
  destruct Hbi as [Hb|[Hi|Hout]];
    [apply upd_other_buffer, Hb|apply upd_other_index, Hi|exfalso; apply Hout; split; assumption].
Qed.

(** The threads of [Fusion] do not interfere.  When the output is none of
    the three inputs, a dispatch of any threads, in any order and with
    repeats, leaves at the offset of each in-bounds thread of the list the
    word that thread stores when it runs alone on the initial memory. *)
Theorem Fusion_threads_are_independent (puiDataIn pucFrame piLabelIn : buffer)
    (iWidth iHeight : Z) (fMinThresh fMaxThresh : float) (puiDataOut : buffer)
    (threads : list thread_ids) (t : thread_ids) (m : memory) :
  puiDataIn <> puiDataOut -> pucFrame <> puiDataOut -> piLabelIn <> puiDataOut ->
  In t threads ->
  fusion_X (group_of t) (size_of t) (local_of t) < Int.u32 iWidth ->
  fusion_Y (group_of t) (size_of t) (local_of t) < Int.u32 iHeight ->
  let k := on_thread (Fusion puiDataIn pucFrame piLabelIn iWidth iHeight
                        fMinThresh fMaxThresh puiDataOut) in
  let off := fusion_offset iWidth (group_of t) (size_of t) (local_of t) in
  mem (run (dispatch k threads) m) puiDataOut off = mem (run (k t) m) puiDataOut off.
Proof.
  intros N1 N2 N3 Hin HX HY k off. unfold run.
  set (V := mem (snd (k t (State m []))) puiDataOut off).
  assert (G : forall s, (forall b i, b <> puiDataOut -> mem s b i = m b i) ->
            In t threads \/ mem s puiDataOut off = V ->
            mem (snd (dispatch k threads s)) puiDataOut off = V).
  { clear Hin. induction threads as [|t' rest IH]; intros s Hs Hor.
    - rewrite dispatch_nil. destruct Hor as [[]|E]. exact E.
    - rewrite dispatch_cons.
      assert (Hs1 : forall b i, b <> puiDataOut -> mem (snd (k t' s)) b i = m b i).
      { intros b i Hb. unfold k. rewrite Fusion_thread_frame by (left; exact Hb).
        apply Hs, Hb. }
      apply IH; [exact Hs1|].
      destruct Hor as [[->|Hin]|E]; [right|left; exact Hin|].
      + unfold V, k, off. apply Fusion_thread_value; try assumption; reflexivity.
      + right.
        destruct (Z.eq_dec off (fusion_offset iWidth (group_of t') (size_of t') (local_of t')))
          as [Eo|Eo];
          [destruct (Z_lt_dec (fusion_X (group_of t') (size_of t') (local_of t'))
                       (Int.u32 iWidth)) as [HX'|HX'];
           [destruct (Z_lt_dec (fusion_Y (group_of t') (size_of t') (local_of t'))
                        (Int.u32 iHeight)) as [HY'|HY']|]|].
        * unfold V, k, off. symmetry.
          apply Fusion_thread_value; try assumption.
          intros b i Hb. symmetry. apply Hs, Hb.
        * unfold k. rewrite Fusion_thread_frame by (right; right; tauto). exact E.
        * unfold k. rewrite Fusion_thread_frame by (right; right; tauto). exact E.
        * unfold k. rewrite Fusion_thread_frame by (right; left; exact Eo). exact E. }
  apply G; [reflexivity|left; exact Hin].
Qed.

(** ** ResizeBillinear: the reads stay inside the source *)

Lemma INC_range (x l : Z) : 0 <= x < l -> l < 2 ^ 31 -> x <= Int.INC x l < l.
Proof.
  intros Hx Hl. unfold Int.INC. rewrite !s32_small by lia. lia.
Qed.

Lemma clamped_coordinate (c n : Z) :
  1 <= n < 2 ^ 31 ->
  let c1 := if c <? 0 then 0 else c in
  let c2 := if c1 >=? n then Int.s32 (n - 1) else c1 in
  0 <= c2 < n.
Proof.
  intros Hn c1 c2. subst c1 c2.
  destruct (Z.ltb_spec c 0).
  - destruct (Z.geb_spec 0 n); [rewrite s32_small by lia|]; lia.
  - destruct (Z.geb_spec c n); [rewrite s32_small by lia|]; lia.
Qed.

(** Every byte [ResizeBillinear] reads is a pixel of the source: for a source
    of at least one row and one column, rows [src_step] bytes apart, each of
    the four loads of a thread is at [y * src_step + x] with [x] below
    [src_cols] and [y] below [src_rows], whatever the scale factors and the
    position of the thread; the clamps of the coordinates and of their [+1]
    neighbours see to it. *)
Theorem ResizeBillinear_reads_inside_source (srcptr : buffer)
    (src_step src_rows src_cols : Z) (ifx ify : float) (dstptr : buffer)
    (dst_step dst_rows dst_cols : Z) (index : uint2) (m : memory) (b : buffer) (i : Z) :
  1 <= src_rows < 2 ^ 23 -> 1 <= src_cols <= src_step -> src_step < 2 ^ 23 ->
  src_rows * src_step < 2 ^ 31 ->
  In (Load b i)
     (log (run (ResizeBillinear srcptr src_step src_rows src_cols ifx ify
                  dstptr dst_step dst_rows dst_cols index) m)) ->
  b = srcptr /\
  exists x y, 0 <= x < src_cols /\ 0 <= y < src_rows /\ i = y * src_step + x.
Proof.
  intros Hrows Hcols Hstep Hsz. unfold run, ResizeBillinear.
  destruct ((Int.s32 (fst index) <? dst_cols) && (Int.s32 (snd index) <? dst_rows));
    [|intros []].
  match goal with
  | |- context [F32.to_int (F32.floor ?sx)] =>
      generalize (F32.sub sx (F32.of_Z (F32.to_int (F32.floor sx))));
      generalize (F32.to_int (F32.floor sx))
  end.
  intros X0 U0.
  match goal with
  | |- context [F32.to_int (F32.floor ?sy)] =>
      generalize (F32.sub sy (F32.of_Z (F32.to_int (F32.floor sy))));
      generalize (F32.to_int (F32.floor sy))
  end.
  intros Y0 V0.
  pose proof (clamped_coordinate X0 src_cols ltac:(lia)) as HX.
  pose proof (clamped_coordinate Y0 src_rows ltac:(lia)) as HY.
  cbv zeta in HX, HY.
  destruct (X0 <? 0); destruct (Y0 <? 0);
    match goal with
    | |- context [if ?c >=? src_cols then _ else _] => destruct (c >=? src_cols)
    end;
    match goal with
    | |- context [if ?c >=? src_rows then _ else _] => destruct (c >=? src_rows)
    end;
    cbn [bind load8 store8 ret snd fst log mem In];
    match type of HX with 0 <= ?x < _ =>
      match type of HY with 0 <= ?y < _ =>
        pose proof (INC_range x src_cols HX ltac:(lia)) as HX';
        pose proof (INC_range y src_rows HY ltac:(lia)) as HY';
        set (x' := Int.INC x src_cols) in *; set (y' := Int.INC y src_rows) in *;
        assert (B : forall u v, 0 <= u < src_cols -> 0 <= v < src_rows ->
                      Int.mad24 v src_step u = v * src_step + u /\
                      0 <= v * src_step + u < 2 ^ 31)
      end
    end.
  all: try (intros u v Hu Hv;
            assert (0 <= v * src_step /\ v * src_step + src_step <= src_rows * src_step)
              by (split; nia);
            split; [apply mad24_small; lia|lia]).
  all: intros [E|[E|[E|[E|[E|[]]]]]]; try discriminate E; injection E as <- <-;
    (split; [reflexivity|]);
    match goal with
    | |- exists x y, _ /\ _ /\ Int.mad24 ?v _ ?u = _ =>
        exists u, v; destruct (B u v ltac:(lia) ltac:(lia)) as [Em _];
        split; [lia|split; [lia|exact Em]]
    end.
Qed.

(** A [ResizeBillinear] thread on any state changes one byte at most, and
    none when it is outside the destination. *)
Lemma ResizeBillinear_thread_frame (srcptr : buffer) (src_step src_rows src_cols : Z)
    (ifx ify : float) (dstptr : buffer) (dst_step dst_rows dst_cols : Z)
    (index : uint2) (s : state) (b : buffer) (i : Z) :
  b <> dstptr \/ i <> Int.mad24 (Int.s32 (snd index)) dst_step (Int.s32 (fst index)) \/
  ~ (Int.s32 (fst index) < dst_cols /\ Int.s32 (snd index) < dst_rows) ->
  mem (snd (ResizeBillinear srcptr src_step src_rows src_cols ifx ify
              dstptr dst_step dst_rows dst_cols index s)) b i = mem s b i.
Proof.
  intros Hbi. unfold ResizeBillinear.
  destruct (Z.ltb_spec (Int.s32 (fst index)) dst_cols) as [HX|HX]; [|reflexivity].
  destruct (Z.ltb_spec (Int.s32 (snd index)) dst_rows) as [HY|HY]; [|reflexivity].
  cbn [andb].
  repeat match goal with
         | |- context [if ?c then (_, _) else (_, _)] => destruct c
         end;
    cbn [bind load8 store8 ret snd fst log mem];
    (destruct Hbi as [Hb|[Hi|Hout]];
     [apply upd_other_buffer, Hb|apply upd_other_index, Hi|exfalso; apply Hout; split; assumption]).
Qed.

(** The byte a thread inside the destination stores depends on its position
    and on the source only. *)
Lemma ResizeBillinear_thread_value (srcptr : buffer) (src_step src_rows src_cols : Z)
    (ifx ify : float) (dstptr : buffer) (dst_step dst_rows dst_cols : Z)
    (index index' : uint2) (s s' : state) :
  srcptr <> dstptr ->
  (forall i, mem s srcptr i = mem s' srcptr i) ->
  Int.s32 (fst index') = Int.s32 (fst index) -> Int.s32 (snd index') = Int.s32 (snd index) ->
  Int.s32 (fst index) < dst_cols -> Int.s32 (snd index) < dst_rows ->
  let off := Int.mad24 (Int.s32 (snd index)) dst_step (Int.s32 (fst index)) in
  mem (snd (ResizeBillinear srcptr src_step src_rows src_cols ifx ify
              dstptr dst_step dst_rows dst_cols index s)) dstptr off
  = mem (snd (ResizeBillinear srcptr src_step src_rows src_cols ifx ify
                dstptr dst_step dst_rows dst_cols index' s')) dstptr off.
Proof.
  intros Hsd Hs Ex Ey HX HY off. subst off. unfold ResizeBillinear.
  rewrite Ex, Ey.
  apply Z.ltb_lt in HX, HY. rewrite HX, HY. cbn [andb].
  repeat match goal with
         | |- context [if ?c then (_, _) else (_, _)] => destruct c
         end;
    cbn [bind load8 store8 ret snd fst log mem];
    rewrite !upd_same; unfold peek8; rewrite !Hs; reflexivity.
Qed.

(** The threads of [ResizeBillinear] do not interfere.  When the destination
    is not the source, its rows are [dst_step >= dst_cols] bytes apart and no
    thread has a negative coordinate, a dispatch of any threads, in any order
    and with repeats, leaves at the pixel of each thread of the list that is
    inside the destination the byte that thread stores when it runs alone on
    the initial memory. *)
Theorem ResizeBillinear_threads_are_independent (srcptr : buffer)
    (src_step src_rows src_cols : Z) (ifx ify : float) (dstptr : buffer)
    (dst_step dst_rows dst_cols : Z) (threads : list uint2) (t : uint2) (m : memory) :
  srcptr <> dstptr ->
  dst_cols <= dst_step -> dst_step < 2 ^ 23 -> dst_rows < 2 ^ 23 ->
  dst_rows * dst_step < 2 ^ 31 ->
  Forall (fun t' => 0 <= Int.s32 (fst t') /\ 0 <= Int.s32 (snd t')) threads ->
  In t threads ->
  Int.s32 (fst t) < dst_cols -> Int.s32 (snd t) < dst_rows ->
  let k := ResizeBillinear srcptr src_step src_rows src_cols ifx ify
             dstptr dst_step dst_rows dst_cols in
  let off := Int.s32 (snd t) * dst_step + Int.s32 (fst t) in
  mem (run (dispatch k threads) m) dstptr off = mem (run (k t) m) dstptr off.
Proof.
  intros Hsd Hstep Hs23 Hr23 Hsz Hall Hin HX HY k off. unfold run.
  assert (Hoff : forall t', 0 <= Int.s32 (fst t') < dst_cols ->
                            0 <= Int.s32 (snd t') < dst_rows ->
             Int.mad24 (Int.s32 (snd t')) dst_step (Int.s32 (fst t'))
             = Int.s32 (snd t') * dst_step + Int.s32 (fst t')).
  { intros t' Hx' Hy'.
    pose proof (offset_bound dst_step dst_rows (Int.s32 (fst t')) (Int.s32 (snd t'))
                  ltac:(lia) Hy').
    apply mad24_small; lia. }
  assert (Ht0 : 0 <= Int.s32 (fst t) /\ 0 <= Int.s32 (snd t))
    by (rewrite Forall_forall in Hall; apply (Hall t Hin)).
  set (V := mem (snd (k t (State m []))) dstptr off).
  assert (G : forall s, (forall i, mem s srcptr i = m srcptr i) ->
            In t threads \/ mem s dstptr off = V ->
            mem (snd (dispatch k threads s)) dstptr off = V).
  { clear Hin. induction Hall as [|t' rest Ht' Hrest IH]; intros s Hs Hor.
    - rewrite dispatch_nil. destruct Hor as [[]|E]. exact E.
    - rewrite dispatch_cons.
      assert (Hs1 : forall i, mem (snd (k t' s)) srcptr i = m srcptr i).
      { intros i. unfold k. rewrite ResizeBillinear_thread_frame by (left; exact Hsd).
        apply Hs. }
      apply IH; [exact Hs1|].
      destruct (Z_lt_dec (Int.s32 (fst t')) dst_cols) as [HX'|HX'];
        [destruct (Z_lt_dec (Int.s32 (snd t')) dst_rows) as [HY'|HY']|].
      + destruct (Z.eq_dec (Int.s32 (snd t') * dst_step + Int.s32 (fst t')) off) as [Eo|Eo].
        * right. unfold off in Eo.
          destruct (offset_inj dst_step (Int.s32 (fst t')) (Int.s32 (snd t'))
                      (Int.s32 (fst t)) (Int.s32 (snd t)) ltac:(lia) ltac:(lia) Eo)
            as [Ex Ey].
          unfold V, k, off. rewrite <- (Hoff t) by lia. symmetry.
          apply ResizeBillinear_thread_value; try assumption.
          intros i. symmetry. apply Hs.
        * destruct Hor as [[->|Hin]|E]; [contradiction|left; exact Hin|right].
          unfold k at 1. rewrite ResizeBillinear_thread_frame; [exact E|].
          right. left. rewrite Hoff by lia. intro Eq. apply Eo. symmetry. exact Eq.
      + assert (Hne : t' <> t) by (intros ->; contradiction).
        destruct Hor as [[->|Hin]|E]; [contradiction|left; exact Hin|right].
        unfold k at 1. rewrite ResizeBillinear_thread_frame by (right; right; tauto). exact E.
      + assert (Hne : t' <> t) by (intros ->; contradiction).
        destruct Hor as [[->|Hin]|E]; [contradiction|left; exact Hin|right].
        unfold k at 1. rewrite ResizeBillinear_thread_frame by (right; right; tauto). exact E. }
  apply G; [reflexivity|left; exact Hin].
Qed.

(** ** Padding: rows outside the destination *)

(** A thread of [NV12_Remove_Padding] or of [NV12_Add_Padding] whose row is
    above [oheight - 1] makes no access. *)
Theorem padding_row_outside_does_nothing (src : buffer) (width height : Z) (dst : buffer)
    (owidth oheight : Z) (index : uint2) (m : memory) :
  Int.s32 (oheight - 1) < Int.s32 (fst index) ->
  run (NV12_Remove_Padding src width height dst owidth oheight index) m = State m [] /\
  run (NV12_Add_Padding src width height dst owidth oheight index) m = State m [].
Proof.
  intros H. apply Z.gtb_lt in H.
  unfold run, NV12_Remove_Padding, NV12_Add_Padding. rewrite H. split; reflexivity.
Qed.

Lemma padding_row_outside_does_nothing_witness :
  let m := mem_of [(slot0, [1; 2; 3; 4; 5; 6; 7; 8])] in
  Int.s32 (2 - 1) < Int.s32 2 /\
  run (NV12_Remove_Padding slot0 4 2 slot1 4 2 (2, 0)) m = State m [] /\
  run (NV12_Add_Padding slot0 4 2 slot1 4 2 (2, 0)) m = State m [].
Proof.
  split; [vm_compute; reflexivity|].
  apply (padding_row_outside_does_nothing slot0 4 2 slot1 4 2 (2, 0)). vm_compute. reflexivity.
Defined.

(** ** Padding: the bytes that are added *)

Lemma rows_fit (r h w pw ph : Z) :
  0 <= r < h -> 0 <= w <= pw -> h <= ph -> 0 <= r * w /\ r * w + w <= pw * ph.
Proof. intros Hr Hw Hh. split; nia. Qed.

Ltac Zify.zify_post_hook ::= Z.to_euclidean_division_equations.

Section PaddingZeros.

Variables (src padded : buffer) (w h pw ph k : Z).
Hypothesis width_by_4 : w = 4 * k.
Hypothesis k_nonneg : 0 <= k.
Hypothesis width_le : w <= pw.
Hypothesis height_le : 0 <= h <= ph.
Hypothesis height_range : ph < 2 ^ 30.
Hypothesis size_range : pw * ph < 2 ^ 31.
Hypothesis src_padded : src <> padded.

(** Byte [a] of padded row [id] is padding: the row holds no row of the
    image, or the byte is to the right of the [w] bytes of the image. *)
Let is_padding (id a : Z) : Prop :=
  (forall r, 0 <= r < h -> id <> padded_row h ph r) \/ 4 * (row_cell pw id + k) <= a.

(** One thread writes the padding of its row. *)
Lemma NV12_Add_Padding_row_zeros (t : uint2) (s : state) :
  0 <= fst t < ph ->
  let id := fst t in
  let s' := snd (NV12_Add_Padding src w h padded pw ph t s) in
  forall a, 4 * row_cell pw id <= a < 4 * row_cell pw (id + 1) ->
            is_padding id a -> mem s' padded a = 0.
Proof.
  intros Hid id s' a Ha Hpad. subst s'. fold id in Hid.
  pose proof (padding_rows_range h pw ph height_le) as Hrng.
  pose proof (lo_range w pw pw ph k width_by_4 k_nonneg width_le id Hid) as Hlo.
  pose proof (lo_next w pw pw pw k width_by_4 width_le id ltac:(lia)) as Hnext.
  assert (Hidw : 0 <= id * pw /\ id * pw + pw <= pw * ph)
    by (apply (rows_fit id ph); lia).
  unfold NV12_Add_Padding, Int.div, Int.shr. fold id.
  strip_s32 ltac:(lia).
  fold (luma_rows h) (padding_rows h ph).
  set (Yh := luma_rows h) in *. set (Yp := padding_rows h ph) in *.
  strip_s32 ltac:(lia).
  destruct (Z.gtb_spec id (ph - 1)) as [Hgt|_]; [lia|].
  replace (id * pw + pw) with ((id + 1) * pw) by lia.
  fold (row_cell pw id) (row_cell pw (id + 1)).
  set (lo := row_cell pw) in *.
  destruct ((id >=? Yh) && (id <? Yh + Yp) || (id >? h + Yp - 1)) eqn:Ezero.
  - (* a row of zeros *)
    destruct (zero_uchar4_spec padded (Z.to_nat (lo (id + 1) - lo id)) (lo id) s)
      as (_ & _ & Hc).
    rewrite Z2Nat.id in Hc by lia. apply Hc. lia.
  - (* a row of data: the byte is on the right *)
    apply orb_false_elim in Ezero. destruct Ezero as [E1 E2].
    rewrite Z.gtb_ltb in E2. apply Z.ltb_ge in E2.
    set (id' := if id >=? Yh + Yp then id - Yp else id).
    assert (Hid' : 0 <= id' < h).
    { unfold id'. destruct (Z.geb_spec id (Yh + Yp)); [lia|].
      apply andb_false_iff in E1. destruct E1 as [E1|E1];
        [rewrite Z.geb_leb in E1; apply Z.leb_gt in E1|apply Z.ltb_ge in E1]; lia. }
    assert (Hrow : id = padded_row h ph id').
    { unfold id', padded_row. fold Yh Yp.
      destruct (Z.geb_spec id (Yh + Yp)) as [G|G].
      - destruct (Z.geb_spec (id - Yp) Yh); lia.
      - assert (Hlt : id < Yh).
        { apply andb_false_iff in E1. destruct E1 as [E1|E1];
            [rewrite Z.geb_leb in E1; apply Z.leb_gt in E1|apply Z.ltb_ge in E1]; lia. }
        destruct (Z.geb_spec id Yh); lia. }
    destruct Hpad as [Hno|Hright]; [exfalso; exact (Hno id' Hid' Hrow)|].
    assert (Hidk : 0 <= id' * w /\ id' * w + w <= pw * ph)
      by (apply (rows_fit id' h); lia).
    strip_s32 ltac:(lia).
    rewrite (shiftr_2 (id' * w)), (shiftr_2 (id * pw + w)).
    replace (id' * w / 4) with (id' * k) by lia.
    replace ((id * pw + w) / 4) with (lo id + k)
      by (unfold lo, row_cell; rewrite shiftr_2; lia).
    replace (lo id + k - lo id) with k by lia.
    rewrite bind_snd.
    set (s1 := snd (copy_uchar4 (Z.to_nat k) src padded (id' * k) (lo id) (lo id) s)).
    destruct (Z.gtb_spec pw w) as [Hwide|Hsame].
    + destruct (zero_uchar4_spec padded (Z.to_nat (lo (id + 1) - (lo id + k))) (lo id + k) s1)
        as (_ & _ & Hc').
      rewrite Z2Nat.id in Hc' by lia. apply Hc'. lia.
    + exfalso. assert (pw = w) by lia. subst pw.
      unfold lo, row_cell in Ha, Hright. rewrite !shiftr_2 in Ha, Hright.
      replace ((id + 1) * w) with (id * w + w) in Ha by ring.
      rewrite ?shiftr_2 in Ha. clear - Ha Hright width_by_4. lia.
Qed.

Lemma NV12_Add_Padding_zeros (adds : list uint2) (id : Z) :
  Forall (fun t => 0 <= fst t < ph) adds ->
  0 <= id < ph ->
  forall s : state,
    let s' := snd (dispatch (NV12_Add_Padding src w h padded pw ph) adds s) in
    forall a, 4 * row_cell pw id <= a < 4 * row_cell pw (id + 1) ->
      is_padding id a ->
      (exists t, In t adds /\ fst t = id) \/ mem s padded a = 0 ->
      mem s' padded a = 0.
Proof.
  intros Hall Hid. induction Hall as [|t rest Ht Hrest IH]; intros s s' a Ha Hpad Hor;
    subst s'.
  - rewrite dispatch_nil. destruct Hor as [(t & [] & _)|H]. exact H.
  - rewrite dispatch_cons.
    set (s1 := snd (NV12_Add_Padding src w h padded pw ph t s)).
    apply IH; [exact Ha|exact Hpad|].
    destruct (Z.eq_dec (fst t) id) as [E|E].
    + right. subst id. apply NV12_Add_Padding_row_zeros; assumption.
    + destruct Hor as [(t' & [->|Hin] & Ht')|Hs]; [contradiction|left; exists t'; auto|].
      right.
      destruct (NV12_Add_Padding_row src padded w h pw ph k width_by_4 k_nonneg width_le
                  height_le height_range size_range t s src_padded Ht) as (_ & Ho & _).
      unfold s1. rewrite Ho; [exact Hs|].
      assert (D : fst t + 1 <= id \/ id + 1 <= fst t) by lia.
      destruct D as [D|D].
      * pose proof (lo_mono w pw pw pw k width_by_4 k_nonneg width_le (fst t + 1) id ltac:(lia)).
        lia.
      * pose proof (lo_mono w pw pw pw k width_by_4 k_nonneg width_le (id + 1) (fst t) ltac:(lia)).
        lia.
Qed.

End PaddingZeros.

Ltac Zify.zify_post_hook ::= idtac.

(** The bytes [NV12_Add_Padding] adds are zeros.  After the kernel has run
    once or more at every row of the [owidth] by [oheight] buffer, in any
    order, a byte of row [id] is 0 if the row holds no row of the image (it
    is not [padded_row] of any of them) or if the byte lies to the right of
    the [width] bytes of the image.  Row [id] is the [uchar4] cells from
    [row_cell owidth id] up to [row_cell owidth (id + 1)]. *)
Theorem NV12_Add_Padding_fills_with_zeros (src padded : buffer)
    (width height owidth oheight : Z) (adds : list uint2) (m : memory) (id a : Z) :
  src <> padded -> width mod 4 = 0 ->
  0 <= width <= owidth -> 0 <= height <= oheight ->
  oheight < 2 ^ 30 -> owidth * oheight < 2 ^ 31 ->
  Forall (fun t => 0 <= fst t < oheight) adds ->
  (forall r, 0 <= r < oheight -> exists t, In t adds /\ fst t = r) ->
  0 <= id < oheight ->
  4 * row_cell owidth id <= a < 4 * row_cell owidth (id + 1) ->
  (forall r, 0 <= r < height -> id <> padded_row height oheight r) \/
  4 * row_cell owidth id + width <= a ->
  mem (run (dispatch (NV12_Add_Padding src width height padded owidth oheight) adds) m)
    padded a = 0.
Proof.
  intros Hsp Hw4 Hw Hh Hph Hsz Hall Hcov Hid Ha Hpad.
  assert (Ek : width = 4 * (width / 4)).
  { pose proof (Z.div_mod width 4 ltac:(lia)). lia. }
  assert (Hk : 0 <= width / 4) by (apply Z.div_pos; lia).
  unfold run.
  apply (NV12_Add_Padding_zeros src padded width height owidth oheight (width / 4)
           Ek Hk (proj2 Hw) Hh Hph Hsz Hsp adds id Hall Hid (State m []) a Ha).
  - destruct Hpad as [H|H]; [left; exact H|right; lia].
  - left. apply Hcov, Hid.
Qed.

(** ** NV12 to I420 and back *)

Ltac Zify.zify_post_hook ::= idtac.

Lemma luma_cell (W H a : Z) :
  0 < W -> 0 <= a < W * H ->
  in_image W H (a mod W, a / W) /\ a / W * W + a mod W = a.
Proof.
  intros HW Ha. unfold in_image; cbn [fst snd].
  assert (0 <= a / W) by (apply Z.div_pos; lia).
  assert (a / W < H) by (apply Z.div_lt_upper_bound; lia).
  pose proof (Z.mod_pos_bound a W HW). pose proof (Z.div_mod a W).
  lia.
Qed.

Ltac Zify.zify_post_hook ::= Z.to_euclidean_division_equations.

Lemma even_half (n : Z) : n mod 2 = 0 -> n = 2 * (n / 2).
Proof. lia. Qed.

Lemma pair_of (c : Z) : c = 2 * (c / 2) \/ c = 2 * (c / 2) + 1.
Proof. lia. Qed.

Lemma pair_below (c W : Z) : W mod 4 = 0 -> 0 <= c < W -> 0 <= 2 * (c / 2) < W.
Proof. lia. Qed.

Lemma half_of_quadruple (W : Z) : W mod 4 = 0 -> W = 2 * (W / 2).
Proof. lia. Qed.

Lemma rem_double (n : Z) : Z.rem (2 * n) 2 = 0.
Proof. lia. Qed.

Ltac Zify.zify_post_hook ::= idtac.

Lemma chroma_cell (W H a : Z) :
  0 < W -> W mod 4 = 0 -> H mod 2 = 0 -> 0 <= H ->
  W * H <= a < W * H + W * H / 2 ->
  exists cx cy,
    in_image W H (2 * (cx / 2), 2 * cy) /\
    (a = W * H + W * cy + 2 * (cx / 2) \/ a = W * H + W * cy + 2 * (cx / 2) + 1).
Proof.
  intros HW HW4 HH2 HH Ha.
  exists ((a - W * H) mod W), ((a - W * H) / W).
  set (r := a - W * H).
  pose proof (Z.mod_pos_bound r W HW) as Hcx.
  pose proof (Z.div_mod r W ltac:(lia)) as Er.
  assert (Hcy0 : 0 <= r / W) by (apply Z.div_pos; lia).
  pose proof (even_half H HH2) as EH.
  assert (Hh : W * H / 2 = W * (H / 2)).
  { rewrite EH at 1. replace (W * (2 * (H / 2))) with (W * (H / 2) * 2) by ring.
    apply Z.div_mul; lia. }
  assert (Hcy : r / W < H / 2) by (apply Z.div_lt_upper_bound; lia).
  pose proof (pair_below _ _ HW4 Hcx) as Hx.
  pose proof (pair_of (r mod W)) as Hp.
  split; [unfold in_image; cbn [fst snd]; lia|].
  unfold r in *. lia.
Qed.

(** The NV12 to I420 to NV12 round trip.  For an NV12 image of [W] by [H]
    with [W] a multiple of 4, [H] even and [H <= W], within the sizes a
    24-bit multiply addresses, [NV12_I420] followed by [I420_NV12], both with
    zero origins and scale 1, gives back every byte of the luma plane and of
    the interleaved chroma plane.  Each kernel runs once or more at every
    position of the image, in any order. *)
Theorem NV12_I420_round_trip (src dsty dstu dstv dst : buffer) (W H : Z)
    (convs backs : list uint2) (m : memory) (a : Z) :
  src <> dsty -> src <> dstu -> src <> dstv ->
  dsty <> dstu -> dsty <> dstv -> dstu <> dstv ->
  dst <> dsty -> dst <> dstu -> dst <> dstv ->
  W mod 4 = 0 -> H mod 2 = 0 ->
  0 <= W < 2 ^ 23 -> 0 <= H <= W -> W * H < 2 ^ 30 ->
  Forall (in_image W H) convs -> (forall p, in_image W H p -> In p convs) ->
  Forall (in_image W H) backs -> (forall p, in_image W H p -> In p backs) ->
  0 <= a < W * H + W * H / 2 ->
  let c := identity_config W H in
  let s1 := run (dispatch (NV12_I420 src c dsty dstu dstv c identity_rect) convs) m in
  let s2 := run (dispatch (I420_NV12 dsty dstu dstv c dst c identity_rect) backs) (mem s1) in
  mem s2 dst a = peek8 m src a.
Proof.
  intros N1 N2 N3 N4 N5 N6 N7 N8 N9 HW4 HH2 HW HH Hsz Hc Hccov Hb Hbcov Ha c s1 s2.
  assert (HHr : 0 <= H < 2 ^ 23) by lia.
  assert (Wpos : 0 < W).
  { destruct (Z.eq_dec W 0) as [E|E]; [|lia].
    exfalso. rewrite E in Ha. cbn in Ha. lia. }
  pose proof (fun x y Hxy =>
                NV12_I420_converts W H HW4 HH2 HW HHr Hsz src dsty dstu dstv dst
                  N1 N2 N3 N4 N5 N6 N7 N8 N9 m convs (proj2 HH) Hc (State m [])
                  (fun _ => eq_refl) x y Hxy (or_introl (Hccov (x, y) Hxy))) as Conv.
  pose proof (fun x y Hxy =>
                I420_NV12_restores W H HW4 HH2 HW HHr Hsz src dsty dstu dstv dst
                  N1 N2 N3 N4 N5 N6 N7 N8 N9 m (mem s1) backs Hb (State (mem s1) [])
                  (fun _ _ _ => eq_refl) x y Hxy (or_introl (Hbcov (x, y) Hxy))) as Back.
  cbv zeta in Conv, Back. fold c in Conv, Back.
  change (snd (dispatch (NV12_I420 src c dsty dstu dstv c identity_rect) convs (State m [])))
    with s1 in Conv.
  change (snd (dispatch (I420_NV12 dsty dstu dstv c dst c identity_rect) backs
                 (State (mem s1) []))) with s2 in Back.
  clearbody s1 s2.
  destruct (Z_lt_dec a (W * H)) as [Hl|Hc'].
  - (* a luma byte *)
    destruct (luma_cell W H a Wpos (conj (proj1 Ha) Hl)) as [Hxy Ea].
    destruct (Back _ _ Hxy) as [B _]. destruct (Conv _ _ Hxy) as [C _].
    rewrite Ea in B, C. rewrite B. unfold peek8 at 1. rewrite C. apply peek8_u8.
  - (* a chroma byte *)
    destruct (chroma_cell W H a Wpos HW4 HH2 ltac:(lia) ltac:(lia))
      as (cx & cy & Hxy & D).
    assert (Ev : (Z.rem (2 * (cx / 2)) 2 =? 0) && (Z.rem (2 * cy) 2 =? 0) = true)
      by (rewrite !rem_double; reflexivity).
    assert (Euv : W / 2 * (2 * cy) + (2 * (cx / 2) + W * H)
                  = W * H + W * cy + 2 * (cx / 2)).
    { rewrite (half_times_even W (2 * cy) (W / 2) cy (half_of_quadruple W HW4) eq_refl).
      ring. }
    destruct (Back _ _ Hxy) as [_ B]. destruct (Conv _ _ Hxy) as [_ C].
    specialize (B Ev). specialize (C Ev). destruct B as [Bu Bv], C as [Cu Cv].
    rewrite Euv in Bu, Bv, Cu, Cv.
    destruct D as [-> | ->].
    + rewrite Bu. unfold peek8 at 1. rewrite Cu. apply peek8_u8.
    + rewrite Bv. unfold peek8 at 1. rewrite Cv. apply peek8_u8.
Qed.

(** ** NV12 to I420: the three planes *)

Ltac Zify.zify_post_hook ::= Z.to_euclidean_division_equations.

Lemma quarter_of (W : Z) : W mod 4 = 0 -> W = 4 * (W / 4) /\ W / 2 = 2 * (W / 4).
Proof. lia. Qed.

Lemma quot_nonneg (a b : Z) : 0 <= a -> 0 < b -> Z.quot a b = a / b.
Proof. intros. apply Z.quot_div_nonneg; lia. Qed.

Ltac Zify.zify_post_hook ::= idtac.

(** Cell [j] of a chroma plane of I420, as a position of the image. *)
Lemma chroma_sample (W H j : Z) :
  W mod 4 = 0 -> H mod 2 = 0 -> 0 <= W -> 0 <= H -> 0 <= j < W * H / 4 ->
  exists x y,
    in_image W H (x, y) /\
    (Z.rem x 2 =? 0) && (Z.rem y 2 =? 0) = true /\
    Z.quot W 4 * y + Z.quot x 2 = j /\
    W / 2 * y + (x + W * H) = W * H + 2 * j.
Proof.
  intros HW4 HH2 HW HH Hj.
  destruct (quarter_of W HW4) as [EW EW2].
  pose proof (even_half H HH2) as EH.
  set (q := W / 4) in *. set (h := H / 2) in *.
  assert (Hq : 0 < q).
  { destruct (Z.eq_dec q 0) as [E|E]; [|lia].
    exfalso. rewrite EW, E in Hj. cbn in Hj. lia. }
  assert (Eq4 : W * H / 4 = 2 * q * h).
  { rewrite EW, EH. replace (4 * q * (2 * h)) with (2 * q * h * 4) by ring.
    apply Z.div_mul. lia. }
  rewrite Eq4 in Hj.
  pose proof (Z.div_mod j (2 * q) ltac:(lia)) as Ej.
  pose proof (Z.mod_pos_bound j (2 * q) ltac:(lia)) as Hcx.
  assert (Hcy0 : 0 <= j / (2 * q)) by (apply Z.div_pos; lia).
  assert (Hcy : j / (2 * q) < h) by (apply Z.div_lt_upper_bound; lia).
  set (cy := j / (2 * q)) in *. set (cx := j mod (2 * q)) in *.
  exists (2 * cx), (2 * cy). split; [|split; [|split]].
  - unfold in_image. cbn [fst snd]. lia.
  - rewrite !rem_double. reflexivity.
  - rewrite (quot_nonneg W 4) by lia. fold q.
    rewrite (quot_nonneg (2 * cx) 2) by lia.
    replace (2 * cx) with (cx * 2) by ring. rewrite Z.div_mul by lia. lia.
  - rewrite EW2. lia.
Qed.

(** [NV12_I420] splits the interleaved chroma.  For an NV12 image of [W] by
    [H] with [W] a multiple of 4, [H] even and [H <= W], converted with zero
    origins and scale 1 by threads that cover the image, the Y plane holds
    the luma bytes in place, and cell [j] of the U plane and of the V plane
    hold bytes [2 j] and [2 j + 1] of the chroma plane of the source. *)
Theorem NV12_I420_splits_chroma (src dsty dstu dstv : buffer) (W H : Z)
    (convs : list uint2) (m : memory) (a j : Z) :
  src <> dsty -> src <> dstu -> src <> dstv ->
  dsty <> dstu -> dsty <> dstv -> dstu <> dstv ->
  W mod 4 = 0 -> H mod 2 = 0 ->
  0 <= W < 2 ^ 23 -> 0 <= H <= W -> W * H < 2 ^ 30 ->
  Forall (in_image W H) convs -> (forall p, in_image W H p -> In p convs) ->
  0 <= a < W * H -> 0 <= j < W * H / 4 ->
  let c := identity_config W H in
  let s' := run (dispatch (NV12_I420 src c dsty dstu dstv c identity_rect) convs) m in
  mem s' dsty a = peek8 m src a /\
  mem s' dstu j = peek8 m src (W * H + 2 * j) /\
  mem s' dstv j = peek8 m src (W * H + 2 * j + 1).
Proof.
  intros N1 N2 N3 N4 N5 N6 HW4 HH2 HW HH Hsz Hc Hccov Ha Hj c s'.
  assert (HHr : 0 <= H < 2 ^ 23) by lia.
  assert (Wpos : 0 < W) by nia.
  set (dst := S (dsty + dstu + dstv)).
  pose proof (fun x y Hxy =>
                NV12_I420_converts W H HW4 HH2 HW HHr Hsz src dsty dstu dstv dst
                  N1 N2 N3 N4 N5 N6 ltac:(unfold dst; lia) ltac:(unfold dst; lia)
                  ltac:(unfold dst; lia) m convs (proj2 HH) Hc (State m [])
                  (fun _ => eq_refl) x y Hxy (or_introl (Hccov (x, y) Hxy))) as Conv.
  cbv zeta in Conv. fold c in Conv.
  change (snd (dispatch (NV12_I420 src c dsty dstu dstv c identity_rect) convs (State m [])))
    with s' in Conv.
  clearbody s'. split.
  - destruct (luma_cell W H a Wpos Ha) as [Hxy Ea].
    destruct (Conv _ _ Hxy) as [C _]. rewrite Ea in C. exact C.
  - destruct (chroma_sample W H j HW4 HH2 ltac:(lia) ltac:(lia) Hj)
      as (x & y & Hxy & Ev & Ecell & Esrc).
    destruct (Conv _ _ Hxy) as [_ C]. specialize (C Ev).
    rewrite Ecell, Esrc in C. exact C.
Qed.

(** [I420_NV12] interleaves the chroma again.  For an I420 image of [W] by
    [H] with [W] a multiple of 4 and [H] even, converted with zero origins
    and scale 1 by threads that cover the image, the destination holds the
    Y plane in place, and after it the chroma plane with cell [j] of the U
    plane at byte [2 j] and cell [j] of the V plane at byte [2 j + 1]. *)
Theorem I420_NV12_interleaves_chroma (srcy srcu srcv dst : buffer) (W H : Z)
    (backs : list uint2) (m : memory) (a j : Z) :
  srcy <> srcu -> srcy <> srcv -> srcu <> srcv ->
  dst <> srcy -> dst <> srcu -> dst <> srcv ->
  W mod 4 = 0 -> H mod 2 = 0 ->
  0 <= W < 2 ^ 23 -> 0 <= H < 2 ^ 23 -> W * H < 2 ^ 30 ->
  Forall (in_image W H) backs -> (forall p, in_image W H p -> In p backs) ->
  0 <= a < W * H -> 0 <= j < W * H / 4 ->
  let c := identity_config W H in
  let s' := run (dispatch (I420_NV12 srcy srcu srcv c dst c identity_rect) backs) m in
  mem s' dst a = peek8 m srcy a /\
  mem s' dst (W * H + 2 * j) = peek8 m srcu j /\
  mem s' dst (W * H + 2 * j + 1) = peek8 m srcv j.
Proof.
  intros N4 N5 N6 N7 N8 N9 HW4 HH2 HW HH Hsz Hb Hbcov Ha Hj c s'.
  assert (Wpos : 0 < W) by nia.
  set (src := S (srcy + srcu + srcv)).
  pose proof (fun x y Hxy =>
                I420_NV12_restores W H HW4 HH2 HW HH Hsz src srcy srcu srcv dst
                  ltac:(unfold src; lia) ltac:(unfold src; lia) ltac:(unfold src; lia)
                  N4 N5 N6 N7 N8 N9 m m backs Hb (State m [])
                  (fun _ _ _ => eq_refl) x y Hxy (or_introl (Hbcov (x, y) Hxy))) as Back.
  cbv zeta in Back. fold c in Back.
  change (snd (dispatch (I420_NV12 srcy srcu srcv c dst c identity_rect) backs (State m [])))
    with s' in Back.
  clearbody s'. split.
  - destruct (luma_cell W H a Wpos Ha) as [Hxy Ea].
    destruct (Back _ _ Hxy) as [B _]. rewrite Ea in B. exact B.
  - destruct (chroma_sample W H j HW4 HH2 ltac:(lia) ltac:(lia) Hj)
      as (x & y & Hxy & Ev & Ecell & Esrc).
    destruct (Back _ _ Hxy) as [_ B]. specialize (B Ev).
    rewrite Ecell, Esrc in B. exact B.
Qed.

Lemma I420_NV12_interleaves_chroma_witness :
  let m := mem_of [(slot1, [1; 2; 3; 4; 5; 6; 7; 8]); (slot2, [21; 22]); (slot3, [31; 32])] in
  let c := identity_config 4 2 in
  let s' := run (dispatch (I420_NV12 slot1 slot2 slot3 c slot4 c identity_rect) (grid 4 2)) m in
  mem s' slot4 5 = 6 /\ mem s' slot4 (4 * 2 + 2 * 1) = 22 /\ mem s' slot4 (4 * 2 + 2 * 1 + 1) = 32.
Proof.
  exact (I420_NV12_interleaves_chroma slot1 slot2 slot3 slot4 4 2 (grid 4 2)
           (mem_of [(slot1, [1; 2; 3; 4; 5; 6; 7; 8]); (slot2, [21; 22]); (slot3, [31; 32])]) 5 1
           ltac:(discriminate) ltac:(discriminate) ltac:(discriminate) ltac:(discriminate)
           ltac:(discriminate) ltac:(discriminate) eq_refl eq_refl ltac:(lia) ltac:(lia)
           ltac:(lia) (grid_in_image 4 2) (grid_covers 4 2) ltac:(lia)
           ltac:(vm_compute; split; [discriminate|reflexivity])).
Defined.

(** ** NV12 to I420 at a width that is not a multiple of 4 *)

Ltac Zify.zify_post_hook ::= Z.to_euclidean_division_equations.

(** One thread at zero origins and scale 1, for any width. *)
Lemma NV12_I420_identity_thread (W H : Z) (src dsty dstu dstv : buffer) (x y : Z)
    (s : state) :
  0 <= W < 2 ^ 23 -> 0 <= H < 2 ^ 23 -> W * H < 2 ^ 30 ->
  0 <= x < W -> 0 <= y < H -> y < W ->
  let c := identity_config W H in
  let luma := y * W + x in
  let uv := W / 2 * y + (x + W * H) in
  let cuv := Z.quot W 4 * y + Z.quot x 2 in
  NV12_I420 src c dsty dstu dstv c identity_rect (x, y) s =
    let s1 := State (upd (mem s) dsty luma (peek8 (mem s) src luma))
                (Store dsty luma (peek8 (mem s) src luma)
                 :: Load src (luma + 1) :: Load src luma :: log s) in
    if (Z.rem x 2 =? 0) && (Z.rem y 2 =? 0) then
      let cu := peek8 (mem s1) src uv in
      let cv := peek8 (mem s1) src (uv + 1) in
      (tt, State (upd (upd (mem s1) dstu cuv cu) dstv cuv cv)
             (Store dstv cuv cv :: Store dstu cuv cu
              :: Load src (uv + 1) :: Load src uv :: log s1))
    else (tt, s1).
Proof.
  intros HW HH Hsz Hx Hy HyW c luma uv cuv. subst c luma uv cuv.
  pose proof (offset_bound W H x y Hx Hy) as Hoff.
  unfold NV12_I420, identity_config, identity_rect, cfg, rect,
    CONFIG_WIDTH, CONFIG_HEIGHT, CONFIG_X, CONFIG_Y, CONFIG_HALF_W, CONFIG_WH,
    RECT_KX, RECT_KY, Int.rem, Int.div.
  cbn [nth fst snd].
  strip_s32 ltac:(lia).
  rewrite !src_coordinate_identity by lia.
  destruct (Z.geb_spec y W) as [Hge|_]; [lia|].
  rewrite !Z.add_0_r.
  rewrite (mad24_small y W x) by lia.
  unfold load_uchar2, store8, load8, bind, ret. cbn [fst snd mem log].
  rewrite peek8_u8.
  destruct ((Z.rem x 2 =? 0) && (Z.rem y 2 =? 0)) eqn:Ev; [|reflexivity].
  apply andb_prop in Ev. destruct Ev as [Ex Ey].
  apply Z.eqb_eq in Ex, Ey.
  rewrite !even_align_even by lia.
  pose proof (mul_bound (W / 2) W y H ltac:(lia) Hy) as Hb2.
  pose proof (mul_bound (Z.quot W 4) W y H ltac:(lia) Hy) as Hb4.
  strip_s32 ltac:(lia).
  rewrite (mad24_small (W / 2) y) by lia.
  rewrite (mad24_small (Z.quot W 4) y) by lia.
  cbn [mem]. rewrite !peek8_u8. reflexivity.
Qed.

Lemma collision_arith (q : Z) :
  1 <= q ->
  let W := 4 * q + 2 in
  Z.rem (4 * q) 2 = 0 /\ Z.quot W 4 = q /\ Z.quot (4 * q) 2 = 2 * q /\ W / 2 = 2 * q + 1.
Proof. intros Hq W. subst W. lia. Qed.

Ltac Zify.zify_post_hook ::= idtac.

(** When the width is even but not a multiple of 4, the planar chroma index
    [(W / 4) * y + x / 2] is not one to one.  For [W = 4 q + 2] the pixels
    [(4 q, 0)] and [(0, 2)] both go to cell [2 q] of the U plane, with
    chroma samples from different places of the source, and the cell keeps
    that of the thread that runs last. *)
Theorem NV12_I420_chroma_cells_collide (src dsty dstu dstv : buffer) (W H q : Z)
    (m : memory) :
  src <> dsty -> src <> dstu -> src <> dstv -> dsty <> dstu -> dstu <> dstv ->
  W = 4 * q + 2 -> 1 <= q -> 4 <= H <= W -> W < 2 ^ 23 -> W * H < 2 ^ 30 ->
  let c := identity_config W H in
  let k := NV12_I420 src c dsty dstu dstv c identity_rect in
  mem (run (dispatch k [(4 * q, 0); (0, 2)]) m) dstu (2 * q) = peek8 m src (W * H + W) /\
  mem (run (dispatch k [(0, 2); (4 * q, 0)]) m) dstu (2 * q) = peek8 m src (W * H + 4 * q).
Proof.
  intros N1 N2 N3 N4 N5 EW Hq HH HW Hsz c k.
  destruct (collision_arith q Hq) as (R1 & Q4 & Q2 & W2). rewrite <- EW in Q4, W2.
  assert (T1 : forall s, k (4 * q, 0) s =
             let s1 := State (upd (mem s) dsty (4 * q) (peek8 (mem s) src (4 * q)))
                         (Store dsty (4 * q) (peek8 (mem s) src (4 * q))
                          :: Load src (4 * q + 1) :: Load src (4 * q) :: log s) in
             let cu := peek8 (mem s1) src (W * H + 4 * q) in
             let cv := peek8 (mem s1) src (W * H + 4 * q + 1) in
             (tt, State (upd (upd (mem s1) dstu (2 * q) cu) dstv (2 * q) cv)
                    (Store dstv (2 * q) cv :: Store dstu (2 * q) cu
                     :: Load src (W * H + 4 * q + 1) :: Load src (W * H + 4 * q)
                     :: log s1))).
  { intros s. unfold k, c.
    rewrite (NV12_I420_identity_thread W H src dsty dstu dstv (4 * q) 0 s) by lia.
    cbv zeta. rewrite R1, Q4, Q2, W2. change (Z.rem 0 2) with 0. cbn [Z.eqb andb].
    replace (0 * W + 4 * q) with (4 * q) by ring.
    replace ((2 * q + 1) * 0 + (4 * q + W * H)) with (W * H + 4 * q) by ring.
    replace (q * 0 + 2 * q) with (2 * q) by ring. reflexivity. }
  assert (T2 : forall s, k (0, 2) s =
             let s1 := State (upd (mem s) dsty (2 * W) (peek8 (mem s) src (2 * W)))
                         (Store dsty (2 * W) (peek8 (mem s) src (2 * W))
                          :: Load src (2 * W + 1) :: Load src (2 * W) :: log s) in
             let cu := peek8 (mem s1) src (W * H + W) in
             let cv := peek8 (mem s1) src (W * H + W + 1) in
             (tt, State (upd (upd (mem s1) dstu (2 * q) cu) dstv (2 * q) cv)
                    (Store dstv (2 * q) cv :: Store dstu (2 * q) cu
                     :: Load src (W * H + W + 1) :: Load src (W * H + W)
                     :: log s1))).
  { intros s. unfold k, c.
    rewrite (NV12_I420_identity_thread W H src dsty dstu dstv 0 2 s) by lia.
    cbv zeta. rewrite Q4, W2. change (Z.rem 0 2) with 0. change (Z.rem 2 2) with 0.
    change (Z.quot 0 2) with 0. cbn [Z.eqb andb].
    replace (2 * W + 0) with (2 * W) by ring.
    replace ((2 * q + 1) * 2 + (0 + W * H)) with (W * H + W) by lia.
    replace (q * 2 + 0) with (2 * q) by ring. reflexivity. }
  split.
  - unfold run. rewrite dispatch_cons, T1, dispatch_cons, T2, dispatch_nil.
    cbv zeta. cbn [snd mem log].
    rewrite upd_other_buffer by congruence. rewrite upd_same.
    unfold peek8. rewrite !upd_other_buffer by congruence. reflexivity.
  - unfold run. rewrite dispatch_cons, T2, dispatch_cons, T1, dispatch_nil.
    cbv zeta. cbn [snd mem log].
    rewrite upd_other_buffer by congruence. rewrite upd_same.
    unfold peek8. rewrite !upd_other_buffer by congruence. reflexivity.
Qed.

(** ** ScaleConvert_NV12_I420 at scale 1 *)

Ltac Zify.zify_post_hook ::= idtac.

Lemma mul_neg_byte_zero (b : Z) :
  0 <= b < 256 ->
  F32.mul (F32.of_Z (- b)) F32.zero = if b =? 0 then F32.zero else S754_zero true.
Proof.
  apply (forall_byte_floats (fun b => F32.mul (F32.of_Z (- b)) F32.zero)
           (fun b => if b =? 0 then F32.zero else S754_zero true)).
  vm_compute. reflexivity.
Qed.

Lemma add_byte_neg_zero (b : Z) :
  0 <= b < 256 -> F32.add (F32.of_Z b) (S754_zero true) = F32.of_Z b.
Proof. apply (forall_byte_floats (fun b => F32.add (F32.of_Z b) (S754_zero true)) F32.of_Z). vm_compute. reflexivity. Qed.

Lemma to_uchar_of_byte (b : Z) : 0 <= b < 256 -> F32.to_uchar (F32.of_Z b) = b.
Proof.
  intros Hb. apply Z.eqb_eq.
  apply (forall_bytes (fun b => F32.to_uchar (F32.of_Z b) =? b)); [|exact Hb].
  vm_compute. reflexivity.
Qed.

(** With a zero fraction the interpolation returns its first operand. *)
Lemma lerp_uchar_zero (a b : Z) :
  0 <= a < 256 -> 0 <= b < 256 -> lerp_uchar a b F32.zero = a.
Proof.
  intros Ha Hb. unfold lerp_uchar.
  destruct (Z_le_dec a b) as [Hle|Hgt].
  - rewrite mul_byte_zero by lia. rewrite add_byte_zero by exact Ha.
    apply to_uchar_of_byte, Ha.
  - replace (b - a) with (- (a - b)) by ring.
    rewrite mul_neg_byte_zero by lia.
    destruct (Z.eqb_spec (a - b) 0); [lia|].
    rewrite add_byte_neg_zero by exact Ha. apply to_uchar_of_byte, Ha.
Qed.

Lemma lerp_uchar_range (a b : Z) (t : float) : 0 <= lerp_uchar a b t < 256.
Proof. apply to_uchar_range. Qed.

Lemma sub_diag_finite (f : float) :
  (exists m e, f = S754_finite false m e) \/ f = F32.zero -> F32.sub f f = F32.zero.
Proof.
  intros [(m & e & ->)| ->]; [|reflexivity].
  unfold F32.sub, SFsub. cbn [cond_Zopp]. rewrite Z.min_id.
  rewrite Z.sub_diag. reflexivity.
Qed.

(** At origin 0 and scale 1 the source coordinate is the position itself,
    with nothing after the point. *)
Lemma src_coordinate_whole (x : Z) :
  0 <= x < 2 ^ 24 ->
  let c := src_coordinate 0 x F32.one in
  F32.to_int c = x /\ F32.sub c (F32.of_Z (F32.to_int c)) = F32.zero.
Proof.
  intros Hx c. split; [apply src_coordinate_identity, Hx|].
  assert (Ec : c = F32.of_Z x).
  { subst c. unfold src_coordinate. change (F32.of_Z 0) with F32.zero.
    destruct x as [|x|x]; [reflexivity| |lia].
    destruct (of_Z_pos x ltac:(lia)) as (m & e & -> & Hd & He & Hm).
    rewrite mul_one_canonical by (assumption || lia). reflexivity. }
  rewrite (src_coordinate_identity x Hx : F32.to_int c = x). rewrite Ec.
  apply sub_diag_finite.
  destruct x as [|x|x]; [right; reflexivity| |lia].
  destruct (of_Z_pos x ltac:(lia)) as (m & e & -> & _). left. eauto.
Qed.

(** At scale 1 the interpolating kernel is the copying one.  With zero
    origins and scale 1, a thread of [ScaleConvert_NV12_I420] at [(x, y)],
    [y] below the width, leaves the memory exactly as a thread of [NV12_I420]
    at the same position does: every fraction is zero, so each interpolation
    returns its first operand.  (It reads two more bytes, one row down.) *)
Theorem ScaleConvert_NV12_I420_at_scale_one (src dst_y dst_u dst_v : buffer) (W H : Z)
    (index : uint2) (m : memory) (b : buffer) (i : Z) :
  0 <= fst index < 2 ^ 24 -> 0 <= snd index < 2 ^ 24 -> snd index < W ->
  let c := identity_config W H in
  mem (run (ScaleConvert_NV12_I420 src c dst_y dst_u dst_v c identity_rect index) m) b i
  = mem (run (NV12_I420 src c dst_y dst_u dst_v c identity_rect index) m) b i.
Proof.
  intros Hx Hy HyW c. destruct index as [x y]. cbn [fst snd] in Hx, Hy, HyW.
  unfold run, ScaleConvert_NV12_I420, NV12_I420.
  unfold c, identity_config, identity_rect, cfg, rect,
    CONFIG_WIDTH, CONFIG_HEIGHT, CONFIG_X, CONFIG_Y, CONFIG_HALF_W, CONFIG_WH,
    RECT_KX, RECT_KY.
  cbn [nth fst snd].
  rewrite (s32_small x), (s32_small y) by lia.
  destruct (src_coordinate_whole x Hx) as [Ex Ex0].
  destruct (src_coordinate_whole y Hy) as [Ey Ey0].
  cbv zeta in Ex, Ex0, Ey, Ey0. rewrite Ex0, Ey0, Ex, Ey.
  destruct (Z.geb_spec y W) as [Hge|_]; [lia|].
  unfold load_uchar2. unfold bind at 1 2 3 4 5 6 7. cbn [load8 store8 ret fst snd mem log].
  rewrite !lerp_uchar_zero by (apply peek8_range || apply lerp_uchar_range).
  unfold bind at 2 3 4. cbn [load8 store8 ret fst snd mem log].
  match goal with
  | |- context [if ?g then _ else ret tt] => destruct g
  end.
  - unfold bind. cbn [load8 store8 ret fst snd mem log]. reflexivity.
  - reflexivity.
Qed.

(** ** Instances *)

Lemma NV12_padding_round_trip_witness :
  let m := mem_of [(slot0, [1; 2; 3; 4; 5; 6; 7; 8; 9; 10; 11; 12])] in
  let s1 := run (dispatch (NV12_Add_Padding slot0 4 3 slot1 8 6) (line 6)) m in
  let s2 := run (dispatch (NV12_Remove_Padding slot1 8 6 slot2 4 3) (line 3)) (mem s1) in
  mem s2 slot2 9 = 10.
Proof.
  exact (NV12_padding_round_trip slot0 slot1 slot2 4 3 8 6 (line 6) (line 3)
           (mem_of [(slot0, [1; 2; 3; 4; 5; 6; 7; 8; 9; 10; 11; 12])]) 9
           ltac:(discriminate) ltac:(discriminate) eq_refl ltac:(lia) ltac:(lia)
           ltac:(lia) ltac:(lia) (line_in_range 6) (line_covers 6)
           (line_in_range 3) (line_covers 3) ltac:(lia)).
Defined.

Lemma NV12_Add_Padding_fills_with_zeros_witness :
  let m := mem_of [(slot0, [1; 2; 3; 4; 5; 6; 7; 8; 9; 10; 11; 12]);
                   (slot1, [9; 9; 9; 9; 9; 9; 9; 9])] in
  mem (run (dispatch (NV12_Add_Padding slot0 4 3 slot1 8 6) (line 6)) m) slot1 5 = 0.
Proof.
  apply (NV12_Add_Padding_fills_with_zeros slot0 slot1 4 3 8 6 (line 6)
           (mem_of [(slot0, [1; 2; 3; 4; 5; 6; 7; 8; 9; 10; 11; 12]);
                    (slot1, [9; 9; 9; 9; 9; 9; 9; 9])]) 0 5).
  - discriminate.
  - reflexivity.
  - lia.
  - lia.
  - lia.
  - lia.
  - exact (line_in_range 6).
  - exact (line_covers 6).
  - lia.
  - vm_compute. split; [discriminate|reflexivity].
  - right. vm_compute. discriminate.
Defined.

Lemma NV12_I420_round_trip_witness :
  let m := mem_of [(slot0, [1; 2; 3; 4; 5; 6; 7; 8; 9; 10; 11; 12])] in
  let c := identity_config 4 2 in
  let s1 := run (dispatch (NV12_I420 slot0 c slot1 slot2 slot3 c identity_rect) (grid 4 2)) m in
  let s2 := run (dispatch (I420_NV12 slot1 slot2 slot3 c slot4 c identity_rect) (grid 4 2))
              (mem s1) in
  mem s2 slot4 10 = 11.
Proof.
  exact (NV12_I420_round_trip slot0 slot1 slot2 slot3 slot4 4 2 (grid 4 2) (grid 4 2)
           (mem_of [(slot0, [1; 2; 3; 4; 5; 6; 7; 8; 9; 10; 11; 12])]) 10
           ltac:(discriminate) ltac:(discriminate) ltac:(discriminate) ltac:(discriminate)
           ltac:(discriminate) ltac:(discriminate) ltac:(discriminate) ltac:(discriminate)
           ltac:(discriminate) eq_refl eq_refl ltac:(lia) ltac:(lia) ltac:(lia)
           (grid_in_image 4 2) (grid_covers 4 2) (grid_in_image 4 2) (grid_covers 4 2)
           ltac:(vm_compute; split; [discriminate|reflexivity])).
Defined.

Lemma NV12_I420_splits_chroma_witness :
  let m := mem_of [(slot0, [1; 2; 3; 4; 5; 6; 7; 8; 9; 10; 11; 12])] in
  let c := identity_config 4 2 in
  let s' := run (dispatch (NV12_I420 slot0 c slot1 slot2 slot3 c identity_rect) (grid 4 2)) m in
  mem s' slot1 5 = 6 /\ mem s' slot2 1 = 11 /\ mem s' slot3 1 = 12.
Proof.
  exact (NV12_I420_splits_chroma slot0 slot1 slot2 slot3 4 2 (grid 4 2)
           (mem_of [(slot0, [1; 2; 3; 4; 5; 6; 7; 8; 9; 10; 11; 12])]) 5 1
           ltac:(discriminate) ltac:(discriminate) ltac:(discriminate) ltac:(discriminate)
           ltac:(discriminate) ltac:(discriminate) eq_refl eq_refl ltac:(lia) ltac:(lia)
           ltac:(lia) (grid_in_image 4 2) (grid_covers 4 2) ltac:(lia)
           ltac:(vm_compute; split; [discriminate|reflexivity])).
Defined.

Lemma NV12_I420_chroma_cells_collide_witness :
  let m := mem_of [(slot0, map Z.of_nat (seq 0 36))] in
  let c := identity_config 6 4 in
  let k := NV12_I420 slot0 c slot1 slot2 slot3 c identity_rect in
  mem (run (dispatch k [(4, 0); (0, 2)]) m) slot2 2 = 30 /\
  mem (run (dispatch k [(0, 2); (4, 0)]) m) slot2 2 = 28.
Proof.
  exact (NV12_I420_chroma_cells_collide slot0 slot1 slot2 slot3 6 4 1
           (mem_of [(slot0, map Z.of_nat (seq 0 36))])
           ltac:(discriminate) ltac:(discriminate) ltac:(discriminate) ltac:(discriminate)
           ltac:(discriminate) eq_refl ltac:(lia) ltac:(lia) ltac:(lia) ltac:(lia)).
Defined.

Lemma ScaleConvert_NV12_I420_at_scale_one_witness :
  let m := mem_of [(slot0, [1; 2; 3; 4; 5; 6; 7; 8; 9; 10; 11; 12])] in
  let c := identity_config 4 2 in
  mem (run (ScaleConvert_NV12_I420 slot0 c slot1 slot2 slot3 c identity_rect (2, 0)) m) slot1 2
  = mem (run (NV12_I420 slot0 c slot1 slot2 slot3 c identity_rect (2, 0)) m) slot1 2.
Proof.
  apply (ScaleConvert_NV12_I420_at_scale_one slot0 slot1 slot2 slot3 4 2 (2, 0)); cbn [fst snd]; lia.
Defined.

Lemma GaussianBlur_touches_only_its_column_witness :
  let m := mem_of [(slot0, [1; 2; 3; 4]); (slot1, [5; 6; 7; 8])] in
  mem (run (GaussianBlur true slot0 2 2 F32.half F32.half F32.half F32.half F32.zero F32.zero
              F32.one F32.one slot1 (0, 0) (1, 1) (0, 0)) m) slot1 1 = 6.
Proof.
  apply (GaussianBlur_touches_only_its_column true slot0 slot1 2 2
           F32.half F32.half F32.half F32.half F32.zero F32.zero F32.one F32.one
           (0, 0) (1, 1) (0, 0)).
  right. change (blur_column (0, 0) (1, 1) (0, 0)) with 0. intros r Hr. lia.
Defined.

Lemma GaussianBlur_unit_filter_copies_witness :
  let m := mem_of [(slot0, [1; 2; 3; 4])] in
  mem (run (GaussianBlur true slot0 2 2
              F32.one F32.zero F32.zero F32.zero F32.zero F32.zero F32.one F32.zero
              slot1 (0, 0) (1, 1) (1, 0)) m) slot1 (1 + 1 * 2) = 4.
Proof.
  apply (GaussianBlur_unit_filter_copies true slot0 slot1 2 2 (0, 0) (1, 1) (1, 0)
           (mem_of [(slot0, [1; 2; 3; 4])]) 1).
  - discriminate.
  - change (blur_column (0, 0) (1, 1) (1, 0)) with 1. lia.
  - lia.
Defined.

Lemma ResizeBillinear_reads_inside_source_witness :
  let m := mem_of [(slot0, [10; 20; 30; 40])] in
  slot0 = slot0 /\ exists x y, 0 <= x < 2 /\ 0 <= y < 2 /\ 3 = y * 2 + x.
Proof.
  apply (ResizeBillinear_reads_inside_source slot0 2 2 2 F32.half F32.half slot1 4 4 4 (3, 3)
           (mem_of [(slot0, [10; 20; 30; 40])]) slot0 3); try lia.
  vm_compute. tauto.
Defined.

Lemma Fusion_threads_are_independent_witness :
  let m := mem_of [(slot0, [7; 8]); (slot1, [1; 2; 3; 4; 5; 6; 7; 8]); (slot2, [0; 255])] in
  let k := on_thread (Fusion slot0 slot1 slot2 2 1 F32.half F32.one slot3) in
  let t : thread_ids := ((0, 0), (2, 1), (1, 0)) in
  mem (run (dispatch k [((0, 0), (2, 1), (0, 0)); t]) m) slot3 1 = mem (run (k t) m) slot3 1.
Proof.
  apply (Fusion_threads_are_independent slot0 slot1 slot2 2 1 F32.half F32.one slot3
           [((0, 0), (2, 1), (0, 0)); ((0, 0), (2, 1), (1, 0))] ((0, 0), (2, 1), (1, 0))).
  - discriminate.
  - discriminate.
  - discriminate.
  - right. left. reflexivity.
  - vm_compute. reflexivity.
  - vm_compute. reflexivity.
Defined.

Lemma GaussianBlur_threads_are_independent_witness :
  let m := mem_of [(slot0, [1; 2; 3; 4])] in
  let k := on_thread (GaussianBlur true slot0 2 2 F32.half F32.half F32.half F32.half
                        F32.zero F32.zero F32.one F32.one slot1) in
  let t : thread_ids := ((0, 0), (1, 1), (1, 0)) in
  mem (run (dispatch k [t; ((0, 0), (1, 1), (0, 0))]) m) slot1 (1 + 1 * 2)
  = mem (run (k t) m) slot1 (1 + 1 * 2).
Proof.
  apply (GaussianBlur_threads_are_independent true slot0 slot1 2 2
           F32.half F32.half F32.half F32.half F32.zero F32.zero F32.one F32.one
           [((0, 0), (1, 1), (1, 0)); ((0, 0), (1, 1), (0, 0))] ((0, 0), (1, 1), (1, 0))
           (mem_of [(slot0, [1; 2; 3; 4])]) 1).
  - discriminate.
  - repeat constructor; vm_compute; discriminate.
  - left. reflexivity.
  - vm_compute. reflexivity.
  - lia.
Defined.

Lemma ResizeBillinear_threads_are_independent_witness :
  let m := mem_of [(slot0, [10; 20; 30; 40])] in
  let k := ResizeBillinear slot0 2 2 2 F32.one F32.one slot1 2 2 2 in
  mem (run (dispatch k (grid 2 2)) m) slot1 (1 * 2 + 1) = mem (run (k (1, 1)) m) slot1 (1 * 2 + 1).
Proof.
  apply (ResizeBillinear_threads_are_independent slot0 2 2 2 F32.one F32.one slot1 2 2 2
           (grid 2 2) (1, 1)).
  - discriminate.
  - lia.
  - lia.
  - lia.
  - lia.
  - repeat constructor; vm_compute; discriminate.
  - apply grid_covers. split; cbn [fst snd]; lia.
  - vm_compute. reflexivity.
  - vm_compute. reflexivity.
Defined.
